(** * piezo-conditioner: damped-sinusoid fitting and SPICE export

    A shallow embedding of the numerical core of
    [SPICE_Models/wav_to_exp_analytical.py] (class [PiezoAutoFitter]) and of
    the delayed-event synthesiser in [scripts/piezo_gui.py], together with
    the NumPy/SciPy routines they call.

    Numbers.  Python floats are idealised as real numbers: arithmetic is
    exact, there is no NaN, no infinity and no signed zero.  The one place
    where the program itself rounds, the fixed-point presentation type of
    format strings ([{x:.5f}]), is modelled exactly as round-half-even on
    the scaled value. *)

From Stdlib Require Import String Ascii DecimalString.
From stdpp Require Import base gmap strings.
From Stdlib Require Import Reals Lra Lia ZArith List Zfloor Sorted Permutation.
Import ListNotations.

#[local] Open Scope R_scope.

#[global] Instance R_inhabited : Inhabited R := populate 0.

(** ** Boolean comparisons on reals *)

Definition Rltb (x y : R) : bool := if Rlt_dec x y then true else false.
Definition Rleb (x y : R) : bool := if Rle_dec x y then true else false.

(** ** Fixed-point formatting: the ['f'] presentation type *)

Module Fmt.

(** Round to the nearest integer, ties to the even neighbour. *)
Definition round_half_even (x : R) : Z :=
  let n := Zfloor x in
  let r := x - IZR n in
  if Rlt_dec r (1 / 2) then n
  else if Rlt_dec (1 / 2) r then (n + 1)%Z
  else if Z.even n then n else (n + 1)%Z.

(** A decimal literal as it is printed: sign, digits and the number of
    digits after the point. *)
Record fixed : Type := Fixed {
  f_neg : bool;
  f_units : Z;
  f_prec : nat
}.

(** [to_fixed prec x] is what [f"{x:.<prec>f}"] prints: the magnitude is
    rounded at [prec] decimals and the sign of [x] is kept even when the
    magnitude rounds to zero.  Sign and ties are those of the real number
    [x]: a float negative zero, printed with a minus sign, and a decimal
    tie that the nearest binary float misses are outside the model. *)
Definition to_fixed (prec : nat) (x : R) : fixed :=
  {| f_neg := Rltb x 0;
     f_units := round_half_even (Rabs x * 10 ^ prec);
     f_prec := prec |}.

Definition digit (n : Z) : ascii :=
  ascii_of_nat (48 + Z.to_nat (n mod 10)).

Fixpoint frac_digits (w : nat) (n : Z) : string :=
  match w with
  | O => EmptyString
  | S w' => frac_digits w' (n / 10) ++ String (digit n) EmptyString
  end.

Definition int_digits (n : Z) : string :=
  NilZero.string_of_uint (N.to_uint (Z.to_N n)).

Definition fixed_str (d : fixed) : string :=
  let scale := (10 ^ Z.of_nat (f_prec d))%Z in
  (if f_neg d then "-" else "")
    ++ int_digits (f_units d / scale)
    ++ "." ++ frac_digits (f_prec d) (f_units d mod scale).

(** The number a printed literal denotes. *)
Definition fixed_val (d : fixed) : R :=
  (if f_neg d then -1 else 1) * (IZR (f_units d) / 10 ^ f_prec d).

Definition format_f (prec : nat) (x : R) : string :=
  fixed_str (to_fixed prec x).

End Fmt.


(** ** NumPy routines used by the fitter

    Arrays are lists; [x[i]] on an index in range is [nth i x 0].  A complex
    number is a pair (real part, imaginary part). *)

Module np.

Definition getitem (x : list R) (i : nat) : R := nth i x 0.

Definition sum (l : list R) : R := fold_right Rplus 0 l.

(** [np.fft.fft]: [yf[k] = sum_n a[n] * exp(-2 pi i k n / N)]. *)
Definition fft_bin (a : list R) (k : nat) : R * R :=
  let N := length a in
  let theta n := 2 * PI * INR k * INR n / INR N in
  (sum (imap (fun n x => x * cos (theta n)) a),
   - sum (imap (fun n x => x * sin (theta n)) a)).

Definition fft (a : list R) : list (R * R) :=
  map (fft_bin a) (seq 0 (length a)).

(** [np.abs] on a complex array. *)
Definition abs_complex (z : R * R) : R := sqrt (fst z * fst z + snd z * snd z).

(** [np.fft.fftfreq(n, d)]: the integers [0 .. (n-1)//2] followed by
    [-(n//2) .. -1], all multiplied by [1 / (n * d)]. *)
Definition fftfreq (n : nat) (d : R) : list R :=
  let val := 1 / (INR n * d) in
  let p1 := map Z.of_nat (seq 0 ((n - 1) / 2 + 1)) in
  let p2 := map (fun i => (Z.of_nat i - Z.of_nat (n / 2))%Z) (seq 0 (n / 2)) in
  map (fun r => IZR r * val) (take n (p1 ++ p2)).

(** [np.max]: [None] stands for the [ValueError] raised on an empty array. *)
Definition max (l : list R) : option R :=
  match l with
  | [] => None
  | x :: l' => Some (fold_left Rmax l' x)
  end.

(** [np.linspace(start, stop, num)], end point included. *)
Definition linspace (start stop : R) (num : nat) : list R :=
  map (fun i => start + INR i * ((stop - start) / (INR num - 1))) (seq 0 num).

(** [np.argsort], as a stable insertion sort of the indices by key
    (ascending).  NumPy's default sort does not promise an order among
    equal keys; the properties below that depend on the order are proved
    for every ordering of ties. *)
Fixpoint insert_by (key : nat -> R) (i : nat) (l : list nat) : list nat :=
  match l with
  | [] => [i]
  | j :: l' => if Rleb (key i) (key j) then i :: j :: l' else j :: insert_by key i l'
  end.

Definition argsort (a : list R) : list nat :=
  fold_right (insert_by (getitem a)) [] (seq 0 (length a)).

(** Indexing by an integer array, [x[idx]], and by a boolean mask. *)
Definition take_idx {A} (d : A) (x : list A) (idx : list nat) : list A :=
  map (fun i => nth i x d) idx.

Fixpoint take_mask {A} (x : list A) (keep : list bool) : list A :=
  match x, keep with
  | a :: x', b :: keep' => if b then a :: take_mask x' keep' else take_mask x' keep'
  | _, _ => []
  end.

End np.

(** ** SciPy: [scipy.signal.find_peaks] with [height] and [distance] *)

Module signal.

Definition Reqb (x y : R) : bool := negb (Rltb x y) && negb (Rltb y x).

(** Inner loop of [_local_maxima_1d]: advance [i_ahead] to the next sample
    unequal to [x[i]], never beyond [i_max]. *)
Fixpoint plateau_end (fuel : nat) (x : list R) (i i_ahead i_max : nat) : nat :=
  match fuel with
  | O => i_ahead
  | S fuel' =>
      if (i_ahead <? i_max)%nat && Reqb (np.getitem x i_ahead) (np.getitem x i)
      then plateau_end fuel' x i (S i_ahead) i_max
      else i_ahead
  end.

(** Outer loop of [_local_maxima_1d], returning the plateau midpoints. *)
Fixpoint local_maxima_loop (fuel : nat) (x : list R) (i i_max : nat) : list nat :=
  match fuel with
  | O => []
  | S fuel' =>
      if (i <? i_max)%nat then
        if Rltb (np.getitem x (i - 1)) (np.getitem x i) then
          let i_ahead := plateau_end (length x) x i (i + 1) i_max in
          if Rltb (np.getitem x i_ahead) (np.getitem x i) then
            ((i + (i_ahead - 1)) / 2)%nat
              :: local_maxima_loop fuel' x (i_ahead + 1) i_max
          else local_maxima_loop fuel' x (i + 1) i_max
        else local_maxima_loop fuel' x (i + 1) i_max
      else []
  end.

Definition local_maxima_1d (x : list R) : list nat :=
  local_maxima_loop (length x) x 1 (length x - 1).

(** [_select_by_property] with a minimal value only. *)
Definition select_by_property (peak_properties : list R) (pmin : R) : list bool :=
  map (fun p => Rleb pmin p) peak_properties.

(** The two inner loops of [_select_by_peak_distance]: flag the earlier,
    then the later, peaks that are closer than [distance] to peak [j]. *)
Fixpoint clear_left (peaks : list nat) (pj distance : nat) (k1 : nat)
    (keep : list bool) : list bool :=
  match k1 with
  | O => keep
  | S k =>
      if (Z.of_nat pj - Z.of_nat (nth k peaks O) <? Z.of_nat distance)%Z
      then clear_left peaks pj distance k (<[k := false]> keep)
      else keep
  end.

Fixpoint clear_right (fuel : nat) (peaks : list nat) (pj distance : nat) (k : nat)
    (keep : list bool) : list bool :=
  match fuel with
  | O => keep
  | S fuel' =>
      if (k <? length peaks)%nat
         && (Z.of_nat (nth k peaks O) - Z.of_nat pj <? Z.of_nat distance)%Z
      then clear_right fuel' peaks pj distance (S k) (<[k := false]> keep)
      else keep
  end.

Definition distance_step (peaks : list nat) (distance : nat)
    (keep : list bool) (j : nat) : list bool :=
  if nth j keep false then
    let pj := nth j peaks O in
    let keep1 := clear_left peaks pj distance j keep in
    clear_right (length peaks) peaks pj distance (j + 1) keep1
  else keep.

(** The main loop visits the peaks from the highest priority down. *)
Definition select_in_order (peaks : list nat) (distance : nat)
    (order : list nat) : list bool :=
  fold_left (distance_step peaks distance) order
            (repeat true (length peaks)).

Definition select_by_peak_distance (peaks : list nat) (priority : list R)
    (distance : nat) : list bool :=
  select_in_order peaks distance (rev (np.argsort priority)).

(** [find_peaks(x, height=h, distance=d)[0]]. *)
Definition find_peaks (x : list R) (height : R) (distance : nat) : list nat :=
  let peaks := local_maxima_1d x in
  let peak_heights := np.take_idx 0 x peaks in
  let peaks := np.take_mask peaks (select_by_property peak_heights height) in
  let keep := select_by_peak_distance peaks (np.take_idx 0 x peaks) distance in
  np.take_mask peaks keep.

End signal.

(** ** The expression language of the exported [VALUE={...}] source

    The exporters build text with format strings.  [Spice.expr] is the
    syntax of that text, [Spice.text] prints it the way the format strings
    lay it out, and [Spice.eval] is the value the circuit simulator gives
    it at simulation time [time]. *)

Module Spice.

Inductive expr : Type :=
| Num (d : Fmt.fixed)
| Int (n : Z)
| Time
| Neg (e : expr)
| Add (a b : expr)
| Sub (a b : expr)
| Mul (a b : expr)
| Gt (a b : expr)
| Exp (e : expr)
| Sin (e : expr)
| Paren (e : expr).

Fixpoint eval (e : expr) (time : R) : R :=
  match e with
  | Num d => Fmt.fixed_val d
  | Int n => IZR n
  | Time => time
  | Neg e => - eval e time
  | Add a b => eval a time + eval b time
  | Sub a b => eval a time - eval b time
  | Mul a b => eval a time * eval b time
  | Gt a b => if Rltb (eval b time) (eval a time) then 1 else 0
  | Exp e => exp (eval e time)
  | Sin e => sin (eval e time)
  | Paren e => eval e time
  end.

Fixpoint text (e : expr) : string :=
  match e with
  | Num d => Fmt.fixed_str d
  | Int n => Fmt.int_digits n
  | Time => "time"
  | Neg e => "-" ++ text e
  | Add a b => text a ++ " + " ++ text b
  | Sub a b => text a ++ " - " ++ text b
  | Mul a b => text a ++ " * " ++ text b
  | Gt a b => text a ++ " > " ++ text b
  | Exp e => "exp(" ++ text e ++ ")"
  | Sin e => "sin(" ++ text e ++ ")"
  | Paren e => "(" ++ text e ++ ")"
  end.

(** The literal [6.283185] that the exporter writes for [2 * pi]. *)
Definition two_pi_literal : Fmt.fixed := Fmt.Fixed false 6283185 6.

End Spice.

(** ** Exceptions and results *)

Inductive exn : Type :=
| TypeError (msg : string)
| ValueError (msg : string)
| RuntimeError (msg : string)
| ZeroDivisionError (msg : string).

Definition exn_msg (e : exn) : string :=
  match e with
  | TypeError m | ValueError m | RuntimeError m | ZeroDivisionError m => m
  end.

Inductive result (A : Type) : Type :=
| Return (a : A)
| Raise (e : exn).
Arguments Return {A} a.
Arguments Raise {A} e.

(** Bounds handed to the optimiser: a real number or [-inf] / [+inf]. *)
Inductive bound : Type :=
| NegInf
| Fin (r : R)
| PosInf.

Definition bound_le_l (b : bound) (x : R) : Prop :=
  match b with NegInf => True | Fin r => r <= x | PosInf => False end.

Definition bound_le_r (x : R) (b : bound) : Prop :=
  match b with NegInf => False | Fin r => x <= r | PosInf => True end.

(** The signature of [scipy.optimize.curve_fit] as the fitter calls it:
    model function, [xdata], [ydata], [p0], [(lower, upper)] bounds and
    [maxfev]; it returns the optimal parameters or raises. *)
Definition model_fn : Type := R -> R -> R -> R -> R -> R -> R -> R -> R -> R.

Definition curve_fit_t : Type :=
  model_fn -> list R -> list R -> list R -> list bound * list bound -> Z ->
  result (list R).

Definition newline : string := String "010"%char EmptyString.

(** ** [SPICE_Models/wav_to_exp_analytical.py]: class [PiezoAutoFitter] *)

Module PiezoAutoFitter.

(** The fields of the object that the numerical code touches; [params] is
    the dictionary of the nine model parameters. *)
Record t : Type := mk {
  sample_rate : Z;
  data : option (list R);
  time : option (list R);
  filepath : string;
  params : gmap string R
}.

(** [__init__] *)
Definition init_params : gmap string R :=
  list_to_map
    [("amp1", 1.0); ("decay1", 10.0); ("freq1", 100.0); ("phase1", 0.0);
     ("amp2", 0.5); ("decay2", 50.0); ("freq2", 400.0); ("phase2", 0.0);
     ("scale", 1.0)].

Definition init : t :=
  {| sample_rate := 0; data := None; time := None; filepath := "";
     params := init_params |}.

(** The last two assignments of [load_wav], once the recording has been
    read and trimmed to the window [d]: the samples and their time axis. *)
Definition set_window (self : t) (sr : Z) (d : list R) : t :=
  mk sr (Some d)
     (Some (np.linspace 0 (INR (length d) / IZR sr) (length d)))
     (filepath self) (params self).

(** [dual_damped_sine]: sum of two damped sine waves. *)
Definition dual_damped_sine : model_fn := fun t a1 d1 f1 p1 a2 d2 f2 p2 =>
  let c1 := a1 * exp (- d1 * t) * sin (2 * PI * f1 * t + p1) in
  let c2 := a2 * exp (- d2 * t) * sin (2 * PI * f2 * t + p2) in
  c1 + c2.

(** *** [perform_auto_fit], step 1: spectrum and its peaks *)

Definition spectrum_mag (d : list R) : list R :=
  map np.abs_complex (take (length d / 2) (np.fft d)).

Definition spectrum_freqs (d : list R) (sr : Z) : list R :=
  take (length d / 2) (np.fftfreq (length d) (1 / IZR sr)).

Definition sorted_peak_indices (mag : list R) (mag_max : R) : list nat :=
  let peaks := signal.find_peaks mag (mag_max * 0.1) 50 in
  np.take_idx O peaks (rev (np.argsort (np.take_idx 0 mag peaks))).

(** *** The initial guess *)

Definition guess_f1 (freqs : list R) (sorted : list nat) : R :=
  if (0 <? length sorted)%nat then np.getitem freqs (nth 0 sorted O) else 100.0.

Definition guess_f2 (freqs : list R) (sorted : list nat) : R :=
  if (1 <? length sorted)%nat then np.getitem freqs (nth 1 sorted O)
  else guess_f1 freqs sorted * 2.

Definition initial_guess (max_amp gf1 gf2 : R) : list R :=
  let guess_a1 := max_amp * 0.7 in
  let guess_a2 := max_amp * 0.3 in
  let guess_d1 := 20.0 in
  let guess_d2 := 50.0 in
  [guess_a1; guess_d1; gf1; 0.0; guess_a2; guess_d2; gf2; 0.0].

Definition lower_bounds : list bound :=
  [NegInf; Fin 0; Fin 1; Fin (- PI); NegInf; Fin 0; Fin 1; Fin (- PI)].

Definition upper_bounds : list bound :=
  [PosInf; Fin 1000; Fin 20000; Fin PI; PosInf; Fin 1000; Fin 20000; Fin PI].

Definition unpack_error (got : nat) : exn :=
  ValueError ("not enough values to unpack (expected 4, got "
              ++ Fmt.int_digits (Z.of_nat got) ++ ")").

(** *** The [try] block: the fit and the two unpacking assignments.
    It returns the dictionary as far as it was written and the exception,
    if one was raised. *)
Definition try_fit (curve_fit : curve_fit_t) (self : t) (d : list R)
    (p0 : list R) : gmap string R * option exn :=
  let p := params self in
  let fitted :=
    match time self with
    | Some tm =>
        curve_fit dual_damped_sine tm d p0 (lower_bounds, upper_bounds) 20000%Z
    | None => Raise (ValueError "object of type 'NoneType' has no len()")
    end in
  match fitted with
  | Raise e => (p, Some e)
  | Return popt =>
      match take 4 popt with
      | [a1; d1; f1; p1] =>
          let p := <["phase1" := p1]> (<["freq1" := f1]>
                   (<["decay1" := d1]> (<["amp1" := a1]> p))) in
          match take 4 (drop 4 popt) with
          | [a2; d2; f2; p2] =>
              (<["phase2" := p2]> (<["freq2" := f2]>
               (<["decay2" := d2]> (<["amp2" := a2]> p))), None)
          | rest => (p, Some (unpack_error (length rest)))
          end
      | rest => (p, Some (unpack_error (length rest)))
      end
  end.

(** The contract assumed of the optimiser for the bounds of this call: a
    returned vector lies within them. *)
Definition within_bounds (curve_fit : curve_fit_t) : Prop :=
  forall (tm d p0 popt : list R),
    curve_fit dual_damped_sine tm d p0 (lower_bounds, upper_bounds) 20000%Z
    = Return popt ->
    Forall2 bound_le_l lower_bounds popt /\ Forall2 bound_le_r popt upper_bounds.

(** *** [perform_auto_fit]: the text printed and the object afterwards,
    or the exception that reaches the caller. *)
Definition perform_auto_fit (curve_fit : curve_fit_t) (self : t)
    : list string * result t :=
  let out := ["Analyzing signal spectrum..."] in
  match data self with
  | None => (out, Raise (TypeError "object of type 'NoneType' has no len()"))
  | Some d =>
  let N := length d in
  if (N =? 0)%nat
  then (out, Raise (ValueError "Invalid number of FFT data points (0) specified."))
  else if (sample_rate self =? 0)%Z
  then (out, Raise (ZeroDivisionError "division by zero"))
  else
  let mag := spectrum_mag d in
  let freqs := spectrum_freqs d (sample_rate self) in
  match np.max mag with
  | None =>
      (out, Raise (ValueError
         "zero-size array to reduction operation maximum which has no identity"))
  | Some mag_max =>
  let sorted := sorted_peak_indices mag mag_max in
  let gf1 := guess_f1 freqs sorted in
  let gf2 := guess_f2 freqs sorted in
  let max_amp := default 0 (np.max (map Rabs d)) in
  let p0 := initial_guess max_amp gf1 gf2 in
  let out := out ++ ["Running Least Squares Optimization..."] in
  match try_fit curve_fit self d p0 with
  | (p, None) =>
      (out ++ ["Fit successful."],
       Return (mk (sample_rate self) (data self) (time self) (filepath self) p))
  | (p, Some e) =>
      (out ++ [("Fit failed, using guesses: " ++ exn_msg e)%string],
       Return (mk (sample_rate self) (data self) (time self) (filepath self)
                  (<["freq2" := gf2]> (<["freq1" := gf1]> p))))
  end
  end
  end.


(** The two guessed frequencies and the start vector [p0], as functions
    of the loaded window and the sample rate.  They are the numbers that
    [perform_auto_fit] computes for a window of at least two samples; for
    a shorter window the program raises before it guesses (the half
    spectrum is empty and [np.max] fails), where these functions fall back
    on a maximum of 0. *)
Definition guessed_frequencies (d : list R) (sr : Z) : R * R :=
  let mag := spectrum_mag d in
  let freqs := spectrum_freqs d sr in
  let sorted := sorted_peak_indices mag (default 0 (np.max mag)) in
  (guess_f1 freqs sorted, guess_f2 freqs sorted).

Definition start_vector (d : list R) (sr : Z) : list R :=
  let gf := guessed_frequencies d sr in
  initial_guess (default 0 (np.max (map Rabs d))) (fst gf) (snd gf).

(** The text printed on the two ways out of the [try] statement. *)
Definition out_success : list string :=
  ["Analyzing signal spectrum..."; "Running Least Squares Optimization...";
   "Fit successful."].

Definition out_fallback (e : exn) : list string :=
  ["Analyzing signal spectrum..."; "Running Least Squares Optimization...";
   ("Fit failed, using guesses: " ++ exn_msg e)%string].

Definition with_params (self : t) (p : gmap string R) : t :=
  mk (sample_rate self) (data self) (time self) (filepath self) p.

(** *** [on_slider_change] and the signal drawn by [update_plot] *)

Definition on_slider_change (self : t) (key : string) (val : R) : t :=
  mk (sample_rate self) (data self) (time self) (filepath self)
     (<[key := val]> (params self)).

Definition plot_c1 (p : gmap string R) (t : R) : R :=
  p !!! "amp1" * exp (- p !!! "decay1" * t)
    * sin (2 * PI * p !!! "freq1" * t + p !!! "phase1").

Definition plot_c2 (p : gmap string R) (t : R) : R :=
  p !!! "amp2" * exp (- p !!! "decay2" * t)
    * sin (2 * PI * p !!! "freq2" * t + p !!! "phase2").

Definition total_signal (p : gmap string R) (t : R) : R :=
  (plot_c1 p t + plot_c2 p t) * p !!! "scale".

(** [update_plot]: the points set on the red line, [None] when no file
    has been loaded. *)
Definition update_plot (self : t) : option (list (R * R)) :=
  match data self, time self with
  | Some _, Some tm => Some (map (fun t => (t, total_signal (params self) t)) tm)
  | _, _ => None
  end.

End PiezoAutoFitter.

(** ** [PiezoAutoFitter.export_spice] *)

Module SpiceExport.

Import PiezoAutoFitter.

(** The scale factor is distributed into the amplitudes. *)
Definition a1_final (p : gmap string R) : R := p !!! "amp1" * p !!! "scale".
Definition a2_final (p : gmap string R) : R := p !!! "amp2" * p !!! "scale".

(** The format string shared by [comp1] and [comp2]. *)
Definition component (a d f ph : R) : string :=
  (Fmt.format_f 5 a ++ " * exp(-" ++ Fmt.format_f 5 d
     ++ " * time) * sin(6.283185 * " ++ Fmt.format_f 5 f
     ++ " * time + " ++ Fmt.format_f 5 ph ++ ")")%string.

Definition comp1 (p : gmap string R) : string :=
  component (a1_final p) (p !!! "decay1") (p !!! "freq1") (p !!! "phase1").

Definition comp2 (p : gmap string R) : string :=
  component (a2_final p) (p !!! "decay2") (p !!! "freq2") (p !!! "phase2").

Definition model_name : string := "CUSTOM_PIEZO".
Definition filename : string := "piezo_auto_model.sub".

Definition content (p : gmap string R) : string :=
  (newline
   ++ ".SUBCKT " ++ model_name ++ " out gnd" ++ newline
   ++ newline
   ++ "* Generated Automated Model" ++ newline
   ++ "* Dual-Component Damped Sine Approximation" ++ newline
   ++ "* Component 1: F=" ++ Fmt.format_f 1 (p !!! "freq1")
   ++ "Hz, Decay=" ++ Fmt.format_f 1 (p !!! "decay1") ++ newline
   ++ "* Component 2: F=" ++ Fmt.format_f 1 (p !!! "freq2")
   ++ "Hz, Decay=" ++ Fmt.format_f 1 (p !!! "decay2") ++ newline
   ++ newline
   ++ "E1 out gnd VALUE={" ++ newline
   ++ "+ " ++ comp1 p ++ " " ++ newline
   ++ "+ + " ++ newline
   ++ "+ " ++ comp2 p ++ newline
   ++ "+ }" ++ newline
   ++ newline
   ++ ".ENDS " ++ model_name ++ newline)%string.

(** [export_spice]: the file written (name and text), nothing when no
    recording has been loaded. *)
Definition export_spice (self : t) : option (string * string) :=
  match data self with
  | None => None
  | Some _ => Some (filename, content (params self))
  end.

(** The syntax of one component string and of the whole source value. *)
Definition component_expr (a d f ph : R) : Spice.expr :=
  Spice.Mul
    (Spice.Mul (Spice.Num (Fmt.to_fixed 5 a))
       (Spice.Exp (Spice.Mul (Spice.Neg (Spice.Num (Fmt.to_fixed 5 d))) Spice.Time)))
    (Spice.Sin
       (Spice.Add
          (Spice.Mul
             (Spice.Mul (Spice.Num Spice.two_pi_literal)
                        (Spice.Num (Fmt.to_fixed 5 f)))
             Spice.Time)
          (Spice.Num (Fmt.to_fixed 5 ph)))).

Definition comp1_expr (p : gmap string R) : Spice.expr :=
  component_expr (a1_final p) (p !!! "decay1") (p !!! "freq1") (p !!! "phase1").

Definition comp2_expr (p : gmap string R) : Spice.expr :=
  component_expr (a2_final p) (p !!! "decay2") (p !!! "freq2") (p !!! "phase2").

Definition value_expr (p : gmap string R) : Spice.expr :=
  Spice.Add (comp1_expr p) (comp2_expr p).

End SpiceExport.

(** ** [scripts/piezo_gui.py]: the delayed-event synthesiser *)

Module PiezoGui.

(** One [SignalControls] panel: the visibility box and the four spin
    boxes read by [get_values] (delay in milliseconds). *)
Record SignalControls : Type := {
  is_visible : bool;
  get_values : gmap string R
}.

(** [calculate_signal], at one element [t] of the time array.  The
    damping spin box keeps [zeta] between 0.01 and 0.99; beyond 1 the
    program's [np.sqrt] gives nan, where [sqrt] here is 0. *)
Definition calculate_signal (control : SignalControls) (t : R) : R :=
  let values := get_values control in
  let amplitude := values !!! "amplitude" in
  let delay := values !!! "delay" / 1000 in
  let freq := values !!! "frequency" in
  let zeta := values !!! "damping" in
  let omega := 2 * PI * freq in
  let alpha := zeta * omega in
  let phase_factor := sqrt (1 - zeta ^ 2) in
  let mask := Rleb delay t in
  if mask then
    let t_shifted := t - delay in
    amplitude * exp (- alpha * t_shifted) * sin (omega * phase_factor * t_shifted)
  else 0.

(** The combined signal drawn by [update_plot]. *)
Definition combined (controls : list SignalControls) (t : R) : R :=
  fold_left
    (fun acc control =>
       if is_visible control then acc + calculate_signal control t else acc)
    controls 0.

(** The line appended to the model text for one visible control. *)
Definition event_line (amp alpha omega phase_factor delay : R) : string :=
  (newline ++ "+ " ++ Fmt.format_f 1 amp
     ++ " * exp(-" ++ Fmt.format_f 8 alpha
     ++ " * (time - " ++ Fmt.format_f 6 delay
     ++ ")) * sin(" ++ Fmt.format_f 8 omega
     ++ " * " ++ Fmt.format_f 8 phase_factor
     ++ " * (time - " ++ Fmt.format_f 6 delay
     ++ ")) * ((time - " ++ Fmt.format_f 6 delay ++ ") > 0)")%string.

Definition control_line (control : SignalControls) : string :=
  let values := get_values control in
  let amp := values !!! "amplitude" in
  let delay := values !!! "delay" / 1000 in
  let freq := values !!! "frequency" in
  let zeta := values !!! "damping" in
  let omega := 2 * PI * freq in
  let alpha := zeta * omega in
  let phase_factor := sqrt (1 - zeta ^ 2) in
  event_line amp alpha omega phase_factor delay.

Definition header (now : string) : string :=
  ("* Multiple Piezoelectric Sensor Response Library" ++ newline
   ++ "* Generated: " ++ now ++ newline
   ++ "* Dynamic multi-signal configuration" ++ newline
   ++ newline
   ++ ".SUBCKT MULTI_PIEZO out gnd" ++ newline
   ++ newline
   ++ "* Combined response of multiple events" ++ newline
   ++ "E1 out gnd VALUE={")%string.

(** [generate_spice_model]; [now] is the formatted current time. *)
Definition generate_spice_model (now : string) (controls : list SignalControls)
    : string :=
  let loop :=
    fold_left
      (fun (st : string * bool) control =>
         let (model, first) := st in
         if negb (is_visible control) then st
         else
           let model := if negb first then (model ++ "+")%string else model in
           ((model ++ control_line control)%string, false))
      controls (header now, true) in
  (fst loop ++ newline ++ "+ }" ++ newline ++ newline ++ ".ENDS MULTI_PIEZO")%string.

(** The syntax of one event line. *)
Definition event_expr (amp alpha omega phase_factor delay : R) : Spice.expr :=
  let shifted := Spice.Paren (Spice.Sub Spice.Time (Spice.Num (Fmt.to_fixed 6 delay))) in
  Spice.Mul
    (Spice.Mul
       (Spice.Mul (Spice.Num (Fmt.to_fixed 1 amp))
          (Spice.Exp (Spice.Mul (Spice.Neg (Spice.Num (Fmt.to_fixed 8 alpha))) shifted)))
       (Spice.Sin
          (Spice.Mul
             (Spice.Mul (Spice.Num (Fmt.to_fixed 8 omega))
                        (Spice.Num (Fmt.to_fixed 8 phase_factor)))
             shifted)))
    (Spice.Paren (Spice.Gt shifted (Spice.Int 0))).

Definition control_expr (control : SignalControls) : Spice.expr :=
  let values := get_values control in
  let amp := values !!! "amplitude" in
  let delay := values !!! "delay" / 1000 in
  let freq := values !!! "frequency" in
  let zeta := values !!! "damping" in
  let omega := 2 * PI * freq in
  let alpha := zeta * omega in
  let phase_factor := sqrt (1 - zeta ^ 2) in
  event_expr amp alpha omega phase_factor delay.

End PiezoGui.

(** ** The waveform model as the design document words it

    [evaluate] is written from the prose definition, to be compared with
    the functions of the program: the value at [t] is
    [global_scale * sum_i amplitude_i * exp (- decay_rate_i * t)
                         * sin (2 pi frequency_i t + phase_i)]. *)

Module WaveformModel.

Record ComponentParams : Type := {
  amplitude : R;
  decay_rate : R;
  frequency : R;
  phase : R
}.

Record ParameterSet : Type := {
  components : list ComponentParams;
  global_scale : R
}.

Definition component_value (c : ComponentParams) (t : R) : R :=
  amplitude c * exp (- decay_rate c * t) * sin (2 * PI * frequency c * t + phase c).

Definition evaluate (ps : ParameterSet) (t : R) : R :=
  global_scale ps * np.sum (map (fun c => component_value c t) (components ps)).

(** The parameter set held in the fitter's dictionary. *)
Definition of_params (p : gmap string R) : ParameterSet :=
  {| components :=
       [ {| amplitude := p !!! "amp1"; decay_rate := p !!! "decay1";
            frequency := p !!! "freq1"; phase := p !!! "phase1" |};
         {| amplitude := p !!! "amp2"; decay_rate := p !!! "decay2";
            frequency := p !!! "freq2"; phase := p !!! "phase2" |} ];
     global_scale := p !!! "scale" |}.

(** The delayed-event term with the strict causal gate
    [(t - delay) > 0], as a function of the five numbers of an event. *)
Definition event_value (amp alpha omega phase_factor delay t : R) : R :=
  amp * exp (- alpha * (t - delay)) * sin (omega * phase_factor * (t - delay))
    * (if Rltb 0 (t - delay) then 1 else 0).

End WaveformModel.

(** ** Distance between the model and the exported expression

    [half_ulp5] is half a unit of the fifth decimal; [deviation_bound a f t]
    bounds what one component with scaled amplitude [a] and frequency [f]
    can lose at time [t] through the five-decimal literals and the
    literal [6.283185]. *)

Definition half_ulp5 : R := 0.000005.

Definition deviation_bound (a f t : R) : R :=
  half_ulp5
  + Rabs a
    * (half_ulp5
       + (half_ulp5 + Rabs (2 * PI - 6.283185) * Rabs f + 6.283185 * half_ulp5) * t).

(** ** What a peak is

    Following the documentation of [find_peaks]: a local maximum is a
    sample, or a run of equal samples (a flat peak), whose two direct
    neighbours are strictly smaller; the first and the last sample are
    never peaks, and a flat peak is reported at its middle, rounded
    down. *)

Module Peak.

Definition plateau (x : list R) (l r : nat) : Prop :=
  (1 <= l <= r)%nat /\ (r + 1 < length x)%nat
  /\ (forall j, (l <= j <= r)%nat -> np.getitem x j = np.getitem x l)
  /\ np.getitem x (l - 1) < np.getitem x l
  /\ np.getitem x (r + 1) < np.getitem x l.

Definition local_max (x : list R) (m : nat) : Prop :=
  exists l r, plateau x l r /\ m = ((l + r) / 2)%nat.

(** Distance in bins between two positions. *)
Definition gap (a b : nat) : nat := (a - b) + (b - a).

(** The invariant of the main loop of [_select_by_peak_distance] once the
    peaks listed in [visited] have been visited: a visited peak that is
    kept has no kept peak closer than [distance], and every removed peak
    was removed by a kept, visited peak of at least its priority. *)
Definition close (peaks : list nat) (distance j k : nat) : Prop :=
  (gap (nth j peaks O) (nth k peaks O) < distance)%nat.

Definition loop_invariant (peaks : list nat) (distance : nat) (key : nat -> R)
    (visited : list nat) (keep : list bool) : Prop :=
  length keep = length peaks
  /\ (forall j, In j visited -> nth j keep false = true ->
        forall k, (k < length peaks)%nat -> k <> j -> close peaks distance j k ->
          nth k keep false = false)
  /\ (forall k, (k < length peaks)%nat -> nth k keep false = false ->
        exists j, In j visited /\ nth j keep false = true /\ k <> j
                  /\ close peaks distance j k /\ key k <= key j).

End Peak.

(** ** Sample inputs *)

(** A short decaying window, loaded at 44.1 kHz after the user has moved
    the "Decay 1" slider to 30. *)
Definition sample_window : list R :=
  [0.5; 1; -0.5; -0.25; 0.25; 0.125; -0.125; 0].

Definition sample_fitter : PiezoAutoFitter.t :=
  PiezoAutoFitter.set_window
    (PiezoAutoFitter.on_slider_change PiezoAutoFitter.init "decay1" 30)
    44100 sample_window.

(** An optimiser that gives up, and one that returns a feasible vector. *)
Definition budget_exhausted : curve_fit_t := fun _ _ _ _ _ _ =>
  Raise (RuntimeError "Optimal parameters not found: The maximum number of function evaluations is exceeded.").

Definition fitted_vector : list R := [0.9; 35; 5512.5; 0.25; -0.2; 80; 11025; -1].

Definition converging : curve_fit_t := fun _ _ _ _ _ _ => Return fitted_vector.

(** A constant with a small tone of period four samples on top; every
    sample is a dyadic fraction. *)
Definition tone_window : list R :=
  [0.75; 0.625; 0.5; 0.625; 0.75; 0.625; 0.5; 0.625].

(** The twiddle factors [cos (m pi / 4)] and [sin (m pi / 4)] of the
    eight-point transform. *)
Definition quarter_cos (m : nat) : R :=
  (if Nat.even (m / 4) then 1 else -1)
  * match (m mod 4)%nat with
    | 0%nat => 1
    | 1%nat => 1 / sqrt 2
    | 2%nat => 0
    | _ => -1 / sqrt 2
    end.

Definition quarter_sin (m : nat) : R :=
  (if Nat.even (m / 4) then 1 else -1)
  * match (m mod 4)%nat with
    | 0%nat => 0
    | 1%nat => 1 / sqrt 2
    | 2%nat => 1
    | _ => 1 / sqrt 2
    end.

(** A parameter set whose first amplitude, [0.000004], is printed as
    [0.00000]. *)
Definition small_amplitude_params : gmap string R :=
  <["amp1" := 0.000004]> (<["phase1" := 1]> (<["amp2" := 0]>
    PiezoAutoFitter.init_params)).

(** A control whose amplitude, [0.04], is printed as [0.0]; frequency
    1000 Hz, damping ratio 0.6, no delay. *)
Definition faint_event : PiezoGui.SignalControls :=
  {| PiezoGui.is_visible := true;
     PiezoGui.get_values :=
       <["amplitude" := 0.04]> (<["delay" := 0]>
         (<["frequency" := 1000]> (<["damping" := 0.6]> ∅))) |}.

(** ** Further NumPy routines, used by [load_wav] and by the plot code *)

Module numpy.

(** [np.argmax]: the index of the first occurrence of the maximum; [None]
    stands for the [ValueError] raised on an empty array. *)
Fixpoint argmax_from (x : list R) (i best : nat) (vbest : R) : nat :=
  match x with
  | [] => best
  | v :: x' =>
      if Rltb vbest v then argmax_from x' (S i) i v
      else argmax_from x' (S i) best vbest
  end.

Definition argmax (x : list R) : option nat :=
  match x with
  | [] => None
  | v :: x' => Some (argmax_from x' 1 0 v)
  end.

(** [np.min]: [None] stands for the [ValueError] raised on an empty array. *)
Definition min (l : list R) : option R :=
  match l with
  | [] => None
  | x :: l' => Some (fold_left Rmin l' x)
  end.

(** [a.mean()] of one row. *)
Definition mean (row : list R) : R := np.sum row / INR (length row).

(** Basic slicing [x[start:stop]] with integer bounds: a negative bound
    counts from the end, and both are clipped to the array. *)
Definition slice {A} (x : list A) (start stop : Z) : list A :=
  let n := Z.of_nat (length x) in
  let norm i := if (i <? 0)%Z then Z.max 0 (i + n) else Z.min i n in
  let lo := norm start in
  let hi := norm stop in
  take (Z.to_nat (hi - lo)) (drop (Z.to_nat lo) x).

End numpy.

(** Python's [int(x)] on a float: truncation towards zero. *)
Definition int_of_float (x : R) : Z := if Rltb x 0 then Zceil x else Zfloor x.

(** ** [PiezoAutoFitter.load_wav] and [update_sliders_from_params] *)

Module WavLoader.

Import PiezoAutoFitter.

(** What [scipy.io.wavfile.read] returns besides the rate: an array of
    shape [(n,)] for one channel and [(n, channels)] otherwise, whose dtype
    follows the sample format of the file. *)
Inductive dtype : Type := uint8 | int16 | int32 | float32 | float64.

Inductive ndarray : Type :=
| Array1 (dt : dtype) (x : list R)
| Array2 (dt : dtype) (rows : list (list R)).

(** "Normalize to float -1.0 to 1.0": only the two integer formats named
    in the code are divided. *)
Definition normalize (dt : dtype) (x : R) : R :=
  match dt with
  | int16 => x / 32768.0
  | int32 => x / 2147483648.0
  | _ => x
  end.

(** Normalisation followed by "Mix to Mono". *)
Definition to_mono (a : ndarray) : list R :=
  match a with
  | Array1 dt x => map (normalize dt) x
  | Array2 dt rows => map (fun row => numpy.mean (map (normalize dt) row)) rows
  end.

(** "Smart Trimming": the slice that becomes [self.data]. *)
Definition trim (sr : Z) (data : list R) : result (list R) :=
  match numpy.argmax (map Rabs data) with
  | None => Raise (ValueError "attempt to get argmax of an empty sequence")
  | Some peak_idx =>
      let start_idx :=
        Z.max 0 (Z.of_nat peak_idx - int_of_float (0.002 * IZR sr)) in
      let window_len := int_of_float (0.15 * IZR sr) in
      let end_idx := Z.min (Z.of_nat (length data)) (start_idx + window_len) in
      Return (numpy.slice data start_idx end_idx)
  end.

(** The keys of [self.sliders] once [setup_gui] has run. *)
Definition slider_keys : list string :=
  ["amp1"; "decay1"; "freq1"; "phase1";
   "amp2"; "decay2"; "freq2"; "phase2"; "scale"].

(** [update_sliders_from_params]: [set_val] on a slider calls back
    [on_slider_change] with the value it was given. *)
Definition update_sliders_from_params (self : t) : t :=
  fold_left
    (fun self key =>
       match params self !! key with
       | Some v => on_slider_change self key v
       | None => self
       end)
    slider_keys self.

(** [load_wav].  [read] stands for [wavfile.read] and [file_path] for the
    answer of the file dialog, empty when the dialog is cancelled.  The
    result is the text printed and the object afterwards, or the exception
    that reaches the caller. *)
Definition load_wav (read : string -> result (Z * ndarray))
    (curve_fit : curve_fit_t) (file_path : string) (self : t)
    : list string * result t :=
  if String.eqb file_path "" then ([], Return self)
  else
    match read file_path with
    | Raise e => ([], Raise e)
    | Return (sr, raw) =>
        let data := to_mono raw in
        match trim sr data with
        | Raise e => ([], Raise e)
        | Return window =>
            if (sr =? 0)%Z
            then ([], Raise (ZeroDivisionError "division by zero"))
            else
              let self :=
                set_window
                  (mk (sample_rate self) (PiezoAutoFitter.data self) (time self)
                      file_path (params self))
                  sr window in
              match perform_auto_fit curve_fit self with
              | (out, Raise e) => (out, Raise e)
              | (out, Return self) =>
                  (out, Return (update_sliders_from_params self))
              end
        end
    end.

End WavLoader.

(** ** [scripts/piezo_gui.py]: [ResistanceCalculator] *)

Module ResistanceCalculator.

(** Division of two floats, which raises on a zero divisor. *)
Definition truediv (a b : R) : result R :=
  if Req_dec_T b 0 then Raise (ZeroDivisionError "float division by zero")
  else Return (a / b).

(** The body of the [try] statement of [calculate]: the texts for
    [rh_label] and [ry_label]. *)
Definition calculate_body (rx vcc vh vl : R) : result (string * string) :=
  match truediv vl (vh - vl) with
  | Raise e => Raise e
  | Return rh_ratio =>
      match truediv vl (vcc - vh) with
      | Raise e => Raise e
      | Return ry_ratio =>
          let rh := rx * rh_ratio in
          let ry := rx * ry_ratio in
          Return (("Rh: " ++ Fmt.format_f 2 rh ++ " Ω")%string,
                  ("Ry: " ++ Fmt.format_f 2 ry ++ " Ω")%string)
      end
  end.

(** [calculate], from the values of the four spin boxes to the texts of
    the two labels; an exception other than [ZeroDivisionError] would
    reach the caller. *)
Definition calculate (rx vcc vh vl : R) : result (string * string) :=
  match calculate_body rx vcc vh vl with
  | Raise (ZeroDivisionError _) =>
      Return ("Rh: Invalid input"%string, "Ry: Invalid input"%string)
  | other => other
  end.

End ResistanceCalculator.

(** ** [scripts/piezo_gui.py]: the plot of [PiezoGui] *)

Module PiezoGuiPlot.

Import PiezoGui.

(** The built-in [max] on the values of a generator. *)
Definition builtin_max (l : list R) : result R :=
  match l with
  | [] => Raise (ValueError "max() arg is an empty sequence")
  | x :: l' => Return (fold_left (fun m y => if Rltb m y then y else m) l' x)
  end.

(** "Find maximum delay": over the visible controls, in milliseconds. *)
Definition max_delay (controls : list SignalControls) : result R :=
  builtin_max
    (map (fun control => get_values control !!! "delay")
         (filter is_visible controls)).

(** "Time array" *)
Definition time_array (max_delay : R) : list R :=
  np.linspace 0 ((max_delay + 50) / 1000) (Z.to_nat 10000).

(** [calculate_plot_range]: the pairs under ['x'] and ['y']. *)
Definition calculate_plot_range (t response : list R)
    : result ((R * R) * (R * R)) :=
  let margin_factor := 0.1 in
  match np.max t, numpy.min response, np.max response with
  | Some t_top, Some v_min, Some v_max =>
      let t_min := 0 in
      let t_max := t_top * 1000 in
      let t_range := t_max - t_min in
      let t_margin := t_range * margin_factor in
      let v_range :=
        if Rltb (Rabs (v_max - v_min)) 1e-6 then 1e-6 else Rabs (v_max - v_min) in
      let v_margin := v_range * margin_factor in
      Return ((t_min - t_margin, t_max + t_margin),
              (v_min - v_margin, v_max + v_margin))
  | _, _, _ =>
      Raise (ValueError
        "zero-size array to reduction operation maximum which has no identity")
  end.

(** What [update_plot] computes while the "Auto-scale plot" box is
    checked: the time array, the combined curve, the limits of the two
    axes and the model text. *)
Record plot : Type := {
  plot_t : list R;
  plot_combined : list R;
  plot_xlim : R * R;
  plot_ylim : R * R;
  plot_spice_text : string
}.

Definition update_plot (now : string) (controls : list SignalControls)
    : result plot :=
  match max_delay controls with
  | Raise e => Raise e
  | Return md =>
      let t := time_array md in
      let response := map (combined controls) t in
      match calculate_plot_range t response with
      | Raise e => Raise e
      | Return (xlim, ylim) =>
          Return {| plot_t := t; plot_combined := response;
                    plot_xlim := xlim; plot_ylim := ylim;
                    plot_spice_text := generate_spice_model now controls |}
      end
  end.

End PiezoGuiPlot.

(** ** [PiezoGui.export_data] *)

Module PiezoGuiExport.

Import PiezoGui.

(** A control panel with the text of its [signal_label]. *)
Record Panel : Type := {
  signal_label : string;
  control : SignalControls
}.

(** [np.column_stack] on one-dimensional arrays of equal length. *)
Definition column_stack (columns : list (list R)) : list (list R) :=
  match columns with
  | [] => []
  | c :: _ =>
      map (fun i => map (fun col => nth i col 0) columns) (seq 0 (length c))
  end.

(** [export_data]: the header and the table handed to [np.savetxt],
    nothing when the file dialog is cancelled ([filename] empty). *)
Definition export_data (filename : string) (panels : list Panel)
    : result (option (string * list (list R))) :=
  if String.eqb filename "" then Return None
  else
    match PiezoGuiPlot.max_delay (map control panels) with
    | Raise e => Raise e
    | Return md =>
        let t := PiezoGuiPlot.time_array md in
        let header := "Time(ms)"%string in
        let data := [map (fun u => u * 1000) t] in
        let loop :=
          fold_left
            (fun (st : string * list (list R)) p =>
               let (header, data) := st in
               if is_visible (control p)
               then ((header ++ "," ++ signal_label p ++ "(V)")%string,
                     data ++ [map (calculate_signal (control p)) t])
               else st)
            panels (header, data) in
        let header := (fst loop ++ ",Combined(V)")%string in
        let data := snd loop ++ [map (combined (map control panels)) t] in
        Return (Some (header, column_stack data))
    end.

End PiezoGuiExport.

(** ** More sample inputs *)

(** A 16-bit mono recording of eight frames at 44.1 kHz, and a reader that
    finds it under every name. *)
Definition sample_recording : WavLoader.ndarray :=
  WavLoader.Array1 WavLoader.int16
    [16384; 32767; -16384; -8192; 8192; 4096; -4096; 0].

Definition sample_read : string -> result (Z * WavLoader.ndarray) :=
  fun _ => Return (44100%Z, sample_recording).

(** The panel of [faint_event], labelled as the first signal. *)
Definition faint_panel : PiezoGuiExport.Panel :=
  {| PiezoGuiExport.signal_label := "Signal 1";
     PiezoGuiExport.control := faint_event |}.

(** A control of 1.5 V that starts 30 ms late; frequency 1000 Hz, damping
    ratio 0.6. *)
Definition delayed_event : PiezoGui.SignalControls :=
  {| PiezoGui.is_visible := true;
     PiezoGui.get_values :=
       <["amplitude" := 1.5]> (<["delay" := 30]>
         (<["frequency" := 1000]> (<["damping" := 0.6]> ∅))) |}.
(** * Properties *)

(** ** Boolean comparisons *)

Lemma Rltb_true x y : Rltb x y = true <-> x < y.
Proof. unfold Rltb; destruct (Rlt_dec x y); split; intros; try discriminate; auto; lra. Qed.

Lemma Rltb_false x y : Rltb x y = false <-> y <= x.
Proof. unfold Rltb; destruct (Rlt_dec x y); split; intros; try discriminate; auto; lra. Qed.

Lemma Rleb_true x y : Rleb x y = true <-> x <= y.
Proof. unfold Rleb; destruct (Rle_dec x y); split; intros; try discriminate; auto; lra. Qed.

Lemma Rleb_false x y : Rleb x y = false <-> y < x.
Proof. unfold Rleb; destruct (Rle_dec x y); split; intros; try discriminate; auto; lra. Qed.

(** ** Facts about rounding *)

Lemma round_half_even_near (x : R) (z : Z) :
  IZR z - 1 / 2 < x < IZR z + 1 / 2 -> Fmt.round_half_even x = z.
Proof.
  intros [Hlo Hhi]. unfold Fmt.round_half_even.
  destruct (Rle_lt_dec (IZR z) x) as [Hge | Hlt].
  - assert (Hf : Zfloor x = z) by (apply Zfloor_eq; lra).
    rewrite Hf. destruct (Rlt_dec (x - IZR z) (1 / 2)); [reflexivity | lra].
  - assert (Hf : Zfloor x = (z - 1)%Z).
    { apply Zfloor_eq. rewrite minus_IZR. lra. }
    rewrite Hf, minus_IZR.
    destruct (Rlt_dec (x - (IZR z - 1)) (1 / 2)); [lra |].
    destruct (Rlt_dec (1 / 2) (x - (IZR z - 1))); [f_equal; lia | lra].
Qed.

Lemma round_half_even_IZR (z : Z) : Fmt.round_half_even (IZR z) = z.
Proof. apply round_half_even_near; lra. Qed.

Lemma round_half_even_error (x : R) :
  Rabs (IZR (Fmt.round_half_even x) - x) <= 1 / 2.
Proof.
  unfold Fmt.round_half_even.
  pose proof (Zfloor_bound x) as [Hlo Hhi].
  destruct (Rlt_dec (x - IZR (Zfloor x)) (1 / 2)).
  - apply Rabs_le; lra.
  - destruct (Rlt_dec (1 / 2) (x - IZR (Zfloor x))).
    + rewrite plus_IZR. apply Rabs_le; lra.
    + destruct (Z.even (Zfloor x)); [| rewrite plus_IZR]; apply Rabs_le; lra.
Qed.

Lemma round_half_even_nonneg (x : R) : 0 <= x -> (0 <= Fmt.round_half_even x)%Z.
Proof.
  intros Hx. unfold Fmt.round_half_even.
  assert (H0 : (0 <= Zfloor x)%Z) by (apply Zfloor_lub; simpl; lra).
  destruct (Rlt_dec _ _); [lia |].
  destruct (Rlt_dec _ _); [lia |].
  destruct (Z.even _); lia.
Qed.

(** ** Printed literals *)

Lemma Rabs_le_between (a b : R) : Rabs a <= b -> - b <= a <= b.
Proof. unfold Rabs; destruct (Rcase_abs a); lra. Qed.

Lemma pow10_pos (n : nat) : 0 < 10 ^ n.
Proof. apply pow_lt; lra. Qed.

(** A literal printed with [prec] decimals is within half a unit of the
    last place of the number it was printed from. *)
Lemma to_fixed_error (prec : nat) (x : R) :
  Rabs (Fmt.fixed_val (Fmt.to_fixed prec x) - x) <= (1 / 2) / 10 ^ prec.
Proof.
  unfold Fmt.fixed_val, Fmt.to_fixed; simpl.
  pose proof (pow10_pos prec) as HP.
  pose proof (round_half_even_error (Rabs x * 10 ^ prec)) as He.
  set (u := IZR (Fmt.round_half_even (Rabs x * 10 ^ prec))) in *.
  set (P := 10 ^ prec) in *.
  apply Rabs_le_between in He.
  assert (Hq : - ((1 / 2) / P) <= u / P - Rabs x <= (1 / 2) / P).
  { replace (u / P - Rabs x) with ((u - Rabs x * P) / P) by (field; lra).
    split.
    - replace (- (1 / 2 / P)) with ((- (1 / 2)) / P) by (field; lra).
      apply Rmult_le_compat_r; [left; apply Rinv_0_lt_compat; exact HP | lra].
    - apply Rmult_le_compat_r; [left; apply Rinv_0_lt_compat; exact HP | lra]. }
  apply Rabs_le.
  destruct (Rltb x 0) eqn:Hs.
  - apply Rltb_true in Hs. rewrite (Rabs_left x Hs) in Hq. lra.
  - apply Rltb_false in Hs. rewrite (Rabs_right x) in Hq by lra. lra.
Qed.

(** What [to_fixed] prints when the scaled magnitude is closer to [k]
    than to any other integer. *)
Lemma to_fixed_near (prec : nat) (x : R) (k : Z) :
  IZR k - 1 / 2 < Rabs x * 10 ^ prec < IZR k + 1 / 2 ->
  Fmt.to_fixed prec x = Fmt.Fixed (Rltb x 0) k prec.
Proof.
  intros H. unfold Fmt.to_fixed. f_equal. apply round_half_even_near, H.
Qed.

(** A number with at most [prec] decimals is printed without loss. *)
Lemma to_fixed_exact (prec : nat) (x : R) (k : Z) :
  Rabs x * 10 ^ prec = IZR k -> Fmt.fixed_val (Fmt.to_fixed prec x) = x.
Proof.
  intros H. pose proof (pow10_pos prec) as HP.
  rewrite (to_fixed_near prec x k) by lra.
  unfold Fmt.fixed_val; simpl. rewrite <- H.
  destruct (Rltb x 0) eqn:Hs.
  - apply Rltb_true in Hs. rewrite (Rabs_left x Hs). field. lra.
  - apply Rltb_false in Hs. rewrite (Rabs_right x) by lra. field. lra.
Qed.

Lemma two_pi_literal_val : Fmt.fixed_val Spice.two_pi_literal = 6.283185.
Proof. unfold Fmt.fixed_val, Spice.two_pi_literal; simpl. lra. Qed.

Lemma two_pi_literal_str : Fmt.fixed_str Spice.two_pi_literal = "6.283185".
Proof. reflexivity. Qed.

(** ** Strings *)

Lemma string_app_assoc (a b c : string) :
  ((a ++ b) ++ c = a ++ (b ++ c))%string.
Proof.
  induction a as [| ch a IH]; [reflexivity |].
  change (String ch ((a ++ b) ++ c) = String ch (a ++ (b ++ c)))%string.
  f_equal; exact IH.
Qed.

(** ** Dictionary look-ups *)

Ltac dict :=
  repeat first
    [ rewrite lookup_total_insert_eq
    | rewrite lookup_total_insert_ne by (intro; discriminate) ].

Lemma init_params_unfold :
  PiezoAutoFitter.init_params
  = <["amp1" := 1.0]> (<["decay1" := 10.0]> (<["freq1" := 100.0]>
    (<["phase1" := 0.0]> (<["amp2" := 0.5]> (<["decay2" := 50.0]>
    (<["freq2" := 400.0]> (<["phase2" := 0.0]> (<["scale" := 1.0]> ∅)))))))).
Proof. reflexivity. Qed.


(** ** The waveform model: preview, optimiser and delayed events *)

Section ModelFacts.

Import PiezoAutoFitter WaveformModel.

Lemma total_signal_evaluate (p : gmap string R) (t : R) :
  total_signal p t = evaluate (of_params p) t.
Proof.
  unfold total_signal, plot_c1, plot_c2, evaluate, of_params, component_value.
  simpl. ring.
Qed.

Lemma dual_damped_sine_evaluate (t a1 d1 f1 p1 a2 d2 f2 p2 : R) :
  dual_damped_sine t a1 d1 f1 p1 a2 d2 f2 p2
  = evaluate {| components := [ Build_ComponentParams a1 d1 f1 p1;
                                Build_ComponentParams a2 d2 f2 p2 ];
                global_scale := 1 |} t.
Proof.
  unfold dual_damped_sine, evaluate, component_value. simpl. ring.
Qed.

(** The signal of the preview is the optimiser's model function times the
    scale entry of the dictionary. *)
Lemma total_signal_scale (p : gmap string R) (t : R) :
  total_signal p t
  = p !!! "scale"
    * dual_damped_sine t (p !!! "amp1") (p !!! "decay1") (p !!! "freq1")
        (p !!! "phase1") (p !!! "amp2") (p !!! "decay2") (p !!! "freq2")
        (p !!! "phase2").
Proof. unfold total_signal, plot_c1, plot_c2, dual_damped_sine. ring. Qed.

End ModelFacts.


(** C2, as stated, fails for the optimiser: its model function has no scale
    factor.  With the constructor's parameters and the scale slider at 2,
    the preview at [t = 1/400] is twice the value of [dual_damped_sine]. *)
Lemma C2_model_function_ignores_scale :
  let p := <["scale" := 2]> PiezoAutoFitter.init_params in
  PiezoAutoFitter.dual_damped_sine (1 / 400)
    (p !!! "amp1") (p !!! "decay1") (p !!! "freq1") (p !!! "phase1")
    (p !!! "amp2") (p !!! "decay2") (p !!! "freq2") (p !!! "phase2")
  <> WaveformModel.evaluate (WaveformModel.of_params p) (1 / 400).
Proof.
  intros p. rewrite <- total_signal_evaluate, total_signal_scale.
  subst p. rewrite init_params_unfold. dict.
  unfold PiezoAutoFitter.dual_damped_sine.
  replace (2 * PI * 100.0 * (1 / 400) + 0.0) with (PI / 2) by lra.
  replace (2 * PI * 400.0 * (1 / 400) + 0.0) with (2 * PI) by lra.
  rewrite sin_PI2, sin_2PI.
  generalize (exp_pos (- (10.0) * (1 / 400))); lra.
Qed.

(** C2 (amended): the preview signal is the model of the design document,
    [s * sum_i a_i exp(-d_i t) sin(2 pi f_i t + p_i)], on the dictionary's
    parameters; the function handed to the optimiser is the same sum with
    no scale factor, that is the model at [global_scale = 1], so that the
    preview is the scale entry times the optimiser's function. *)
Theorem C2_model_definition (p : gmap string R) (t a1 d1 f1 p1 a2 d2 f2 p2 : R) :
  PiezoAutoFitter.total_signal p t
    = WaveformModel.evaluate (WaveformModel.of_params p) t
  /\ PiezoAutoFitter.dual_damped_sine t a1 d1 f1 p1 a2 d2 f2 p2
    = WaveformModel.evaluate
        {| WaveformModel.components :=
             [ WaveformModel.Build_ComponentParams a1 d1 f1 p1;
               WaveformModel.Build_ComponentParams a2 d2 f2 p2 ];
           WaveformModel.global_scale := 1 |} t
  /\ PiezoAutoFitter.total_signal p t
    = p !!! "scale"
      * PiezoAutoFitter.dual_damped_sine t
          (p !!! "amp1") (p !!! "decay1") (p !!! "freq1") (p !!! "phase1")
          (p !!! "amp2") (p !!! "decay2") (p !!! "freq2") (p !!! "phase2").
Proof.
  split; [apply total_signal_evaluate |].
  split; [apply dual_damped_sine_evaluate | apply total_signal_scale].
Qed.

(** ** Delayed events: the two gates *)

Lemma event_value_after (amp alpha omega pf delay t : R) :
  delay < t ->
  WaveformModel.event_value amp alpha omega pf delay t
  = amp * exp (- alpha * (t - delay)) * sin (omega * pf * (t - delay)).
Proof.
  intros H. unfold WaveformModel.event_value.
  rewrite (proj2 (Rltb_true 0 (t - delay))) by lra. ring.
Qed.

Lemma event_value_before (amp alpha omega pf delay t : R) :
  t <= delay -> WaveformModel.event_value amp alpha omega pf delay t = 0.
Proof.
  intros H. unfold WaveformModel.event_value.
  rewrite (proj2 (Rltb_false 0 (t - delay))) by lra. ring.
Qed.

Lemma calculate_signal_event_value (control : PiezoGui.SignalControls) (t : R) :
  let values := PiezoGui.get_values control in
  let omega := 2 * PI * values !!! "frequency" in
  let zeta := values !!! "damping" in
  PiezoGui.calculate_signal control t
  = WaveformModel.event_value (values !!! "amplitude") (zeta * omega) omega
      (sqrt (1 - zeta ^ 2)) (values !!! "delay" / 1000) t.
Proof.
  intros values omega zeta. unfold PiezoGui.calculate_signal.
  fold values. fold omega. fold zeta.
  set (delay := values !!! "delay" / 1000).
  destruct (Rleb delay t) eqn:Hmask.
  - apply Rleb_true in Hmask. destruct (Rle_lt_or_eq_dec _ _ Hmask) as [Hlt | Heq].
    + rewrite event_value_after by exact Hlt. reflexivity.
    + rewrite event_value_before by lra.
      replace (t - delay) with 0 by lra.
      rewrite !Rmult_0_r, sin_0. ring.
  - apply Rleb_false in Hmask. rewrite event_value_before by lra. reflexivity.
Qed.

(** ** The exported expression of [export_spice] *)

Section ExportFacts.

Import SpiceExport.

(** The component string built by the format string is the text of
    [component_expr]. *)
Lemma component_text (a d f ph : R) :
  Spice.text (component_expr a d f ph) = component a d f ph.
Proof.
  unfold component_expr, component, Fmt.format_f.
  cbn [Spice.text]. rewrite two_pi_literal_str.
  repeat rewrite string_app_assoc. reflexivity.
Qed.

Lemma value_text (p : gmap string R) :
  Spice.text (value_expr p) = (comp1 p ++ " + " ++ comp2 p)%string.
Proof.
  unfold value_expr, comp1_expr, comp2_expr, comp1, comp2.
  cbn [Spice.text]. now rewrite !component_text.
Qed.

(** Its value at simulation time [t], in terms of the printed literals. *)
Lemma component_eval (a d f ph t : R) :
  Spice.eval (component_expr a d f ph) t
  = Fmt.fixed_val (Fmt.to_fixed 5 a)
    * exp (- Fmt.fixed_val (Fmt.to_fixed 5 d) * t)
    * sin (6.283185 * Fmt.fixed_val (Fmt.to_fixed 5 f) * t
           + Fmt.fixed_val (Fmt.to_fixed 5 ph)).
Proof.
  unfold component_expr. cbn [Spice.eval]. now rewrite two_pi_literal_val.
Qed.

End ExportFacts.



(** ** Model and exported expression compared *)

Lemma sin_1_lower : 1 / 2 < sin 1.
Proof.
  assert (H : sin_lb 1 <= sin 1).
  { apply SIN; [lra | generalize PI2_1; lra]. }
  unfold sin_lb, sin_approx, sin_term in H. simpl in H. lra.
Qed.

(** C1, as stated, fails: with the first amplitude at [0.000004], printed
    as [0.00000], the exported expression is zero at [t = 0] while the
    evaluator gives [0.000004 * sin 1], more than [1e-6]. *)
Lemma C1_rounding_exceeds_tolerance :
  1 / 1000000
  < Rabs (Spice.eval (SpiceExport.value_expr small_amplitude_params) 0
          - WaveformModel.evaluate
              (WaveformModel.of_params small_amplitude_params) 0).
Proof.
  unfold SpiceExport.value_expr, SpiceExport.comp1_expr, SpiceExport.comp2_expr.
  cbn [Spice.eval]. rewrite !component_eval.
  unfold SpiceExport.a1_final, SpiceExport.a2_final.
  unfold WaveformModel.evaluate, WaveformModel.of_params,
    WaveformModel.component_value; cbn [WaveformModel.components
    WaveformModel.global_scale WaveformModel.amplitude WaveformModel.decay_rate
    WaveformModel.frequency WaveformModel.phase map np.sum fold_right].
  unfold small_amplitude_params. rewrite init_params_unfold. dict.
  rewrite (to_fixed_near 5 (0.000004 * 1.0) 0)
    by (rewrite Rabs_right by lra; simpl; lra).
  rewrite (to_fixed_near 5 (0 * 1.0) 0)
    by (rewrite Rabs_right by lra; simpl; lra).
  unfold Fmt.fixed_val at 1 5. cbn [Fmt.f_neg Fmt.f_units Fmt.f_prec].
  rewrite !Rmult_0_r, Rplus_0_l.
  replace (- (10.0) * 0) with 0 by lra. rewrite exp_0.
  pose proof sin_1_lower as Hs.
  rewrite !(proj2 (Rltb_false _ _)) by lra.
  replace (0 + 1) with 1 by lra.
  match goal with |- context [Rabs ?e] =>
    replace e with (- (0.000004 * sin 1)) by (simpl pow; lra) end.
  rewrite Rabs_Ropp, Rabs_right by lra. lra.
Qed.

(** *** Lipschitz bounds for [sin] and for [exp] on the negative axis *)

Lemma Rabs_sin_le (u : R) : Rabs (sin u) <= Rabs u.
Proof.
  assert (Hpos : forall v, 0 < v -> Rabs (sin v) <= v).
  { intros v Hv. apply Rabs_le. split.
    - destruct (Rle_lt_dec 1 v) as [H1 | H1].
      + generalize (SIN_bound v); lra.
      + assert (0 < sin v) by (apply sin_gt_0; [lra | generalize PI2_1; lra]). lra.
    - left. apply sin_lt_x, Hv. }
  destruct (Rtotal_order u 0) as [Hneg | [Hz | Hp]].
  - rewrite <- (Rabs_Ropp (sin u)), <- sin_neg, (Rabs_left u Hneg).
    apply Hpos; lra.
  - subst u. rewrite sin_0, Rabs_R0. lra.
  - rewrite (Rabs_right u) by lra. apply Hpos, Hp.
Qed.

Lemma sin_lipschitz (x y : R) : Rabs (sin x - sin y) <= Rabs (x - y).
Proof.
  rewrite form4, !Rabs_mult.
  pose proof (Rabs_sin_le ((x - y) / 2)) as Hs.
  assert (Hc : Rabs (cos ((x + y) / 2)) <= 1)
    by (apply Rabs_le; generalize (COS_bound ((x + y) / 2)); lra).
  assert (Hh : Rabs ((x - y) / 2) = Rabs (x - y) / 2).
  { unfold Rdiv. rewrite Rabs_mult, (Rabs_right (/ 2)) by lra. reflexivity. }
  rewrite Hh in Hs. rewrite (Rabs_right 2) by lra.
  pose proof (Rabs_pos (cos ((x + y) / 2))) as Hc0.
  pose proof (Rabs_pos (sin ((x - y) / 2))) as Hs0.
  nra.
Qed.

Lemma exp_neg_le_1 (a : R) : 0 <= a -> 0 < exp (- a) <= 1.
Proof.
  intros Ha. split; [apply exp_pos |].
  rewrite <- exp_0. destruct Ha as [Ha | <-].
  - left. apply exp_increasing. lra.
  - rewrite Ropp_0. lra.
Qed.

Lemma exp_neg_lipschitz (a b : R) :
  0 <= a -> 0 <= b -> Rabs (exp (- a) - exp (- b)) <= Rabs (a - b).
Proof.
  assert (Hord : forall u v, 0 <= u -> u <= v ->
                   0 <= exp (- u) - exp (- v) <= v - u).
  { intros u v Hu Huv.
    replace (- v) with (- u + - (v - u)) by ring. rewrite exp_plus.
    pose proof (exp_neg_le_1 u Hu) as [Hu0 Hu1].
    pose proof (exp_neg_le_1 (v - u)) as [Hd0 Hd1]; [lra |].
    pose proof (exp_ineq1_le (- (v - u))) as Hd.
    nra. }
  intros Ha Hb. destruct (Rle_lt_dec a b) as [Hab | Hab].
  - pose proof (Hord a b Ha Hab). apply Rabs_le.
    rewrite (Rabs_left1 (a - b)) by lra. lra.
  - pose proof (Hord b a Hb (Rlt_le _ _ Hab)). apply Rabs_le.
    rewrite (Rabs_right (a - b)) by lra. lra.
Qed.

(** A literal printed from a non-negative number is non-negative. *)
Lemma to_fixed_nonneg (prec : nat) (x : R) :
  0 <= x -> 0 <= Fmt.fixed_val (Fmt.to_fixed prec x).
Proof.
  intros Hx. unfold Fmt.fixed_val, Fmt.to_fixed; simpl.
  rewrite (proj2 (Rltb_false x 0)) by lra.
  pose proof (pow10_pos prec) as HP.
  assert (Hu : (0 <= Fmt.round_half_even (Rabs x * 10 ^ prec))%Z).
  { apply round_half_even_nonneg. apply Rmult_le_pos; [apply Rabs_pos | lra]. }
  apply IZR_le in Hu. rewrite Rmult_1_l.
  apply Rmult_le_pos; [exact Hu | left; apply Rinv_0_lt_compat, HP].
Qed.

Lemma Rabs_mult_bound (x y a b : R) :
  Rabs x <= a -> Rabs y <= b -> Rabs (x * y) <= a * b.
Proof.
  intros Hx Hy. rewrite Rabs_mult.
  pose proof (Rabs_pos x). pose proof (Rabs_pos y).
  apply Rmult_le_compat; assumption.
Qed.

(** One component: printed literals [A D F P] against the numbers
    [a d f ph] they were printed from. *)
Lemma component_deviation (a d f ph A D F P t : R) :
  0 <= t -> 0 <= d -> 0 <= D ->
  Rabs (A - a) <= half_ulp5 -> Rabs (D - d) <= half_ulp5 ->
  Rabs (F - f) <= half_ulp5 -> Rabs (P - ph) <= half_ulp5 ->
  Rabs (A * exp (- D * t) * sin (6.283185 * F * t + P)
        - a * exp (- d * t) * sin (2 * PI * f * t + ph))
  <= deviation_bound a f t.
Proof.
  intros Ht Hd HD HA HDd HF HP.
  set (eps := half_ulp5) in *.
  assert (Heps : 0 < eps) by (unfold eps, half_ulp5; lra).
  set (SX := sin (6.283185 * F * t + P)).
  set (SM := sin (2 * PI * f * t + ph)).
  replace (- D * t) with (- (D * t)) by ring.
  replace (- d * t) with (- (d * t)) by ring.
  set (ED := exp (- (D * t))). set (Ed := exp (- (d * t))).
  assert (HED : Rabs ED <= 1).
  { destruct (exp_neg_le_1 (D * t)) as [H0 H1]; [apply Rmult_le_pos; lra |].
    apply Rabs_le; fold ED in H0, H1; lra. }
  assert (HEd : Rabs Ed <= 1).
  { destruct (exp_neg_le_1 (d * t)) as [H0 H1]; [apply Rmult_le_pos; lra |].
    apply Rabs_le; fold Ed in H0, H1; lra. }
  assert (HSX : Rabs SX <= 1) by (apply Rabs_le; generalize (SIN_bound (6.283185 * F * t + P)); fold SX; lra).
  assert (HdE : Rabs (ED - Ed) <= eps * t).
  { unfold ED, Ed.
    eapply Rle_trans; [apply exp_neg_lipschitz; apply Rmult_le_pos; lra |].
    replace (D * t - d * t) with ((D - d) * t) by ring.
    rewrite Rabs_mult, (Rabs_right t) by lra.
    apply Rmult_le_compat_r; assumption. }
  set (sigma := (Rabs (2 * PI - 6.283185) * Rabs f + 6.283185 * eps) * t).
  assert (HdS : Rabs (SX - SM) <= sigma + eps).
  { unfold SX, SM. eapply Rle_trans; [apply sin_lipschitz |].
    replace (6.283185 * F * t + P - (2 * PI * f * t + ph))
      with ((6.283185 * (F - f) + - (2 * PI - 6.283185) * f) * t + (P - ph)) by ring.
    eapply Rle_trans; [apply Rabs_triang |].
    apply Rplus_le_compat; [| exact HP].
    rewrite Rabs_mult, (Rabs_right t) by lra. unfold sigma.
    apply Rmult_le_compat_r; [exact Ht |].
    eapply Rle_trans; [apply Rabs_triang |].
    assert (H1 : Rabs (6.283185 * (F - f)) <= 6.283185 * eps).
    { rewrite Rabs_mult, (Rabs_right 6.283185) by lra.
      apply Rmult_le_compat_l; [lra | exact HF]. }
    assert (H2 : Rabs (- (2 * PI - 6.283185) * f)
                 <= Rabs (2 * PI - 6.283185) * Rabs f).
    { rewrite Rabs_mult, Rabs_Ropp. lra. }
    pose proof (Rabs_pos (2 * PI - 6.283185)). pose proof (Rabs_pos f).
    assert (0 <= Rabs (2 * PI - 6.283185) * Rabs f) by (apply Rmult_le_pos; lra).
    lra. }
  replace (A * ED * SX - a * Ed * SM)
    with ((A - a) * (ED * SX) + (a * ((ED - Ed) * SX) + a * (Ed * (SX - SM))))
    by ring.
  eapply Rle_trans; [apply Rabs_triang |].
  assert (Hu : Rabs ((A - a) * (ED * SX)) <= eps * (1 * 1))
    by (apply Rabs_mult_bound; [exact HA | apply Rabs_mult_bound; assumption]).
  eapply Rle_trans; [apply Rplus_le_compat_l, Rabs_triang |].
  assert (Hv : Rabs (a * ((ED - Ed) * SX)) <= Rabs a * (eps * t * 1))
    by (apply Rabs_mult_bound; [lra | apply Rabs_mult_bound; assumption]).
  assert (Hw : Rabs (a * (Ed * (SX - SM))) <= Rabs a * (1 * (sigma + eps)))
    by (apply Rabs_mult_bound; [lra | apply Rabs_mult_bound; assumption]).
  unfold deviation_bound. fold eps.
  replace ((eps + Rabs (2 * PI - 6.283185) * Rabs f + 6.283185 * eps) * t)
    with (eps * t + sigma) by (unfold sigma; ring).
  lra.
Qed.

Lemma PI_digits : 3.1415926 < PI < 3.1415927.
Proof.
  pose proof (PI_2_3_7_ineq 4) as [Hlo Hhi].
  unfold tg_alt, PI_2_3_7_tg, Ratan_seq in Hlo, Hhi.
  simpl in Hlo, Hhi.
  split; lra.
Qed.

(** The literal [6.283185] is below [2 pi] by between 2 and 4 parts in
    ten million. *)
Lemma two_pi_literal_gap :
  0.0000002 < 2 * PI - 6.283185 < 0.0000004.
Proof. generalize PI_digits; lra. Qed.

Lemma to_fixed_error5 (x : R) :
  Rabs (Fmt.fixed_val (Fmt.to_fixed 5 x) - x) <= half_ulp5.
Proof.
  eapply Rle_trans; [apply to_fixed_error |].
  unfold half_ulp5. simpl. lra.
Qed.

(** C1 (amended): the text between the braces is [comp1 + comp2]; its
    value at time [t] is the two-component model evaluated on the printed
    literals with [6.283185] for [2 pi]; every printed literal is within
    [0.000005] of the field it was printed from (the amplitudes after the
    scale has been multiplied in); and for [t >= 0] and non-negative decay
    rates the value differs from the evaluator's by at most
    [deviation_bound] summed over the two components.  No fixed tolerance
    such as [1e-6] holds for every parameter set. *)
Theorem C1_round_trip (p : gmap string R) (t : R) :
  let a1 := p !!! "amp1" * p !!! "scale" in
  let a2 := p !!! "amp2" * p !!! "scale" in
  let lit x := Fmt.fixed_val (Fmt.to_fixed 5 x) in
  Spice.text (SpiceExport.value_expr p)
    = (SpiceExport.comp1 p ++ " + " ++ SpiceExport.comp2 p)%string
  /\ Spice.eval (SpiceExport.value_expr p) t
     = lit a1 * exp (- lit (p !!! "decay1") * t)
         * sin (6.283185 * lit (p !!! "freq1") * t + lit (p !!! "phase1"))
       + lit a2 * exp (- lit (p !!! "decay2") * t)
         * sin (6.283185 * lit (p !!! "freq2") * t + lit (p !!! "phase2"))
  /\ (forall x : R, Rabs (lit x - x) <= 0.000005)
  /\ (0 <= t -> 0 <= p !!! "decay1" -> 0 <= p !!! "decay2" ->
      Rabs (Spice.eval (SpiceExport.value_expr p) t
            - WaveformModel.evaluate (WaveformModel.of_params p) t)
      <= deviation_bound a1 (p !!! "freq1") t
         + deviation_bound a2 (p !!! "freq2") t).
Proof.
  intros a1 a2 lit.
  assert (Heval : Spice.eval (SpiceExport.value_expr p) t
     = lit a1 * exp (- lit (p !!! "decay1") * t)
         * sin (6.283185 * lit (p !!! "freq1") * t + lit (p !!! "phase1"))
       + lit a2 * exp (- lit (p !!! "decay2") * t)
         * sin (6.283185 * lit (p !!! "freq2") * t + lit (p !!! "phase2"))).
  { unfold SpiceExport.value_expr, SpiceExport.comp1_expr, SpiceExport.comp2_expr.
    cbn [Spice.eval]. rewrite !component_eval. reflexivity. }
  split; [apply value_text |]. split; [exact Heval |].
  split; [intros x; apply to_fixed_error5 |].
  intros Ht Hd1 Hd2. rewrite Heval.
  unfold WaveformModel.evaluate, WaveformModel.of_params,
    WaveformModel.component_value; cbn [WaveformModel.components
    WaveformModel.global_scale WaveformModel.amplitude WaveformModel.decay_rate
    WaveformModel.frequency WaveformModel.phase map np.sum fold_right].
  match goal with |- Rabs ?e <= _ =>
    replace e with
      ((lit a1 * exp (- lit (p !!! "decay1") * t)
          * sin (6.283185 * lit (p !!! "freq1") * t + lit (p !!! "phase1"))
        - a1 * exp (- p !!! "decay1" * t)
          * sin (2 * PI * p !!! "freq1" * t + p !!! "phase1"))
       + (lit a2 * exp (- lit (p !!! "decay2") * t)
          * sin (6.283185 * lit (p !!! "freq2") * t + lit (p !!! "phase2"))
        - a2 * exp (- p !!! "decay2" * t)
          * sin (2 * PI * p !!! "freq2" * t + p !!! "phase2")))
      by (unfold a1, a2; ring)
  end.
  eapply Rle_trans; [apply Rabs_triang |].
  apply Rplus_le_compat;
    apply component_deviation;
    try assumption; try apply to_fixed_error5; apply to_fixed_nonneg; assumption.
Qed.

Lemma C1_round_trip_witness :
  Rabs (Spice.eval (SpiceExport.value_expr PiezoAutoFitter.init_params) 0
        - WaveformModel.evaluate
            (WaveformModel.of_params PiezoAutoFitter.init_params) 0)
  <= deviation_bound (1.0 * 1.0) 100.0 0 + deviation_bound (0.5 * 1.0) 400.0 0.
Proof.
  pose proof (C1_round_trip PiezoAutoFitter.init_params 0) as H.
  cbv zeta in H. destruct H as (_ & _ & _ & H).
  rewrite init_params_unfold in H. revert H. dict. intros H.
  apply H; lra.
Defined.

(** ** The exported expression of one delayed event *)

Lemma event_text (amp alpha omega pf delay : R) :
  PiezoGui.event_line amp alpha omega pf delay
  = (newline ++ "+ " ++ Spice.text (PiezoGui.event_expr amp alpha omega pf delay))%string.
Proof.
  unfold PiezoGui.event_line, PiezoGui.event_expr, Fmt.format_f.
  cbn [Spice.text].
  change (Fmt.int_digits 0) with "0".
  repeat rewrite string_app_assoc. reflexivity.
Qed.

Lemma event_eval (amp alpha omega pf delay t : R) :
  Spice.eval (PiezoGui.event_expr amp alpha omega pf delay) t
  = WaveformModel.event_value
      (Fmt.fixed_val (Fmt.to_fixed 1 amp)) (Fmt.fixed_val (Fmt.to_fixed 8 alpha))
      (Fmt.fixed_val (Fmt.to_fixed 8 omega)) (Fmt.fixed_val (Fmt.to_fixed 8 pf))
      (Fmt.fixed_val (Fmt.to_fixed 6 delay)) t.
Proof. reflexivity. Qed.

Lemma sqrt_064 : sqrt (1 - 0.6 ^ 2) = 0.8.
Proof. apply sqrt_lem_1; simpl; lra. Qed.

(** C8, as stated, fails for the exported expression: with amplitude
    [0.04] the literal is [0.0] and the expression is zero at every time,
    while the evaluator's term at [t = 1/3200] (a quarter period after the
    onset) is [0.04 * exp (...)], which is positive. *)
Lemma C8_amplitude_literal_loses_signal :
  Spice.eval (PiezoGui.control_expr faint_event) (1 / 3200) = 0
  /\ 0 < PiezoGui.calculate_signal faint_event (1 / 3200).
Proof.
  split.
  - unfold PiezoGui.control_expr, faint_event; cbn [PiezoGui.get_values]. dict.
    rewrite event_eval.
    rewrite (to_fixed_near 1 0.04 0) by (rewrite Rabs_right by lra; simpl; lra).
    unfold WaveformModel.event_value, Fmt.fixed_val at 1.
    cbn [Fmt.f_neg Fmt.f_units Fmt.f_prec].
    rewrite (proj2 (Rltb_false 0.04 0)) by lra.
    unfold Rdiv at 1. rewrite (Rmult_0_l (/ 10 ^ 1)). ring.
  - rewrite calculate_signal_event_value.
    unfold faint_event; cbn [PiezoGui.get_values]. dict.
    rewrite event_value_after by lra. rewrite sqrt_064.
    replace (2 * PI * 1000 * 0.8 * (1 / 3200 - 0 / 1000)) with (PI / 2) by lra.
    rewrite sin_PI2.
    match goal with |- context [exp ?x] => generalize (exp_pos x) end. lra.
Qed.

Lemma phase_factor_root (zeta : R) :
  0 < zeta < 1 ->
  0 < sqrt (1 - zeta ^ 2) < 1 /\ sqrt (1 - zeta ^ 2) ^ 2 = 1 - zeta ^ 2.
Proof.
  intros [H0 H1].
  assert (Hpos : 0 < 1 - zeta ^ 2) by (simpl; nra).
  assert (Hlt : 1 - zeta ^ 2 < 1) by (simpl; nra).
  split; [split |].
  - apply sqrt_lt_R0, Hpos.
  - rewrite <- sqrt_1 at 2. apply sqrt_lt_1; lra.
  - change (sqrt (1 - zeta ^ 2) ^ 2)
      with (sqrt (1 - zeta ^ 2) * (sqrt (1 - zeta ^ 2) * 1)).
    rewrite Rmult_1_r. apply sqrt_sqrt. lra.
Qed.

(** C8 (amended): for a damping ratio [zeta] strictly between 0 and 1,
    [sqrt (1 - zeta^2)] is a real number strictly between 0 and 1 whose
    square is [1 - zeta^2], and the evaluator computes
    [A * exp (- zeta omega (t - delay)) * sin (omega sqrt (1 - zeta^2) (t - delay))]
    with [omega = 2 pi f] under the strict gate [(t - delay) > 0], and is
    zero at and before [t = delay]; the exported line is the text of an
    expression that computes the same gated term on its printed literals:
    the amplitude printed with 1 decimal, [zeta omega], [omega] and
    [sqrt (1 - zeta^2)] with 8 decimals and the delay with 6, each within
    half a unit of its last decimal of the evaluator's number. *)
Theorem C8_delayed_event (control : PiezoGui.SignalControls) (t : R) :
  let values := PiezoGui.get_values control in
  let amp := values !!! "amplitude" in
  let delay := values !!! "delay" / 1000 in
  let omega := 2 * PI * values !!! "frequency" in
  let zeta := values !!! "damping" in
  let alpha := zeta * omega in
  let phase_factor := sqrt (1 - zeta ^ 2) in
  let lit prec x := Fmt.fixed_val (Fmt.to_fixed prec x) in
  0 < zeta < 1 ->
  (0 < phase_factor < 1 /\ phase_factor ^ 2 = 1 - zeta ^ 2)
  /\ PiezoGui.calculate_signal control t
    = WaveformModel.event_value amp alpha omega phase_factor delay t
  /\ (t <= delay -> PiezoGui.calculate_signal control t = 0)
  /\ (delay < t ->
      PiezoGui.calculate_signal control t
      = amp * exp (- alpha * (t - delay)) * sin (omega * phase_factor * (t - delay)))
  /\ PiezoGui.control_line control
     = (newline ++ "+ " ++ Spice.text (PiezoGui.control_expr control))%string
  /\ Spice.eval (PiezoGui.control_expr control) t
     = WaveformModel.event_value (lit 1%nat amp) (lit 8%nat alpha) (lit 8%nat omega)
         (lit 8%nat phase_factor) (lit 6%nat delay) t
  /\ (forall (prec : nat) (x : R), Rabs (lit prec x - x) <= (1 / 2) / 10 ^ prec).
Proof.
  intros values amp delay omega zeta alpha phase_factor lit Hzeta.
  pose proof (calculate_signal_event_value control t) as Hc. cbv zeta in Hc.
  split; [apply phase_factor_root, Hzeta |].
  split; [exact Hc |].
  split; [intros Hle; rewrite Hc; apply event_value_before, Hle |].
  split; [intros Hlt; rewrite Hc; apply event_value_after, Hlt |].
  split; [apply event_text |].
  split; [apply event_eval | intros prec x; apply to_fixed_error].
Qed.

Lemma C8_delayed_event_witness :
  PiezoGui.calculate_signal faint_event 0 = 0
  /\ PiezoGui.calculate_signal faint_event (1 / 3200)
     = 0.04 * exp (- (0.6 * (2 * PI * 1000)) * (1 / 3200 - 0 / 1000))
       * sin (2 * PI * 1000 * sqrt (1 - 0.6 ^ 2) * (1 / 3200 - 0 / 1000)).
Proof.
  pose proof (C8_delayed_event faint_event 0) as H0.
  pose proof (C8_delayed_event faint_event (1 / 3200)) as H1.
  cbv zeta in H0, H1.
  unfold faint_event in *; cbn [PiezoGui.get_values] in *.
  revert H0 H1. dict. intros H0 H1.
  destruct H0 as (_ & _ & H0 & _); [lra |].
  destruct H1 as (_ & _ & _ & H1 & _); [lra |].
  split; [apply H0; lra | apply H1; lra].
Defined.

(** ** The two gates *)

Lemma event_line_gate (amp alpha omega pf delay : R) :
  exists before : string,
    PiezoGui.event_line amp alpha omega pf delay
    = (before ++ " * ((time - " ++ Fmt.format_f 6 delay ++ ") > 0)")%string.
Proof.
  exists (newline ++ "+ " ++ Fmt.format_f 1 amp
          ++ " * exp(-" ++ Fmt.format_f 8 alpha
          ++ " * (time - " ++ Fmt.format_f 6 delay
          ++ ")) * sin(" ++ Fmt.format_f 8 omega
          ++ " * " ++ Fmt.format_f 8 pf
          ++ " * (time - " ++ Fmt.format_f 6 delay ++ "))")%string.
  unfold PiezoGui.event_line.
  repeat rewrite string_app_assoc. reflexivity.
Qed.

(** C10: for a damping ratio strictly between 0 and 1 and every
    amplitude, delay, frequency and time, the two gating rules give the
    same value, on the evaluator and on the serialized line alike.
    [calculate_signal], which uses the mask [t >= delay], has the value of
    its term under the strict indicator [(t - delay) > 0]; the line written
    by [generate_spice_model] is the text of an expression that ends in the
    factor [((time - delay) > 0)], and its value is that of its term under
    the mask [t >= delay]; in both, the ungated term [A * exp (- alpha * 0)
    * sin (omega * phi * 0)] is 0 at the onset.  When the delay is printed
    without loss the two gates select the same times, the onset apart. *)
Theorem C10_gates_agree (control : PiezoGui.SignalControls) (t : R) :
  let values := PiezoGui.get_values control in
  let amp := values !!! "amplitude" in
  let delay := values !!! "delay" / 1000 in
  let omega := 2 * PI * values !!! "frequency" in
  let zeta := values !!! "damping" in
  let alpha := zeta * omega in
  let phase_factor := sqrt (1 - zeta ^ 2) in
  let term u := amp * exp (- alpha * (u - delay))
                  * sin (omega * phase_factor * (u - delay)) in
  let lit prec x := Fmt.fixed_val (Fmt.to_fixed prec x) in
  let delay' := lit 6%nat delay in
  let term' u := lit 1%nat amp * exp (- lit 8%nat alpha * (u - delay'))
                   * sin (lit 8%nat omega * lit 8%nat phase_factor * (u - delay')) in
  0 < zeta < 1 ->
  (0 < phase_factor < 1
   /\ PiezoGui.calculate_signal control t = (if Rleb delay t then term t else 0)
   /\ PiezoGui.calculate_signal control t
      = term t * (if Rltb 0 (t - delay) then 1 else 0)
   /\ term delay = 0)
  /\ (PiezoGui.control_line control
      = (newline ++ "+ " ++ Spice.text (PiezoGui.control_expr control))%string
     /\ (exists before : string,
          PiezoGui.control_line control
          = (before ++ " * ((time - " ++ Fmt.format_f 6 delay ++ ") > 0)")%string)
     /\ Spice.eval (PiezoGui.control_expr control) t
        = term' t * (if Rltb 0 (t - delay') then 1 else 0)
     /\ Spice.eval (PiezoGui.control_expr control) t
        = (if Rleb delay' t then term' t else 0)
     /\ term' delay' = 0)
  /\ (delay' = delay -> t <> delay -> Rltb 0 (t - delay') = Rleb delay t).
Proof.
  intros values amp delay omega zeta alpha phase_factor term lit delay' term' Hzeta.
  assert (Hzero : forall (a al om pf d : R),
            a * exp (- al * (d - d)) * sin (om * pf * (d - d)) = 0).
  { intros a al om pf d. replace (d - d) with 0 by lra.
    rewrite !Rmult_0_r, sin_0. ring. }
  split; [| split].
  - split; [apply phase_factor_root, Hzeta |].
    split; [reflexivity |].
    split; [exact (calculate_signal_event_value control t) | apply Hzero].
  - split; [apply event_text |].
    split; [apply event_line_gate |].
    assert (Hstrict : Spice.eval (PiezoGui.control_expr control) t
                      = term' t * (if Rltb 0 (t - delay') then 1 else 0))
      by reflexivity.
    split; [exact Hstrict |]. split; [| apply Hzero].
    rewrite Hstrict.
    destruct (Rleb delay' t) eqn:Hmask.
    + apply Rleb_true in Hmask.
      destruct (Rle_lt_or_eq_dec _ _ Hmask) as [Hlt | Heq].
      * rewrite (proj2 (Rltb_true 0 (t - delay'))) by lra. ring.
      * rewrite (proj2 (Rltb_false 0 (t - delay'))) by lra.
        rewrite <- Heq. unfold term'. rewrite Hzero. ring.
    + apply Rleb_false in Hmask.
      rewrite (proj2 (Rltb_false 0 (t - delay'))) by lra. ring.
  - intros Hexact Hne. rewrite Hexact.
    destruct (Rleb delay t) eqn:Hmask.
    + apply Rleb_true in Hmask. apply Rltb_true. lra.
    + apply Rleb_false in Hmask. apply Rltb_false. lra.
Qed.

Lemma C10_gates_agree_witness :
  PiezoGui.calculate_signal delayed_event (30 / 1000) = 0
  /\ Spice.eval (PiezoGui.control_expr delayed_event)
       (Fmt.fixed_val (Fmt.to_fixed 6 (30 / 1000))) = 0.
Proof.
  pose proof (C10_gates_agree delayed_event (30 / 1000)) as H1.
  pose proof (C10_gates_agree delayed_event
                (Fmt.fixed_val (Fmt.to_fixed 6 (30 / 1000)))) as H2.
  cbv zeta in H1, H2.
  unfold delayed_event in *; cbn [PiezoGui.get_values] in *.
  revert H1 H2. dict. intros H1 H2.
  destruct H1 as ((_ & Hmask & _ & Hzero) & _ & _); [lra |].
  destruct H2 as (_ & (_ & _ & _ & Hmask' & Hzero') & _); [lra |].
  split.
  - rewrite Hmask.
    match goal with |- context [Rleb ?a ?b] => destruct (Rleb a b) end;
      [exact Hzero | reflexivity].
  - rewrite Hmask'.
    match goal with |- context [Rleb ?a ?b] => destruct (Rleb a b) end;
      [exact Hzero' | reflexivity].
Defined.

(** ** [perform_auto_fit] *)

Section FitFacts.

Import PiezoAutoFitter.

Lemma fft_length (a : list R) : length (np.fft a) = length a.
Proof. unfold np.fft. now rewrite length_map, length_seq. Qed.

Lemma spectrum_mag_length (d : list R) :
  length (spectrum_mag d) = (length d / 2)%nat.
Proof.
  unfold spectrum_mag. rewrite length_map, length_take, fft_length.
  pose proof (Nat.Div0.div_le_upper_bound (length d) 2 (length d)).
  assert (length d / 2 <= length d)%nat by (apply Nat.Div0.div_le_upper_bound; lia).
  lia.
Qed.

Lemma np_max_some (l : list R) : l <> [] -> exists m, np.max l = Some m.
Proof. destruct l; [congruence | eexists; reflexivity]. Qed.

Lemma spectrum_mag_max (d : list R) :
  (2 <= length d)%nat -> exists m, np.max (spectrum_mag d) = Some m.
Proof.
  intros H. apply np_max_some. intros E.
  pose proof (spectrum_mag_length d) as L. rewrite E in L.
  change (length (@nil R)) with 0%nat in L.
  assert (1 <= length d / 2)%nat by (apply Nat.div_le_lower_bound; lia). lia.
Qed.

(** With a window of at least two samples and a sample rate, the body
    reaches the [try] statement and returns on one of its two ways out. *)
Lemma perform_auto_fit_eq (curve_fit : curve_fit_t) (self : t) (d : list R) :
  data self = Some d -> (2 <= length d)%nat -> sample_rate self <> 0%Z ->
  perform_auto_fit curve_fit self
  = match try_fit curve_fit self d (start_vector d (sample_rate self)) with
    | (p, None) => (out_success, Return (with_params self p))
    | (p, Some e) =>
        let gf := guessed_frequencies d (sample_rate self) in
        (out_fallback e,
         Return (with_params self (<["freq2" := snd gf]> (<["freq1" := fst gf]> p))))
    end.
Proof.
  intros Hd Hlen Hsr. unfold perform_auto_fit, with_params. rewrite Hd.
  destruct (Nat.eqb_spec (length d) 0) as [E | _]; [lia |].
  destruct (Z.eqb_spec (sample_rate self) 0) as [E | _]; [contradiction |].
  destruct (spectrum_mag_max d Hlen) as [m Hm].
  unfold start_vector, guessed_frequencies. rewrite Hm. cbn [default fst snd].
  destruct (try_fit _ _ _ _) as [p [e |]]; reflexivity.
Qed.

(** What the [try] block does to the dictionary. *)
Lemma try_fit_raise (curve_fit : curve_fit_t) (self : t) (d tm p0 : list R) (e : exn) :
  time self = Some tm ->
  curve_fit dual_damped_sine tm d p0 (lower_bounds, upper_bounds) 20000%Z = Raise e ->
  try_fit curve_fit self d p0 = (params self, Some e).
Proof. intros Ht Hcf. unfold try_fit. now rewrite Ht, Hcf. Qed.

Lemma try_fit_return (curve_fit : curve_fit_t) (self : t) (d tm p0 : list R)
    (a1 d1 f1 p1 a2 d2 f2 p2 : R) :
  time self = Some tm ->
  curve_fit dual_damped_sine tm d p0 (lower_bounds, upper_bounds) 20000%Z
    = Return [a1; d1; f1; p1; a2; d2; f2; p2] ->
  try_fit curve_fit self d p0
  = (<["phase2" := p2]> (<["freq2" := f2]> (<["decay2" := d2]> (<["amp2" := a2]>
      (<["phase1" := p1]> (<["freq1" := f1]> (<["decay1" := d1]> (<["amp1" := a1]>
        (params self)))))))), None).
Proof. intros Ht Hcf. unfold try_fit. now rewrite Ht, Hcf. Qed.

(** The [try] block never writes the scale entry. *)
Lemma try_fit_scale (curve_fit : curve_fit_t) (self : t) (d p0 : list R) :
  fst (try_fit curve_fit self d p0) !! "scale" = params self !! "scale".
Proof.
  unfold try_fit.
  destruct (match time self with Some tm => _ | None => _ end) as [popt | e];
    [| reflexivity].
  destruct (take 4 popt) as [| a1 [| d1 [| f1 [| p1 [| ? ?]]]]]; try reflexivity.
  destruct (take 4 (drop 4 popt)) as [| a2 [| d2 [| f2 [| p2 [| ? ?]]]]];
    cbn [fst]; repeat (rewrite lookup_insert_ne by discriminate); reflexivity.
Qed.

End FitFacts.

(** *** The scale entry *)

Lemma init_scale : PiezoAutoFitter.init_params !! "scale" = Some 1.0.
Proof.
  rewrite init_params_unfold.
  repeat (rewrite lookup_insert_ne by discriminate).
  apply lookup_insert_eq.
Qed.

(** C9: the scale entry starts at 1.0, and [perform_auto_fit] never writes
    it: whenever the call returns, on the converged way out or on the
    fallback one, the entry is what it was before the call (and when the
    call raises, the object was not written at all). *)
Theorem C9_scale_untouched (curve_fit : curve_fit_t) (self : PiezoAutoFitter.t) :
  PiezoAutoFitter.params PiezoAutoFitter.init !! "scale" = Some 1.0
  /\ match snd (PiezoAutoFitter.perform_auto_fit curve_fit self) with
     | Return self' =>
         PiezoAutoFitter.params self' !! "scale"
         = PiezoAutoFitter.params self !! "scale"
     | Raise _ => True
     end.
Proof.
  split; [exact init_scale |].
  unfold PiezoAutoFitter.perform_auto_fit.
  destruct (PiezoAutoFitter.data self) as [d |]; [| exact I].
  destruct (length d =? 0)%nat; [exact I |].
  destruct (PiezoAutoFitter.sample_rate self =? 0)%Z; [exact I |].
  destruct (np.max (PiezoAutoFitter.spectrum_mag d)) as [m |]; [| exact I].
  match goal with |- context [PiezoAutoFitter.try_fit ?c ?s ?d ?p0] =>
    pose proof (try_fit_scale c s d p0) as Hs;
    destruct (PiezoAutoFitter.try_fit c s d p0) as [p [e |]] end;
    cbn [fst snd PiezoAutoFitter.params] in *.
  - repeat (rewrite lookup_insert_ne by discriminate). exact Hs.
  - exact Hs.
Qed.

(** *** The fallback way out *)

Lemma start_vector_frequencies (d : list R) (sr : Z) :
  nth 2 (PiezoAutoFitter.start_vector d sr) 0
    = fst (PiezoAutoFitter.guessed_frequencies d sr)
  /\ nth 6 (PiezoAutoFitter.start_vector d sr) 0
    = snd (PiezoAutoFitter.guessed_frequencies d sr).
Proof. split; reflexivity. Qed.

Lemma fallback_not_success (e : exn) :
  ~ In "Fit successful." (PiezoAutoFitter.out_fallback e).
Proof.
  unfold PiezoAutoFitter.out_fallback.
  intros [H | [H | [H | []]]]; discriminate H.
Qed.

(** C3 (amended): when [curve_fit] raises, [perform_auto_fit] still
    returns (nothing is raised to the caller), it prints the "Fit failed"
    line and not "Fit successful.", the two frequencies are the
    initial-guess frequencies (entries 2 and 6 of [p0]), and every other
    entry of the dictionary, the amplitudes, decay rates, phases and the
    scale, keeps the value it had before the call. *)
Theorem C3_fallback (curve_fit : curve_fit_t) (self : PiezoAutoFitter.t)
    (d tm : list R) (e : exn) :
  PiezoAutoFitter.data self = Some d ->
  (2 <= length d)%nat ->
  PiezoAutoFitter.sample_rate self <> 0%Z ->
  PiezoAutoFitter.time self = Some tm ->
  curve_fit PiezoAutoFitter.dual_damped_sine tm d
    (PiezoAutoFitter.start_vector d (PiezoAutoFitter.sample_rate self))
    (PiezoAutoFitter.lower_bounds, PiezoAutoFitter.upper_bounds) 20000%Z
    = Raise e ->
  let p0 := PiezoAutoFitter.start_vector d (PiezoAutoFitter.sample_rate self) in
  exists self' : PiezoAutoFitter.t,
    PiezoAutoFitter.perform_auto_fit curve_fit self
      = (PiezoAutoFitter.out_fallback e, Return self')
    /\ ~ In "Fit successful." (PiezoAutoFitter.out_fallback e)
    /\ PiezoAutoFitter.params self' !! "freq1" = Some (nth 2 p0 0)
    /\ PiezoAutoFitter.params self' !! "freq2" = Some (nth 6 p0 0)
    /\ (forall k : string, k <> "freq1" -> k <> "freq2" ->
          PiezoAutoFitter.params self' !! k = PiezoAutoFitter.params self !! k).
Proof.
  intros Hd Hlen Hsr Ht Hcf p0.
  eexists. split.
  - rewrite (perform_auto_fit_eq curve_fit self d Hd Hlen Hsr).
    rewrite (try_fit_raise curve_fit self d tm _ e Ht Hcf). reflexivity.
  - split; [apply fallback_not_success |].
    cbn [PiezoAutoFitter.with_params PiezoAutoFitter.params].
    destruct (start_vector_frequencies d (PiezoAutoFitter.sample_rate self)) as [E2 E6].
    fold p0 in E2, E6. rewrite E2, E6.
    split; [| split].
    + rewrite lookup_insert_ne by discriminate. apply lookup_insert_eq.
    + apply lookup_insert_eq.
    + intros k H1 H2. now rewrite !lookup_insert_ne by congruence.
Qed.

Lemma sample_fitter_ready :
  PiezoAutoFitter.data sample_fitter = Some sample_window
  /\ (2 <= length sample_window)%nat
  /\ PiezoAutoFitter.sample_rate sample_fitter <> 0%Z
  /\ PiezoAutoFitter.time sample_fitter
     = Some (np.linspace 0 (INR (length sample_window) / IZR 44100)
               (length sample_window)).
Proof.
  split; [reflexivity |]. split; [simpl; lia |].
  split; [discriminate | reflexivity].
Qed.

Lemma C3_fallback_witness :
  exists self' : PiezoAutoFitter.t,
    PiezoAutoFitter.perform_auto_fit budget_exhausted sample_fitter
      = (PiezoAutoFitter.out_fallback
           (RuntimeError "Optimal parameters not found: The maximum number of function evaluations is exceeded."),
         Return self')
    /\ PiezoAutoFitter.params self' !! "decay1" = Some 30.
Proof.
  destruct sample_fitter_ready as (Hd & Hlen & Hsr & Ht).
  destruct (C3_fallback budget_exhausted sample_fitter sample_window _ _
              Hd Hlen Hsr Ht eq_refl) as (self' & Hrun & _ & _ & _ & Hkeep).
  exists self'. split; [exact Hrun |].
  rewrite Hkeep by discriminate.
  apply lookup_insert_eq.
Defined.

(** C3, as stated, fails: after a failed fit the decay rate of the first
    component is neither the initial-guess seed (20) nor the constructor's
    value (10) but whatever the dictionary held before, here 30. *)
Lemma C3_fallback_keeps_previous_values :
  exists self' : PiezoAutoFitter.t,
    snd (PiezoAutoFitter.perform_auto_fit budget_exhausted sample_fitter)
      = Return self'
    /\ PiezoAutoFitter.params self' !!! "decay1" = 30
    /\ nth 1 (PiezoAutoFitter.start_vector sample_window 44100) 0 = 20.0
    /\ PiezoAutoFitter.init_params !!! "decay1" = 10.0
    /\ 30 <> 20.0 /\ 30 <> 10.0.
Proof.
  destruct sample_fitter_ready as (Hd & Hlen & Hsr & Ht).
  rewrite (perform_auto_fit_eq budget_exhausted sample_fitter sample_window Hd Hlen Hsr).
  rewrite (try_fit_raise budget_exhausted sample_fitter sample_window _ _ _ Ht eq_refl).
  eexists. split; [reflexivity |].
  cbn [PiezoAutoFitter.with_params PiezoAutoFitter.params sample_fitter
       PiezoAutoFitter.set_window PiezoAutoFitter.on_slider_change
       PiezoAutoFitter.init].
  split; [dict; reflexivity |].
  split; [reflexivity |].
  split; [rewrite init_params_unfold; dict; reflexivity |].
  split; lra.
Qed.

(** *** The converged way out *)

Lemma try_fit_none (curve_fit : curve_fit_t) (self : PiezoAutoFitter.t)
    (d p0 : list R) (p : gmap string R) :
  PiezoAutoFitter.try_fit curve_fit self d p0 = (p, None) ->
  exists (tm popt : list R) (a1 d1 f1 p1 a2 d2 f2 p2 : R),
    PiezoAutoFitter.time self = Some tm
    /\ curve_fit PiezoAutoFitter.dual_damped_sine tm d p0
         (PiezoAutoFitter.lower_bounds, PiezoAutoFitter.upper_bounds) 20000%Z
       = Return popt
    /\ take 4 popt = [a1; d1; f1; p1]
    /\ take 4 (drop 4 popt) = [a2; d2; f2; p2]
    /\ p = <["phase2" := p2]> (<["freq2" := f2]> (<["decay2" := d2]>
           (<["amp2" := a2]> (<["phase1" := p1]> (<["freq1" := f1]>
           (<["decay1" := d1]> (<["amp1" := a1]>
             (PiezoAutoFitter.params self)))))))).
Proof.
  unfold PiezoAutoFitter.try_fit. intros H.
  destruct (PiezoAutoFitter.time self) as [tm |]; [| discriminate H].
  destruct (curve_fit _ tm d p0 _ _) as [popt | e] eqn:Hcf; [| discriminate H].
  destruct (take 4 popt) as [| a1 [| d1 [| f1 [| p1 [| ? ?]]]]] eqn:E1;
    try discriminate H.
  destruct (take 4 (drop 4 popt)) as [| a2 [| d2 [| f2 [| p2 [| ? ?]]]]] eqn:E2;
    try discriminate H.
  injection H as <-.
  exists tm, popt, a1, d1, f1, p1, a2, d2, f2, p2. auto.
Qed.

Lemma perform_auto_fit_success (curve_fit : curve_fit_t)
    (self self' : PiezoAutoFitter.t) (out : list string) :
  PiezoAutoFitter.perform_auto_fit curve_fit self = (out, Return self') ->
  In "Fit successful." out ->
  exists (d p0 : list R),
    PiezoAutoFitter.data self = Some d
    /\ PiezoAutoFitter.try_fit curve_fit self d p0
       = (PiezoAutoFitter.params self', None).
Proof.
  unfold PiezoAutoFitter.perform_auto_fit. intros H Hin.
  destruct (PiezoAutoFitter.data self) as [d |]; [| discriminate H].
  destruct (length d =? 0)%nat; [discriminate H |].
  destruct (PiezoAutoFitter.sample_rate self =? 0)%Z; [discriminate H |].
  destruct (np.max (PiezoAutoFitter.spectrum_mag d)) as [m |]; [| discriminate H].
  match type of H with context [PiezoAutoFitter.try_fit ?c ?s ?d ?p0] =>
    destruct (PiezoAutoFitter.try_fit c s d p0) as [p [e |]] eqn:Htry;
    [| exists d, p0 ] end.
  - injection H as <- _. exfalso. exact (fallback_not_success e Hin).
  - injection H as _ <-. split; [reflexivity | exact Htry].
Qed.

(** C4: under the optimiser's contract, whenever the fit converges (the
    "Fit successful." line is printed) both components of the stored
    parameter set have decay rate in [0, 1000], frequency in [1, 20000]
    and phase in [-pi, pi]; the amplitudes are the optimiser's, whose
    bounds for them are [-inf] and [+inf]. *)
Theorem C4_bounds (curve_fit : curve_fit_t) (self self' : PiezoAutoFitter.t)
    (out : list string) :
  PiezoAutoFitter.within_bounds curve_fit ->
  PiezoAutoFitter.perform_auto_fit curve_fit self = (out, Return self') ->
  In "Fit successful." out ->
  let p := PiezoAutoFitter.params self' in
  (0 <= p !!! "decay1" <= 1000 /\ 1 <= p !!! "freq1" <= 20000
   /\ - PI <= p !!! "phase1" <= PI)
  /\ (0 <= p !!! "decay2" <= 1000 /\ 1 <= p !!! "freq2" <= 20000
      /\ - PI <= p !!! "phase2" <= PI)
  /\ (nth 0 PiezoAutoFitter.lower_bounds (Fin 0) = NegInf
      /\ nth 0 PiezoAutoFitter.upper_bounds (Fin 0) = PosInf
      /\ nth 4 PiezoAutoFitter.lower_bounds (Fin 0) = NegInf
      /\ nth 4 PiezoAutoFitter.upper_bounds (Fin 0) = PosInf).
Proof.
  intros Hcf Hrun Hin p.
  destruct (perform_auto_fit_success _ _ _ _ Hrun Hin) as (d & p0 & _ & Htry).
  destruct (try_fit_none _ _ _ _ _ Htry)
    as (tm & popt & a1 & d1 & f1 & p1 & a2 & d2 & f2 & p2 & _ & Hret & E1 & E2 & Hp).
  destruct (Hcf tm d p0 popt Hret) as [Hlo Hhi].
  unfold PiezoAutoFitter.lower_bounds in Hlo.
  unfold PiezoAutoFitter.upper_bounds in Hhi.
  repeat match goal with
         | H : Forall2 _ (_ :: _) _ |- _ => inversion H; subst; clear H
         | H : Forall2 _ [] _ |- _ => inversion H; subst; clear H
         | H : Forall2 _ _ (_ :: _) |- _ => inversion H; subst; clear H
         | H : Forall2 _ _ [] |- _ => inversion H; subst; clear H
         end.
  cbn [take drop] in E1, E2. injection E1 as -> -> -> ->. injection E2 as -> -> -> ->.
  subst p. rewrite Hp. dict.
  cbn [bound_le_l bound_le_r] in *.
  repeat split; try assumption; reflexivity.
Qed.

Lemma converging_within_bounds : PiezoAutoFitter.within_bounds converging.
Proof.
  intros tm d p0 popt H. injection H as <-.
  unfold fitted_vector, PiezoAutoFitter.lower_bounds, PiezoAutoFitter.upper_bounds.
  pose proof PI_digits as HPI.
  split; repeat constructor; cbn [bound_le_l bound_le_r]; lra.
Qed.

Lemma converging_run :
  PiezoAutoFitter.perform_auto_fit converging sample_fitter
  = (PiezoAutoFitter.out_success,
     Return (PiezoAutoFitter.with_params sample_fitter
               (fst (PiezoAutoFitter.try_fit converging sample_fitter sample_window
                       (PiezoAutoFitter.start_vector sample_window 44100))))).
Proof.
  destruct sample_fitter_ready as (Hd & Hlen & Hsr & Ht).
  rewrite (perform_auto_fit_eq converging sample_fitter sample_window Hd Hlen Hsr).
  reflexivity.
Qed.

Lemma C4_bounds_witness :
  let p := fst (PiezoAutoFitter.try_fit converging sample_fitter sample_window
                  (PiezoAutoFitter.start_vector sample_window 44100)) in
  0 <= p !!! "decay1" <= 1000 /\ 1 <= p !!! "freq2" <= 20000
  /\ p !!! "amp2" = -0.2.
Proof.
  intros p.
  assert (Hin : In "Fit successful." PiezoAutoFitter.out_success)
    by (right; right; left; reflexivity).
  destruct (C4_bounds converging sample_fitter _ _
              converging_within_bounds converging_run Hin)
    as ((Hd1 & _) & (_ & Hf2 & _) & _).
  cbn [PiezoAutoFitter.with_params PiezoAutoFitter.params] in Hd1, Hf2.
  split; [exact Hd1 |]. split; [exact Hf2 |].
  subst p. unfold PiezoAutoFitter.try_fit, converging, fitted_vector.
  cbn [sample_fitter PiezoAutoFitter.set_window PiezoAutoFitter.time take drop fst].
  dict. reflexivity.
Defined.

(** *** The initial guess *)

Lemma fold_left_Rmax_spec (l : list R) (x : R) :
  let m := fold_left Rmax l x in
  (x <= m /\ Forall (fun y => y <= m) l) /\ (m = x \/ In m l).
Proof.
  revert x. induction l as [| y l IH]; intros x; cbn [fold_left].
  - split; [split; [lra | constructor] | now left].
  - destruct (IH (Rmax x y)) as [[H1 H2] H3].
    pose proof (Rmax_l x y). pose proof (Rmax_r x y).
    split; [split; [lra | constructor; [lra | exact H2]] |].
    destruct H3 as [H3 | H3]; [| right; right; exact H3].
    rewrite H3. unfold Rmax. destruct (Rle_dec x y); [right; left | left]; reflexivity.
Qed.

Lemma np_max_spec (l : list R) (m : R) :
  np.max l = Some m -> Forall (fun y => y <= m) l /\ In m l.
Proof.
  destruct l as [| x l]; [discriminate |]. intros H. injection H as <-.
  destruct (fold_left_Rmax_spec l x) as [[H1 H2] H3]. cbv zeta in *.
  split; [constructor; assumption |].
  destruct H3 as [H3 | H3]; [left; symmetry; exact H3 | right; exact H3].
Qed.


(** ** [_local_maxima_1d] finds exactly the peaks *)

Lemma Reqb_true (a b : R) : signal.Reqb a b = true <-> a = b.
Proof.
  unfold signal.Reqb, Rltb.
  destruct (Rlt_dec a b), (Rlt_dec b a); simpl; split; intros; try discriminate; lra.
Qed.

Lemma plateau_end_spec (x : list R) (i i_max : nat) :
  forall (fuel i_ahead : nat),
    (i_ahead <= i_max)%nat -> (i_max - i_ahead <= fuel)%nat ->
    let e := signal.plateau_end fuel x i i_ahead i_max in
    (i_ahead <= e <= i_max)%nat
    /\ (forall j, (i_ahead <= j < e)%nat -> np.getitem x j = np.getitem x i)
    /\ ((e < i_max)%nat -> np.getitem x e <> np.getitem x i).
Proof.
  induction fuel as [| fuel IH]; intros ia Hle Hfuel; cbn [signal.plateau_end].
  - split; [lia |]. split; [intros j Hj; lia | intros; lia].
  - destruct (Nat.ltb_spec ia i_max) as [Hlt | Hge]; cbn [andb].
    + destruct (signal.Reqb (np.getitem x ia) (np.getitem x i)) eqn:Heq.
      * apply Reqb_true in Heq.
        destruct (IH (S ia)) as (H1 & H2 & H3); [lia | lia |].
        split; [lia |]. split; [| exact H3].
        intros j Hj. destruct (Nat.eq_dec j ia) as [-> | Hne]; [exact Heq |].
        apply H2. lia.
      * split; [lia |]. split; [intros j Hj; lia |].
        intros _ E. apply Reqb_true in E. congruence.
    + split; [lia |]. split; [intros j Hj; lia | intros; lia].
Qed.

Section LocalMaxima.

Variable x : list R.
Let i_max := (length x - 1)%nat.

Lemma loop_sound :
  forall (fuel i : nat), (1 <= i)%nat ->
    Forall (fun m => exists l r, Peak.plateau x l r /\ m = ((l + r) / 2)%nat
                                 /\ (i <= l)%nat)
           (signal.local_maxima_loop fuel x i i_max).
Proof.
  induction fuel as [| fuel IH]; intros i Hi; cbn [signal.local_maxima_loop];
    [constructor |].
  destruct (Nat.ltb_spec i i_max) as [Hlt | _]; [| constructor].
  assert (Hweak : forall i', (i <= i')%nat ->
            Forall (fun m => exists l r, Peak.plateau x l r
                       /\ m = ((l + r) / 2)%nat /\ (i <= l)%nat)
                   (signal.local_maxima_loop fuel x i' i_max)).
  { intros i' Hi'. eapply Forall_impl; [| apply (IH i'); lia].
    intros m (l & r & Hp & Hm & Hl). exists l, r.
    split; [exact Hp | split; [exact Hm | lia]]. }
  destruct (Rltb (np.getitem x (i - 1)) (np.getitem x i)) eqn:Hup;
    [| apply Hweak; lia].
  apply Rltb_true in Hup.
  destruct (plateau_end_spec x i i_max (length x) (i + 1)) as (He & Hflat & _);
    [lia | unfold i_max; lia |].
  set (e := signal.plateau_end (length x) x i (i + 1) i_max) in *.
  destruct (Rltb (np.getitem x e) (np.getitem x i)) eqn:Hdown;
    [| apply Hweak; lia].
  apply Rltb_true in Hdown.
  constructor; [| apply Hweak; lia].
  exists i, (e - 1)%nat. split; [| split; [reflexivity | lia]].
  unfold Peak.plateau. split; [lia |]. split; [unfold i_max in *; lia |].
  split; [| split; [exact Hup |]].
  - intros j Hj. destruct (Nat.eq_dec j i) as [-> | Hne]; [reflexivity |].
    apply Hflat. lia.
  - replace (e - 1 + 1)%nat with e by lia. exact Hdown.
Qed.

Lemma loop_complete :
  forall (fuel i : nat), (i_max - i <= fuel)%nat -> (1 <= i)%nat ->
    forall l r, Peak.plateau x l r -> (i <= l)%nat ->
      In ((l + r) / 2)%nat (signal.local_maxima_loop fuel x i i_max).
Proof.
  induction fuel as [| fuel IH]; intros i Hfuel Hi l r Hp Hil;
    pose proof Hp as (Hlr & Hr & Hflat & Hup & Hdown);
    cbn [signal.local_maxima_loop].
  - unfold i_max in Hfuel. lia.
  - destruct (Nat.ltb_spec i i_max) as [Hlt | Hge]; [| unfold i_max in Hge; lia].
    destruct (Rltb (np.getitem x (i - 1)) (np.getitem x i)) eqn:Hupi.
    + apply Rltb_true in Hupi.
      destruct (plateau_end_spec x i i_max (length x) (i + 1)) as (He & Hfl & Hne);
        [lia | unfold i_max; lia |].
      set (e := signal.plateau_end (length x) x i (i + 1) i_max) in *.
      destruct (Nat.eq_dec l i) as [-> | Hli].
      * assert (Ee : e = (r + 1)%nat).
        { destruct (Nat.lt_trichotomy e (r + 1)) as [Hlt' | [E | Hgt]]; [| exact E |].
          - exfalso. apply Hne; [unfold i_max; lia |]. apply Hflat. lia.
          - exfalso. assert (np.getitem x (r + 1) = np.getitem x i) by (apply Hfl; lia).
            lra. }
        rewrite Ee. rewrite (proj2 (Rltb_true _ _) Hdown).
        left. f_equal. lia.
      * destruct (Rltb (np.getitem x e) (np.getitem x i)) eqn:Hdn.
        -- apply Rltb_true in Hdn. right.
           assert (Hel : (e + 1 <= l)%nat).
           { destruct (Nat.le_gt_cases (e + 1) l) as [H | H]; [exact H | exfalso].
             assert (Hprev : np.getitem x (l - 1) = np.getitem x i).
             { destruct (Nat.eq_dec (l - 1) i) as [-> | Hn]; [reflexivity |].
               apply Hfl. lia. }
             destruct (Nat.eq_dec l e) as [-> | Hle]; [lra |].
             assert (np.getitem x l = np.getitem x i) by (apply Hfl; lia). lra. }
           apply IH; auto; lia.
        -- apply IH; auto; lia.
    + apply Rltb_false in Hupi.
      assert (l <> i) by (intros ->; lra).
      apply IH; auto; lia.
Qed.

Lemma loop_increasing :
  forall (fuel i : nat), (1 <= i)%nat ->
    StronglySorted lt (signal.local_maxima_loop fuel x i i_max).
Proof.
  induction fuel as [| fuel IH]; intros i Hi; cbn [signal.local_maxima_loop];
    [constructor |].
  destruct (Nat.ltb_spec i i_max) as [Hlt | _]; [| constructor].
  destruct (Rltb (np.getitem x (i - 1)) (np.getitem x i)); [| apply IH; lia].
  destruct (plateau_end_spec x i i_max (length x) (i + 1)) as (He & _ & _);
    [lia | unfold i_max; lia |].
  set (e := signal.plateau_end (length x) x i (i + 1) i_max) in *.
  destruct (Rltb (np.getitem x e) (np.getitem x i)); [| apply IH; lia].
  constructor; [apply IH; lia |].
  eapply Forall_impl; [| apply (loop_sound fuel (e + 1)); lia].
  intros m (l & r & (Hlr & _) & -> & Hl).
  assert ((i + (e - 1)) / 2 <= e - 1)%nat
    by (apply Nat.Div0.div_le_upper_bound; lia).
  assert (l <= (l + r) / 2)%nat by (apply Nat.div_le_lower_bound; lia).
  lia.
Qed.

End LocalMaxima.

(** ** [_select_by_peak_distance] *)

Lemma local_maxima_1d_spec (x : list R) :
  StronglySorted lt (signal.local_maxima_1d x)
  /\ (forall m, In m (signal.local_maxima_1d x) <-> Peak.local_max x m).
Proof.
  unfold signal.local_maxima_1d. split; [apply loop_increasing; lia |].
  intros m. split.
  - intros Hin. pose proof (loop_sound x (length x) 1 (le_n 1)) as Hs.
    rewrite Forall_forall in Hs. destruct (Hs m Hin) as (l & r & Hp & Hm & _).
    exists l, r. auto.
  - intros (l & r & Hp & ->). apply loop_complete; auto; try lia.
    destruct Hp as ((H1 & _) & _). exact H1.
Qed.

Lemma nth_insert_false (l : list bool) (k k' : nat) :
  nth k' (<[k := false]> l) false
  = if (k' =? k)%nat then false else nth k' l false.
Proof.
  revert k k'. induction l as [| b l IH]; intros [| k] [| k']; cbn; auto;
    destruct (k' =? k)%nat; reflexivity.
Qed.

Lemma sorted_nth_lt (l : list nat) :
  StronglySorted lt l ->
  forall j k, (j < k)%nat -> (k < length l)%nat -> (nth j l O < nth k l O)%nat.
Proof.
  induction 1 as [| a l Hs IH Hall]; intros j k Hjk Hk; [cbn in Hk; lia |].
  destruct k as [| k]; [lia |]. cbn in Hk.
  destruct j as [| j]; cbn [nth].
  - rewrite Forall_forall in Hall. apply Hall, nth_In. lia.
  - apply IH; lia.
Qed.

Section Distance.

Variable peaks : list nat.
Variable distance : nat.
Hypothesis peaks_sorted : StronglySorted lt peaks.

Let n := length peaks.
Let P (j : nat) : nat := nth j peaks O.

Lemma P_mono (j k : nat) : (j <= k)%nat -> (k < n)%nat -> (P j <= P k)%nat.
Proof.
  intros Hjk Hk. destruct (Nat.eq_dec j k) as [-> | Hne]; [lia |].
  apply Nat.lt_le_incl, sorted_nth_lt; auto; lia.
Qed.

Lemma P_inj (j k : nat) : (j < n)%nat -> (k < n)%nat -> P j = P k -> j = k.
Proof.
  intros Hj Hk E. destruct (Nat.lt_trichotomy j k) as [H | [H | H]]; [| exact H |].
  - pose proof (sorted_nth_lt peaks peaks_sorted j k H Hk). unfold P in E. lia.
  - pose proof (sorted_nth_lt peaks peaks_sorted k j H Hj). unfold P in E. lia.
Qed.

Lemma clear_left_spec (j : nat) :
  (j < n)%nat ->
  forall (k1 : nat) (keep : list bool), (k1 <= j)%nat ->
    let keep' := signal.clear_left peaks (P j) distance k1 keep in
    length keep' = length keep
    /\ forall k, nth k keep' false
         = if (k <? k1)%nat && (Peak.gap (P j) (P k) <? distance)%nat
           then false else nth k keep false.
Proof.
  intros Hj. induction k1 as [| k IH]; intros keep Hk1; cbn [signal.clear_left].
  - split; [reflexivity |]. intros k. reflexivity.
  - assert (Hpk : (P k <= P j)%nat) by (apply P_mono; lia). fold (P k).
    destruct (Z.ltb_spec (Z.of_nat (P j) - Z.of_nat (P k)) (Z.of_nat distance))
      as [Hclose | Hfar].
    + destruct (IH (<[k := false]> keep)) as [Hlen Hnth]; [lia |].
      split; [now rewrite Hlen, length_insert |].
      intros k'. rewrite Hnth, nth_insert_false.
      destruct (Nat.eqb_spec k' k) as [-> | Hne].
      * destruct (Nat.ltb_spec k k); [lia |].
        destruct (Nat.ltb_spec k (S k)); [| lia]. cbn [andb].
        destruct (Nat.ltb_spec (Peak.gap (P j) (P k)) distance) as [_ | Hg];
          [reflexivity | unfold Peak.gap in Hg; lia].
      * destruct (Nat.ltb_spec k' k), (Nat.ltb_spec k' (S k)); try lia; reflexivity.
    + split; [reflexivity |]. intros k'.
      destruct (Nat.ltb_spec k' (S k)) as [Hlt | _]; [| reflexivity]. cbn [andb].
      assert (Hpk' : (P k' <= P k)%nat) by (apply P_mono; lia).
      destruct (Nat.ltb_spec (Peak.gap (P j) (P k')) distance) as [Hg | _];
        [unfold Peak.gap in Hg; lia | reflexivity].
Qed.

Lemma clear_right_spec (j : nat) :
  (j < n)%nat ->
  forall (fuel k0 : nat) (keep : list bool),
    (j < k0)%nat -> (n - k0 <= fuel)%nat ->
    let keep' := signal.clear_right fuel peaks (P j) distance k0 keep in
    length keep' = length keep
    /\ forall k, (k < n)%nat ->
         nth k keep' false
         = if (k0 <=? k)%nat && (Peak.gap (P j) (P k) <? distance)%nat
           then false else nth k keep false.
Proof.
  intros Hj. induction fuel as [| fuel IH]; intros k0 keep Hk0 Hfuel;
    cbn [signal.clear_right].
  - split; [reflexivity |]. intros k Hk.
    destruct (Nat.leb_spec k0 k); [lia | reflexivity].
  - fold n. fold (P k0).
    destruct (Nat.ltb_spec k0 n) as [Hin | Hout]; cbn [andb].
    + assert (Hpk : (P j <= P k0)%nat) by (apply P_mono; lia).
      destruct (Z.ltb_spec (Z.of_nat (P k0) - Z.of_nat (P j)) (Z.of_nat distance))
        as [Hclose | Hfar].
      * destruct (IH (S k0) (<[k0 := false]> keep)) as [Hlen Hnth]; [lia | lia |].
        split; [now rewrite Hlen, length_insert |].
        intros k Hk. rewrite (Hnth k Hk), nth_insert_false.
        destruct (Nat.eqb_spec k k0) as [-> | Hne].
        -- destruct (Nat.leb_spec (S k0) k0); [lia |].
           destruct (Nat.leb_spec k0 k0); [| lia]. cbn [andb].
           destruct (Nat.ltb_spec (Peak.gap (P j) (P k0)) distance) as [_ | Hg];
             [reflexivity | unfold Peak.gap in Hg; lia].
        -- destruct (Nat.leb_spec (S k0) k), (Nat.leb_spec k0 k); try lia; reflexivity.
      * split; [reflexivity |]. intros k Hk.
        destruct (Nat.leb_spec k0 k) as [Hle | _]; [| reflexivity]. cbn [andb].
        assert (Hpk' : (P k0 <= P k)%nat) by (apply P_mono; lia).
        destruct (Nat.ltb_spec (Peak.gap (P j) (P k)) distance) as [Hg | _];
          [unfold Peak.gap in Hg; lia | reflexivity].
    + split; [reflexivity |]. intros k Hk.
      destruct (Nat.leb_spec k0 k); [lia | reflexivity].
Qed.

(** One visit of the main loop: a peak that is still kept removes every
    other peak closer than [distance], and nothing else changes. *)
Lemma distance_step_spec (keep : list bool) (j : nat) :
  (j < n)%nat ->
  let keep' := signal.distance_step peaks distance keep j in
  length keep' = length keep
  /\ forall k, (k < n)%nat ->
       nth k keep' false
       = if nth j keep false && negb (k =? j)%nat
            && (Peak.gap (P j) (P k) <? distance)%nat
         then false else nth k keep false.
Proof.
  intros Hj. unfold signal.distance_step.
  destruct (nth j keep false) eqn:Hkeep; [| split; [reflexivity | intros; reflexivity]].
  fold (P j). fold n.
  destruct (clear_left_spec j Hj j keep (le_n j)) as [Hl1 Hn1].
  set (keep1 := signal.clear_left peaks (P j) distance j keep) in *.
  destruct (clear_right_spec j Hj n (j + 1) keep1) as [Hl2 Hn2]; [lia | lia |].
  split; [congruence |].
  intros k Hk. rewrite (Hn2 k Hk), Hn1. cbn [andb].
  destruct (Nat.eqb_spec k j) as [-> | Hne]; cbn [negb andb].
  - destruct (Nat.leb_spec (j + 1) j); [lia |].
    destruct (Nat.ltb_spec j j); [lia |]. reflexivity.
  - destruct (Nat.leb_spec (j + 1) k), (Nat.ltb_spec k j); try lia; cbn [andb];
      destruct (Peak.gap (P j) (P k) <? distance)%nat; reflexivity.
Qed.

End Distance.

Lemma sorted_app_head {A} (Rel : A -> A -> Prop) (l1 l2 : list A) (a : A) :
  StronglySorted Rel (l1 ++ a :: l2) -> forall b, In b l2 -> Rel a b.
Proof.
  induction l1 as [| c l1 IH]; cbn; intros Hs b Hb.
  - apply StronglySorted_inv in Hs. destruct Hs as [_ Hall].
    rewrite Forall_forall in Hall. auto.
  - apply StronglySorted_inv in Hs. destruct Hs as [Hs _]. eauto.
Qed.

Section DistanceLoop.

Variable peaks : list nat.
Variable distance : nat.
Variable key : nat -> R.
Hypothesis peaks_sorted : StronglySorted lt peaks.

Let n := length peaks.
Let Inv := Peak.loop_invariant peaks distance key.

Lemma close_sym (j k : nat) :
  Peak.close peaks distance j k -> Peak.close peaks distance k j.
Proof. unfold Peak.close, Peak.gap. lia. Qed.

Lemma invariant_init : Inv [] (repeat true n).
Proof.
  split; [apply repeat_length |]. split.
  - intros j [].
  - intros k Hk Hf. exfalso.
    assert (E : nth k (repeat true n) false = true).
    { apply nth_repeat_lt. exact Hk. }
    congruence.
Qed.

Lemma invariant_step (visited : list nat) (keep : list bool) (j : nat) :
  Inv visited keep -> (j < n)%nat -> ~ In j visited ->
  (forall k, (k < n)%nat -> ~ In k visited -> k <> j -> key k <= key j) ->
  Inv (visited ++ [j]) (signal.distance_step peaks distance keep j).
Proof.
  intros (Hlen & H1 & H2) Hj Hnew Hkey.
  destruct (distance_step_spec peaks distance peaks_sorted keep j Hj) as [Hl Hn].
  set (keep' := signal.distance_step peaks distance keep j) in *.
  assert (Hclose : forall k, (k < n)%nat ->
            (Peak.gap (nth j peaks O) (nth k peaks O) <? distance)%nat = true
            <-> Peak.close peaks distance j k).
  { intros k _. unfold Peak.close. apply Nat.ltb_lt. }
  destruct (nth j keep false) eqn:Hkj.
  - (* peak [j] is kept and clears its neighbourhood *)
    assert (Hstay : forall j0, In j0 visited -> nth j0 keep false = true ->
              (j0 < n)%nat -> nth j0 keep' false = true).
    { intros j0 Hin Hk0 Hj0. rewrite (Hn j0 Hj0). cbn [andb].
      destruct (Nat.eqb_spec j0 j) as [-> | Hne]; [contradiction |]. cbn [negb andb].
      destruct (Peak.gap _ _ <? distance)%nat eqn:Hg; [| exact Hk0].
      apply Hclose in Hg; [| exact Hj0].
      assert (nth j keep false = false)
        by (apply (H1 j0 Hin Hk0 j Hj); [congruence | apply close_sym, Hg]).
      congruence. }
    assert (Hrange : forall j0, nth j0 keep false = true -> (j0 < n)%nat).
    { intros j0 Hk0. destruct (Nat.lt_ge_cases j0 n) as [H | H]; [exact H |].
      rewrite nth_overflow in Hk0 by (rewrite Hlen; exact H). discriminate. }
    split; [congruence |]. split.
    + intros j0 Hin Hk0 k Hk Hne Hcl.
      assert (Hj0 : (j0 < n)%nat).
      { destruct (Nat.lt_ge_cases j0 n) as [H | H]; [exact H |].
        rewrite nth_overflow in Hk0 by (rewrite Hl, Hlen; exact H). discriminate. }
      rewrite (Hn k Hk). cbn [andb].
      apply in_app_or in Hin. destruct Hin as [Hin | [<- | []]].
      * assert (Hk0' : nth j0 keep false = true).
        { rewrite (Hn j0 Hj0) in Hk0.
          destruct (_ && _); [discriminate | exact Hk0]. }
        rewrite (H1 j0 Hin Hk0' k Hk Hne Hcl).
        destruct (_ && _); reflexivity.
      * destruct (Nat.eqb_spec k j) as [-> | _]; [congruence |]. cbn [negb andb].
        rewrite (proj2 (Hclose k Hk) Hcl). reflexivity.
    + intros k Hk Hf. rewrite (Hn k Hk) in Hf. cbn [andb] in Hf.
      destruct (nth k keep false) eqn:Hkk.
      * (* newly removed by [j] *)
        destruct (Nat.eqb_spec k j) as [-> | Hne]; cbn [negb andb] in Hf;
          [congruence |].
        destruct (Peak.gap _ _ <? distance)%nat eqn:Hg; [| discriminate].
        apply Hclose in Hg; [| exact Hk].
        exists j. split; [apply in_or_app; right; left; reflexivity |].
        split; [rewrite (Hn j Hj), Nat.eqb_refl; cbn; exact Hkj |].
        split; [exact Hne |]. split; [exact Hg |].
        apply Hkey; auto. intros Hin.
        assert (nth j keep false = false)
          by (apply (H1 k Hin Hkk j Hj); [congruence | apply close_sym, Hg]).
        congruence.
      * destruct (H2 k Hk Hkk) as (j0 & Hin & Hk0 & Hne & Hcl & Hle).
        exists j0. split; [apply in_or_app; left; exact Hin |].
        split; [apply Hstay; auto |]. auto.
  - (* peak [j] was removed earlier: nothing changes *)
    assert (E : forall k, (k < n)%nat -> nth k keep' false = nth k keep false).
    { intros k Hk. rewrite (Hn k Hk). reflexivity. }
    assert (E' : forall k, nth k keep' false = nth k keep false).
    { intros k. destruct (Nat.lt_ge_cases k n) as [H | H]; [apply E, H |].
      rewrite !nth_overflow; [reflexivity | rewrite Hlen; exact H
                             | rewrite Hl, Hlen; exact H]. }
    split; [congruence |]. split.
    + intros j0 Hin Hk0 k Hk Hne Hcl. rewrite E' in *.
      apply in_app_or in Hin. destruct Hin as [Hin | [<- | []]]; [| congruence].
      eapply H1; eauto.
    + intros k Hk Hf. rewrite E' in Hf.
      destruct (H2 k Hk Hf) as (j0 & Hin & Hk0 & Hne & Hcl & Hle).
      exists j0. rewrite E'. split; [apply in_or_app; left; exact Hin | auto].
Qed.

Lemma invariant_fold (rest visited : list nat) (keep : list bool) :
  Inv visited keep ->
  NoDup (visited ++ rest) ->
  (forall k, In k (visited ++ rest) <-> (k < n)%nat) ->
  StronglySorted (fun a b => key b <= key a) (visited ++ rest) ->
  Inv (visited ++ rest) (fold_left (signal.distance_step peaks distance) rest keep).
Proof.
  revert visited keep. induction rest as [| j rest IH];
    intros visited keep HI Hnd Hall Hs; cbn [fold_left].
  - now rewrite app_nil_r.
  - replace (visited ++ j :: rest) with ((visited ++ [j]) ++ rest) in *
      by (rewrite <- app_assoc; reflexivity).
    apply IH; auto.
    rewrite <- app_assoc in Hnd, Hall, Hs. cbn [app] in Hnd, Hall, Hs.
    apply invariant_step; auto.
    + apply Hall, in_or_app. right. left. reflexivity.
    + apply NoDup_remove_2 in Hnd. intros Hin. apply Hnd, in_or_app. now left.
    + intros k Hk Hnv Hne.
      apply (sorted_app_head _ visited rest j Hs).
      apply Hall in Hk. apply in_app_or in Hk.
      destruct Hk as [Hk | [Hk | Hk]]; [contradiction | congruence | exact Hk].
Qed.

(** The loop run over any visiting order that lists every peak once, by
    descending priority. *)
Lemma select_in_order_spec (order : list nat) :
  NoDup order -> (forall k, In k order <-> (k < n)%nat) ->
  StronglySorted (fun a b => key b <= key a) order ->
  let keep := signal.select_in_order peaks distance order in
  length keep = n
  /\ (forall j k, (j < n)%nat -> (k < n)%nat -> j <> k ->
        nth j keep false = true -> nth k keep false = true ->
        (distance <= Peak.gap (nth j peaks O) (nth k peaks O))%nat)
  /\ (forall k, (k < n)%nat -> nth k keep false = false ->
        exists j, (j < n)%nat /\ nth j keep false = true
                  /\ Peak.close peaks distance j k /\ key k <= key j).
Proof.
  intros Hnd Hall Hs keep.
  pose proof (invariant_fold order [] (repeat true n) invariant_init Hnd Hall Hs)
    as (Hlen & H1 & H2).
  cbn [app] in H1, H2. fold (signal.select_in_order peaks distance order) in *.
  fold keep in Hlen, H1, H2.
  split; [exact Hlen |]. split.
  - intros j k Hj Hk Hne Hkj Hkk.
    destruct (Nat.le_gt_cases distance (Peak.gap (nth j peaks O) (nth k peaks O)))
      as [H | H]; [exact H | exfalso].
    assert (nth k keep false = false)
      by (apply (H1 j (proj2 (Hall j) Hj) Hkj k Hk); [congruence | exact H]).
    congruence.
  - intros k Hk Hf. destruct (H2 k Hk Hf) as (j & Hin & Hkj & _ & Hcl & Hle).
    exists j. split; [apply Hall, Hin | auto].
Qed.

End DistanceLoop.

(** ** [np.argsort] and indexing *)

Lemma insert_by_perm (key : nat -> R) (i : nat) (l : list nat) :
  Permutation (i :: l) (np.insert_by key i l).
Proof.
  induction l as [| j l IH]; cbn [np.insert_by]; [reflexivity |].
  destruct (Rleb (key i) (key j)); [reflexivity |].
  rewrite perm_swap. now apply perm_skip.
Qed.

Lemma insert_by_sorted (key : nat -> R) (i : nat) (l : list nat) :
  StronglySorted (fun a b => key a <= key b) l ->
  StronglySorted (fun a b => key a <= key b) (np.insert_by key i l).
Proof.
  induction 1 as [| j l Hs IH Hall]; cbn [np.insert_by].
  - constructor; constructor.
  - destruct (Rleb (key i) (key j)) eqn:Hle.
    + apply Rleb_true in Hle. constructor; [constructor; assumption |].
      constructor; [exact Hle |].
      eapply Forall_impl; [| exact Hall]. cbn. intros; lra.
    + apply Rleb_false in Hle. constructor; [exact IH |].
      rewrite Forall_forall. intros b Hb.
      apply (Permutation_in _ (Permutation_sym (insert_by_perm key i l))) in Hb.
      destruct Hb as [<- | Hb]; [lra |].
      rewrite Forall_forall in Hall. auto.
Qed.

Lemma argsort_perm (a : list R) : Permutation (seq 0 (length a)) (np.argsort a).
Proof.
  unfold np.argsort. induction (seq 0 (length a)) as [| i l IH]; cbn [fold_right];
    [reflexivity |].
  rewrite <- insert_by_perm. now apply perm_skip.
Qed.

Lemma argsort_sorted (a : list R) :
  StronglySorted (fun i j => np.getitem a i <= np.getitem a j) (np.argsort a).
Proof.
  unfold np.argsort. induction (seq 0 (length a)) as [| i l IH]; cbn [fold_right];
    [constructor | apply insert_by_sorted, IH].
Qed.

Lemma sorted_snoc {A} (Rel : A -> A -> Prop) (l : list A) (a : A) :
  StronglySorted Rel l -> Forall (fun b => Rel b a) l ->
  StronglySorted Rel (l ++ [a]).
Proof.
  induction 1 as [| b l Hs IH Hall]; cbn [app]; intros Hf.
  - constructor; constructor.
  - apply Forall_cons_iff in Hf. destruct Hf as [Hba Hf].
    constructor; [apply IH, Hf |].
    apply Forall_app. split; [exact Hall | constructor; [exact Hba | constructor]].
Qed.

Lemma sorted_rev {A} (Rel : A -> A -> Prop) (l : list A) :
  StronglySorted Rel l -> StronglySorted (fun a b => Rel b a) (rev l).
Proof.
  induction 1 as [| a l Hs IH Hall]; cbn [rev]; [constructor |].
  apply sorted_snoc; [exact IH |].
  rewrite Forall_forall in *. intros b Hb. apply Hall, in_rev, Hb.
Qed.

Lemma sorted_weaken {A} (R1 R2 : A -> A -> Prop) (l : list A) :
  (forall a b, In a l -> In b l -> R1 a b -> R2 a b) ->
  StronglySorted R1 l -> StronglySorted R2 l.
Proof.
  intros Himp Hs. induction Hs as [| a l Hs IH Hall]; [constructor |].
  constructor.
  - apply IH. intros; apply Himp; auto; now right.
  - rewrite Forall_forall in *. intros b Hb.
    apply Himp; [now left | now right | auto].
Qed.

Lemma sorted_map {A B} (f : A -> B) (Rel : B -> B -> Prop) (l : list A) :
  StronglySorted (fun a b => Rel (f a) (f b)) l -> StronglySorted Rel (map f l).
Proof.
  induction 1 as [| a l Hs IH Hall]; cbn [map]; constructor; [exact IH |].
  rewrite Forall_forall in *. intros b Hb.
  apply in_map_iff in Hb. destruct Hb as (c & <- & Hc). auto.
Qed.

(** The visiting order of the distance loop, and of the final sort: every
    index once, by descending key. *)
Lemma rev_argsort_spec (a : list R) :
  NoDup (rev (np.argsort a))
  /\ (forall k, In k (rev (np.argsort a)) <-> (k < length a)%nat)
  /\ StronglySorted (fun i j => np.getitem a j <= np.getitem a i)
                    (rev (np.argsort a)).
Proof.
  pose proof (argsort_perm a) as Hp.
  assert (Hp' : Permutation (seq 0 (length a)) (rev (np.argsort a)))
    by (rewrite Hp; apply Permutation_rev).
  split; [eapply Permutation_NoDup; [exact Hp' | apply seq_NoDup] |].
  split.
  - intros k. rewrite <- (Permutation_in' eq_refl Hp'), in_seq. lia.
  - apply sorted_rev, argsort_sorted.
Qed.

Lemma take_idx_nth (x : list R) (idx : list nat) (j : nat) :
  (j < length idx)%nat ->
  np.getitem (np.take_idx 0 x idx) j = np.getitem x (nth j idx O).
Proof.
  intros Hj. unfold np.getitem, np.take_idx.
  rewrite (nth_indep _ 0 ((fun i => nth i x 0) O)) by (now rewrite length_map).
  apply (map_nth (fun i => nth i x 0)).
Qed.

Lemma take_idx_length {A} (d : A) (x : list A) (idx : list nat) :
  length (np.take_idx d x idx) = length idx.
Proof. apply length_map. Qed.

Lemma map_nth_seq {A} (d : A) (l : list A) :
  map (fun i => nth i l d) (seq 0 (length l)) = l.
Proof.
  induction l as [| a l IH]; [reflexivity |].
  cbn [length seq map nth]. f_equal.
  rewrite <- seq_shift, map_map. exact IH.
Qed.

(** *** Boolean masks *)

Lemma take_mask_map {A} (f : A -> bool) (l : list A) :
  np.take_mask l (map f l) = filter f l.
Proof.
  induction l as [| a l IH]; [reflexivity |].
  cbn [map np.take_mask filter]. rewrite IH. reflexivity.
Qed.

Lemma in_take_mask {A} (d : A) (l : list A) (keep : list bool) (p : A) :
  length keep = length l ->
  In p (np.take_mask l keep)
  <-> exists j, (j < length l)%nat /\ nth j l d = p /\ nth j keep false = true.
Proof.
  revert keep. induction l as [| a l IH]; intros [| b keep] Hlen;
    try discriminate Hlen; cbn [np.take_mask].
  - split; [intros [] | intros (j & Hj & _); cbn in Hj; lia].
  - injection Hlen as Hlen. specialize (IH keep Hlen).
    assert (Htail : In p (np.take_mask l keep) <->
              exists j, (S j < length (a :: l))%nat /\ nth (S j) (a :: l) d = p
                        /\ nth (S j) (b :: keep) false = true).
    { rewrite IH. cbn [length nth].
      split; intros (j & Hj & H); exists j; (split; [lia | exact H]). }
    destruct b.
    + cbn [In]. rewrite Htail. split.
      * intros [<- | (j & H)]; [exists O; cbn; repeat split; lia | exists (S j); exact H].
      * intros ([| j] & Hj & Hp & Hk); [left; exact Hp | right; exists j; auto].
    + rewrite Htail. split.
      * intros (j & H). exists (S j). exact H.
      * intros ([| j] & Hj & Hp & Hk); [discriminate Hk | exists j; auto].
Qed.

Lemma take_mask_sorted (l : list nat) (keep : list bool) :
  StronglySorted lt l -> StronglySorted lt (np.take_mask l keep).
Proof.
  intros Hs. revert keep. induction Hs as [| a l Hs IH Hall]; intros [| b keep];
    cbn [np.take_mask]; try constructor.
  destruct b; [| apply IH].
  constructor; [apply IH |].
  rewrite Forall_forall in *. intros p Hp. apply Hall.
  clear - Hp. revert keep Hp. induction l as [| c l IHl]; intros [| b keep] Hp;
    cbn [np.take_mask] in Hp; try contradiction.
  destruct b; [destruct Hp as [<- | Hp]; [now left | right; eauto] | right; eauto].
Qed.

(** ** [find_peaks] with a minimal height and a minimal distance *)

Lemma height_filter (x : list R) (h : R) (peaks0 : list nat) :
  np.take_mask peaks0 (signal.select_by_property (np.take_idx 0 x peaks0) h)
  = filter (fun i => Rleb h (nth i x 0)) peaks0.
Proof.
  unfold signal.select_by_property, np.take_idx. rewrite map_map.
  apply (take_mask_map (fun i => Rleb h (nth i x 0))).
Qed.

Lemma find_peaks_spec (x : list R) (h : R) (distance : nat) :
  let res := signal.find_peaks x h distance in
  StronglySorted lt res
  /\ (forall p, In p res -> Peak.local_max x p /\ h <= np.getitem x p)
  /\ (forall p q, In p res -> In q res -> p <> q ->
        (distance <= Peak.gap p q)%nat)
  /\ (forall p, Peak.local_max x p -> h <= np.getitem x p ->
        In p res
        \/ exists q, In q res /\ (Peak.gap q p < distance)%nat
                     /\ np.getitem x p <= np.getitem x q).
Proof.
  unfold signal.find_peaks. cbv zeta. rewrite !height_filter.
  destruct (local_maxima_1d_spec x) as [Hs0 Hin0].
  set (peaks0 := signal.local_maxima_1d x) in *.
  set (peaks := filter (fun i => Rleb h (nth i x 0)) peaks0).
  assert (Hs : StronglySorted lt peaks).
  { unfold peaks. rewrite <- take_mask_map. apply take_mask_sorted, Hs0. }
  assert (Hin : forall p, In p peaks <-> Peak.local_max x p /\ h <= np.getitem x p).
  { intros p. unfold peaks. rewrite filter_In, Hin0, Rleb_true. reflexivity. }
  unfold signal.select_by_peak_distance.
  set (priority := np.take_idx 0 x peaks).
  destruct (rev_argsort_spec priority) as (Hnd & Hall & Hord).
  assert (Hlenp : length priority = length peaks) by apply take_idx_length.
  rewrite Hlenp in Hall.
  destruct (select_in_order_spec peaks distance (np.getitem priority) Hs
              (rev (np.argsort priority)) Hnd Hall Hord) as (Hlen & Hsep & Hcov).
  set (keep := signal.select_in_order peaks distance (rev (np.argsort priority))) in *.
  assert (Hmem : forall p, In p (np.take_mask peaks keep) <->
            exists j, (j < length peaks)%nat /\ nth j peaks O = p
                      /\ nth j keep false = true)
    by (intros p; apply in_take_mask; exact Hlen).
  split; [apply take_mask_sorted, Hs |]. split; [| split].
  - intros p Hp. apply Hmem in Hp. destruct Hp as (j & Hj & <- & _).
    apply Hin, nth_In, Hj.
  - intros p q Hp Hq Hne. apply Hmem in Hp, Hq.
    destruct Hp as (j & Hj & <- & Hkj). destruct Hq as (k & Hk & <- & Hkk).
    apply Hsep; auto. congruence.
  - intros p Hloc Hh.
    assert (Hp : In p peaks) by (apply Hin; auto).
    destruct (In_nth _ _ O Hp) as (k & Hk & Ek).
    destruct (nth k keep false) eqn:Hkk.
    + left. apply Hmem. exists k. auto.
    + right. destruct (Hcov k Hk Hkk) as (j & Hj & Hkj & Hcl & Hle).
      exists (nth j peaks O). split; [apply Hmem; exists j; auto |].
      unfold Peak.close in Hcl. rewrite Ek in Hcl. split; [exact Hcl |].
      unfold priority in Hle. rewrite !take_idx_nth in Hle by assumption.
      rewrite Ek in Hle. exact Hle.
Qed.

(** ** The peak list of [perform_auto_fit] *)

Lemma sorted_peak_indices_spec (mag : list R) (mag_max : R) :
  let res := signal.find_peaks mag (mag_max * 0.1) 50 in
  let sorted := PiezoAutoFitter.sorted_peak_indices mag mag_max in
  Permutation res sorted
  /\ StronglySorted (fun p q => np.getitem mag q <= np.getitem mag p) sorted.
Proof.
  intros res sorted. unfold sorted, PiezoAutoFitter.sorted_peak_indices. fold res.
  set (pri := np.take_idx 0 mag res).
  destruct (rev_argsort_spec pri) as (Hnd & Hall & Hord).
  assert (Hlenp : length pri = length res) by apply take_idx_length.
  split.
  - unfold np.take_idx at 1.
    rewrite <- (map_nth_seq O res) at 1.
    apply Permutation_map. rewrite <- Hlenp.
    rewrite (argsort_perm pri). apply Permutation_rev.
  - unfold np.take_idx at 1. apply sorted_map.
    eapply sorted_weaken; [| exact Hord].
    intros a b Ha Hb Hle. cbn in Hle.
    apply Hall in Ha, Hb. rewrite Hlenp in Ha, Hb.
    unfold pri in Hle. now rewrite !take_idx_nth in Hle by assumption.
Qed.

(** ** The spectrum and its frequency axis *)

Lemma spectrum_mag_nth (d : list R) (k : nat) :
  (k < length d / 2)%nat ->
  np.getitem (PiezoAutoFitter.spectrum_mag d) k = np.abs_complex (np.fft_bin d k).
Proof.
  intros Hk.
  assert (Hhalf : (length d / 2 <= length d)%nat)
    by (apply Nat.Div0.div_le_upper_bound; lia).
  unfold PiezoAutoFitter.spectrum_mag, np.getitem, np.fft.
  rewrite (nth_indep _ 0 (np.abs_complex (0, 0)))
    by (rewrite length_map, length_take, length_map, length_seq; lia).
  rewrite (map_nth np.abs_complex). f_equal.
  rewrite nth_firstn. destruct (Nat.ltb_spec k (length d / 2)); [| lia].
  rewrite (nth_indep _ (0, 0) (np.fft_bin d O)) by (rewrite length_map, length_seq; lia).
  rewrite (map_nth (np.fft_bin d)). f_equal.
  rewrite seq_nth by lia. reflexivity.
Qed.

Lemma fftfreq_nth (n : nat) (dt : R) (k : nat) :
  (k < n / 2)%nat ->
  np.getitem (np.fftfreq n dt) k = INR k * (1 / (INR n * dt)).
Proof.
  intros Hk.
  assert (Hn : (n / 2 <= n)%nat) by (apply Nat.Div0.div_le_upper_bound; lia).
  assert (Hh : (n / 2 <= (n - 1) / 2 + 1)%nat).
  { pose proof (Nat.div_mod_eq n 2). pose proof (Nat.mod_upper_bound n 2).
    pose proof (Nat.div_mod_eq (n - 1) 2). pose proof (Nat.mod_upper_bound (n - 1) 2).
    lia. }
  unfold np.fftfreq, np.getitem.
  set (p1 := map Z.of_nat (seq 0 ((n - 1) / 2 + 1))).
  set (p2 := map (fun i => (Z.of_nat i - Z.of_nat (n / 2))%Z) (seq 0 (n / 2))).
  assert (Hl1 : length p1 = ((n - 1) / 2 + 1)%nat)
    by (unfold p1; now rewrite length_map, length_seq).
  rewrite (nth_indep _ 0 ((fun r => IZR r * (1 / (INR n * dt))) 0%Z))
    by (rewrite length_map, length_take, length_app, Hl1; lia).
  rewrite (map_nth (fun r => IZR r * (1 / (INR n * dt)))).
  rewrite nth_firstn. destruct (Nat.ltb_spec k n); [| lia].
  rewrite app_nth1 by lia. unfold p1.
  rewrite (nth_indep _ 0%Z (Z.of_nat O)) by (rewrite length_map, length_seq; lia).
  rewrite (map_nth Z.of_nat), seq_nth by lia.
  cbn [Nat.add]. now rewrite <- INR_IZR_INZ.
Qed.

Lemma spectrum_freqs_nth (d : list R) (sr : Z) (k : nat) :
  (k < length d / 2)%nat -> sr <> 0%Z ->
  np.getitem (PiezoAutoFitter.spectrum_freqs d sr) k
  = INR k * IZR sr / INR (length d).
Proof.
  intros Hk Hsr. unfold PiezoAutoFitter.spectrum_freqs, np.getitem.
  rewrite nth_firstn. destruct (Nat.ltb_spec k (length d / 2)); [| lia].
  fold (np.getitem (np.fftfreq (length d) (1 / IZR sr)) k).
  rewrite fftfreq_nth by exact Hk.
  assert (IZR sr <> 0) by (apply not_0_IZR; exact Hsr).
  assert (INR (length d) <> 0).
  { apply not_0_INR. intros E. rewrite E in Hk. cbn in Hk. lia. }
  field. auto.
Qed.

Lemma spectrum_freqs_length (d : list R) (sr : Z) :
  length (PiezoAutoFitter.spectrum_freqs d sr) = (length d / 2)%nat.
Proof.
  assert (Hn : (length d / 2 <= length d)%nat)
    by (apply Nat.Div0.div_le_upper_bound; lia).
  assert (Hh : (length d / 2 <= (length d - 1) / 2 + 1)%nat).
  { pose proof (Nat.div_mod_eq (length d) 2).
    pose proof (Nat.mod_upper_bound (length d) 2).
    pose proof (Nat.div_mod_eq (length d - 1) 2).
    pose proof (Nat.mod_upper_bound (length d - 1) 2). lia. }
  unfold PiezoAutoFitter.spectrum_freqs, np.fftfreq.
  rewrite length_take, length_map, length_take, length_app, !length_map, !length_seq.
  lia.
Qed.

(** C6 (amended): for a window of at least two samples, the analysis of
    [perform_auto_fit] does not fail.  It takes the magnitude of the bins
    [0 .. N//2 - 1] of the discrete Fourier transform, with frequency axis
    [bin * sample_rate / N].  The peaks it returns are local maxima of the
    magnitude whose value is at least 10% of the global maximum; any two of
    them are at least 50 bins apart; they are ordered by descending
    magnitude; every local maximum that reaches the threshold is returned
    unless a returned peak of at least its magnitude lies closer than 50
    bins; the list is empty when no local maximum reaches the threshold;
    and [perform_auto_fit] returns, whatever the optimiser does. *)
Theorem C6_spectral_peaks (d : list R) (sr : Z) :
  (2 <= length d)%nat -> sr <> 0%Z ->
  let N := length d in
  let mag := PiezoAutoFitter.spectrum_mag d in
  let freqs := PiezoAutoFitter.spectrum_freqs d sr in
  exists mag_max : R,
    np.max mag = Some mag_max
    /\ (Forall (fun y => y <= mag_max) mag /\ In mag_max mag)
    /\ (length mag = (N / 2)%nat /\ length freqs = (N / 2)%nat)
    /\ (forall k, (k < N / 2)%nat ->
          np.getitem mag k = np.abs_complex (np.fft_bin d k)
          /\ np.getitem freqs k = INR k * IZR sr / INR N)
    /\ let sorted := PiezoAutoFitter.sorted_peak_indices mag mag_max in
       (forall p, In p sorted ->
          Peak.local_max mag p /\ mag_max * 0.1 <= np.getitem mag p)
       /\ NoDup sorted
       /\ (forall p q, In p sorted -> In q sorted -> p <> q ->
             (50 <= Peak.gap p q)%nat)
       /\ StronglySorted (fun p q => np.getitem mag q <= np.getitem mag p) sorted
       /\ (forall p, Peak.local_max mag p -> mag_max * 0.1 <= np.getitem mag p ->
             In p sorted
             \/ exists q, In q sorted /\ (Peak.gap q p < 50)%nat
                          /\ np.getitem mag p <= np.getitem mag q)
       /\ ((forall p, Peak.local_max mag p -> np.getitem mag p < mag_max * 0.1) ->
             sorted = [])
       /\ (forall (curve_fit : curve_fit_t) (self : PiezoAutoFitter.t),
             PiezoAutoFitter.data self = Some d ->
             PiezoAutoFitter.sample_rate self = sr ->
             exists out self',
               PiezoAutoFitter.perform_auto_fit curve_fit self = (out, Return self')).
Proof.
  intros Hlen Hsr N mag freqs.
  destruct (spectrum_mag_max d Hlen) as [mx Hmx]. exists mx.
  split; [exact Hmx |]. split; [apply np_max_spec, Hmx |].
  split; [split; [apply spectrum_mag_length | apply spectrum_freqs_length] |].
  split.
  { intros k Hk. split; [apply spectrum_mag_nth, Hk | apply spectrum_freqs_nth; auto]. }
  intros sorted.
  destruct (sorted_peak_indices_spec mag mx) as [Hperm Hdesc].
  destruct (find_peaks_spec mag (mx * 0.1) 50) as (Hinc & Hsound & Hsep & Hcov).
  fold sorted in Hperm, Hdesc.
  set (res := signal.find_peaks mag (mx * 0.1) 50) in *.
  assert (Hiff : forall p, In p sorted <-> In p res).
  { intros p. split; apply Permutation_in; [symmetry |]; exact Hperm. }
  split; [intros p Hp; apply Hsound, Hiff, Hp |].
  split.
  { eapply Permutation_NoDup; [exact Hperm |].
    clear - Hinc. induction Hinc as [| a l Hs IH Hall]; constructor; [| exact IH].
    intros Hin. rewrite Forall_forall in Hall. specialize (Hall a Hin). lia. }
  split; [intros p q Hp Hq; apply Hsep; apply Hiff; assumption |].
  split; [exact Hdesc |].
  split.
  { intros p Hloc Hh. destruct (Hcov p Hloc Hh) as [Hp | (q & Hq & Hg & Hle)].
    - left. apply Hiff, Hp.
    - right. exists q. split; [apply Hiff, Hq | auto]. }
  split.
  { intros Hnone. destruct sorted as [| p l]; [reflexivity | exfalso].
    assert (Hp : In p (p :: l)) by now left.
    destruct (Hsound p (proj1 (Hiff p) Hp)) as [Hloc Hh].
    specialize (Hnone p Hloc). lra. }
  intros curve_fit self Hd Hs. subst sr.
  rewrite (perform_auto_fit_eq curve_fit self d Hd Hlen Hsr).
  destruct (PiezoAutoFitter.try_fit _ _ _ _) as [p [e |]]; eexists; eexists; reflexivity.
Qed.

(** ** A window whose second peak sits exactly on the threshold *)

Lemma cos_shift_pi (x : R) (q : nat) :
  cos (x + INR q * PI) = (if Nat.even q then 1 else -1) * cos x.
Proof.
  induction q as [| q IH].
  - cbn [Nat.even INR]. rewrite Rmult_0_l, Rplus_0_r. ring.
  - rewrite S_INR, Nat.even_succ, <- Nat.negb_even.
    replace (x + (INR q + 1) * PI) with (x + INR q * PI + PI) by ring.
    rewrite neg_cos, IH. destruct (Nat.even q); cbn [negb]; ring.
Qed.

Lemma sin_shift_pi (x : R) (q : nat) :
  sin (x + INR q * PI) = (if Nat.even q then 1 else -1) * sin x.
Proof.
  induction q as [| q IH].
  - cbn [Nat.even INR]. rewrite Rmult_0_l, Rplus_0_r. ring.
  - rewrite S_INR, Nat.even_succ, <- Nat.negb_even.
    replace (x + (INR q + 1) * PI) with (x + INR q * PI + PI) by ring.
    rewrite neg_sin, IH. destruct (Nat.even q); cbn [negb]; ring.
Qed.

Lemma dft_angle8 (k n : nat) :
  2 * PI * INR k * INR n / INR 8
  = INR ((k * n) mod 4) * (PI / 4) + INR ((k * n) / 4) * PI.
Proof.
  replace (INR 8) with 8 by (simpl; lra).
  transitivity (INR (k * n) * (PI / 4)); [rewrite mult_INR; field |].
  rewrite (Nat.div_mod_eq (k * n) 4) at 1.
  rewrite plus_INR, mult_INR. replace (INR 4) with 4 by (simpl; lra). field.
Qed.

Lemma dft_cos8 (k n : nat) :
  cos (2 * PI * INR k * INR n / INR 8) = quarter_cos (k * n).
Proof.
  rewrite dft_angle8, cos_shift_pi. unfold quarter_cos. f_equal.
  pose proof (Nat.mod_upper_bound (k * n) 4) as Hr.
  destruct ((k * n) mod 4)%nat as [| [| [| [| r]]]]; try lia.
  - cbn [INR]. rewrite Rmult_0_l. apply cos_0.
  - cbn [INR]. rewrite Rmult_1_l. apply cos_PI4.
  - replace (INR 2 * (PI / 4)) with (PI / 2) by (simpl; lra). apply cos_PI2.
  - replace (INR 3 * (PI / 4)) with (3 * (PI / 4)) by (simpl; lra). apply cos_3PI4.
Qed.

Lemma dft_sin8 (k n : nat) :
  sin (2 * PI * INR k * INR n / INR 8) = quarter_sin (k * n).
Proof.
  rewrite dft_angle8, sin_shift_pi. unfold quarter_sin. f_equal.
  pose proof (Nat.mod_upper_bound (k * n) 4) as Hr.
  destruct ((k * n) mod 4)%nat as [| [| [| [| r]]]]; try lia.
  - cbn [INR]. rewrite Rmult_0_l. apply sin_0.
  - cbn [INR]. rewrite Rmult_1_l. apply sin_PI4.
  - replace (INR 2 * (PI / 4)) with (PI / 2) by (simpl; lra). apply sin_PI2.
  - replace (INR 3 * (PI / 4)) with (3 * (PI / 4)) by (simpl; lra). apply sin_3PI4.
Qed.

Ltac dft8 :=
  unfold np.fft_bin, tone_window;
  cbv [imap compose np.sum fold_right length];
  rewrite !dft_cos8, !dft_sin8;
  cbv [quarter_cos quarter_sin Nat.mul Nat.add Nat.div Nat.modulo Nat.divmod
       Nat.even Nat.sub fst snd].

Lemma tone_bin0 : np.fft_bin tone_window 0 = (5, 0).
Proof. dft8. f_equal; lra. Qed.

Lemma tone_bin1 : np.fft_bin tone_window 1 = (0, 0).
Proof. dft8. f_equal; lra. Qed.

Lemma tone_bin2 : np.fft_bin tone_window 2 = (0.5, 0).
Proof. dft8. f_equal; lra. Qed.

Lemma tone_bin3 : np.fft_bin tone_window 3 = (0, 0).
Proof. dft8. f_equal; lra. Qed.

Lemma tone_spectrum : PiezoAutoFitter.spectrum_mag tone_window = [5; 0; 0.5; 0].
Proof.
  unfold PiezoAutoFitter.spectrum_mag, np.fft.
  change (length tone_window) with 8%nat.
  cbv [Nat.div Nat.divmod fst seq map take firstn].
  rewrite tone_bin0, tone_bin1, tone_bin2, tone_bin3.
  unfold np.abs_complex; cbn [fst snd].
  repeat f_equal; apply sqrt_lem_1; lra.
Qed.

(** Decide the comparisons of numerals that occur in the goal. *)
Ltac Rcmp :=
  repeat match goal with
         | |- context [Rltb ?a ?b] =>
             first [ rewrite (proj2 (Rltb_true a b)) by lra
                   | rewrite (proj2 (Rltb_false a b)) by lra ]
         | |- context [Rleb ?a ?b] =>
             first [ rewrite (proj2 (Rleb_true a b)) by lra
                   | rewrite (proj2 (Rleb_false a b)) by lra ]
         end.

(** The iterations of the two loops of [_local_maxima_1d], one case each. *)
Lemma plateau_end_more (fuel : nat) (x : list R) (i i_ahead i_max : nat) :
  (i_ahead < i_max)%nat -> np.getitem x i_ahead = np.getitem x i ->
  signal.plateau_end (S fuel) x i i_ahead i_max
  = signal.plateau_end fuel x i (S i_ahead) i_max.
Proof.
  intros Hlt Heq. cbn [signal.plateau_end].
  destruct (Nat.ltb_spec i_ahead i_max); [| lia].
  now rewrite (proj2 (Reqb_true _ _) Heq).
Qed.

Lemma plateau_end_stop (fuel : nat) (x : list R) (i i_ahead i_max : nat) :
  (i_max <= i_ahead)%nat \/ np.getitem x i_ahead <> np.getitem x i ->
  signal.plateau_end fuel x i i_ahead i_max = i_ahead.
Proof.
  intros H. destruct fuel; [reflexivity |]. cbn [signal.plateau_end].
  destruct H as [H | H].
  - destruct (Nat.ltb_spec i_ahead i_max); [lia | reflexivity].
  - destruct (signal.Reqb _ _) eqn:E; [apply Reqb_true in E; contradiction |].
    now rewrite andb_false_r.
Qed.

Lemma local_maxima_loop_stop (fuel : nat) (x : list R) (i i_max : nat) :
  (i_max <= i)%nat -> signal.local_maxima_loop fuel x i i_max = [].
Proof.
  intros H. destruct fuel; [reflexivity |]. cbn [signal.local_maxima_loop].
  destruct (Nat.ltb_spec i i_max); [lia | reflexivity].
Qed.

Lemma local_maxima_loop_skip (fuel : nat) (x : list R) (i i_max : nat) :
  (i < i_max)%nat -> np.getitem x i <= np.getitem x (i - 1) ->
  signal.local_maxima_loop (S fuel) x i i_max
  = signal.local_maxima_loop fuel x (i + 1) i_max.
Proof.
  intros Hlt Hle. cbn [signal.local_maxima_loop].
  destruct (Nat.ltb_spec i i_max); [| lia].
  now rewrite (proj2 (Rltb_false _ _) Hle).
Qed.

Lemma local_maxima_loop_peak (fuel : nat) (x : list R) (i i_max e : nat) :
  (i < i_max)%nat -> np.getitem x (i - 1) < np.getitem x i ->
  signal.plateau_end (length x) x i (i + 1) i_max = e ->
  np.getitem x e < np.getitem x i ->
  signal.local_maxima_loop (S fuel) x i i_max
  = ((i + (e - 1)) / 2)%nat :: signal.local_maxima_loop fuel x (e + 1) i_max.
Proof.
  intros Hlt Hup He Hdown. cbn [signal.local_maxima_loop].
  destruct (Nat.ltb_spec i i_max); [| lia].
  rewrite (proj2 (Rltb_true _ _) Hup). cbv zeta. rewrite He.
  now rewrite (proj2 (Rltb_true _ _) Hdown).
Qed.

Lemma local_maxima_loop_no_peak (fuel : nat) (x : list R) (i i_max e : nat) :
  (i < i_max)%nat -> np.getitem x (i - 1) < np.getitem x i ->
  signal.plateau_end (length x) x i (i + 1) i_max = e ->
  np.getitem x i <= np.getitem x e ->
  signal.local_maxima_loop (S fuel) x i i_max
  = signal.local_maxima_loop fuel x (i + 1) i_max.
Proof.
  intros Hlt Hup He Hdown. cbn [signal.local_maxima_loop].
  destruct (Nat.ltb_spec i i_max); [| lia].
  rewrite (proj2 (Rltb_true _ _) Hup). cbv zeta. rewrite He.
  now rewrite (proj2 (Rltb_false _ _) Hdown).
Qed.

(** Run the loops on a list of numerals, one iteration at a time. *)
Ltac items := unfold np.getitem; cbn [nth Nat.add Nat.sub length].

Ltac run_plateau :=
  cbn [length Nat.add];
  repeat (rewrite plateau_end_more by (items; first [lia | lra]));
  rewrite plateau_end_stop
    by (first [left; cbn [Nat.add]; lia | right; items; lra]);
  reflexivity.

Ltac run_local_maxima :=
  unfold signal.local_maxima_1d; cbn [length Nat.sub];
  repeat first
    [ rewrite local_maxima_loop_stop by (cbn [Nat.add]; lia)
    | rewrite local_maxima_loop_skip by (items; first [lia | lra])
    | erewrite local_maxima_loop_peak;
        [ | lia | items; lra | run_plateau | items; lra ]
    | erewrite local_maxima_loop_no_peak;
        [ | lia | items; lra | run_plateau | items; lra ] ];
  cbn [Nat.add Nat.sub Nat.div Nat.divmod fst].

Lemma tone_local_maxima : signal.local_maxima_1d [5; 0; 0.5; 0] = [2%nat].
Proof. run_local_maxima. reflexivity. Qed.

Lemma tone_find_peaks : signal.find_peaks [5; 0; 0.5; 0] (5 * 0.1) 50 = [2%nat].
Proof.
  unfold signal.find_peaks. cbv zeta. rewrite tone_local_maxima.
  cbv [np.take_idx map nth signal.select_by_property np.take_mask].
  Rcmp. reflexivity.
Qed.

Lemma tone_sorted_peaks :
  PiezoAutoFitter.sorted_peak_indices (PiezoAutoFitter.spectrum_mag tone_window) 5
  = [2%nat].
Proof.
  rewrite tone_spectrum. unfold PiezoAutoFitter.sorted_peak_indices. cbv zeta.
  rewrite tone_find_peaks. reflexivity.
Qed.

(** C6, as stated, fails on the threshold: the second peak of this window
    has exactly 10% of the largest magnitude, so it does not exceed the
    threshold, and it is returned. *)
Lemma C6_threshold_is_inclusive :
  let mag := PiezoAutoFitter.spectrum_mag tone_window in
  np.max mag = Some 5
  /\ PiezoAutoFitter.sorted_peak_indices mag 5 = [2%nat]
  /\ np.getitem mag 2 = 0.1 * 5
  /\ ~ (0.1 * 5 < np.getitem mag 2).
Proof.
  cbv zeta. rewrite tone_sorted_peaks, tone_spectrum.
  split.
  - unfold np.max. cbn [fold_left]. f_equal.
    unfold Rmax. repeat (destruct (Rle_dec _ _); try lra).
  - split; [reflexivity |]. cbn [np.getitem nth]. split; lra.
Qed.

Lemma C6_spectral_peaks_witness :
  exists mag_max : R,
    np.max (PiezoAutoFitter.spectrum_mag tone_window) = Some mag_max
    /\ length (PiezoAutoFitter.spectrum_mag tone_window) = 4%nat.
Proof.
  destruct (C6_spectral_peaks tone_window 44100) as (mx & Hmx & _ & (Hl & _) & _).
  - simpl. lia.
  - discriminate.
  - exists mx. split; [exact Hmx | exact Hl].
Defined.

(** ** The initial guess of [perform_auto_fit] *)




(** ** Worked examples *)

Ltac format_at k :=
  unfold Fmt.format_f;
  match goal with
  | |- Fmt.fixed_str (Fmt.to_fixed ?prec ?x) = _ =>
      rewrite (to_fixed_near prec x k)
        by (first [rewrite Rabs_right by lra | rewrite Rabs_left by lra];
            simpl; lra)
  end;
  Rcmp; reflexivity.

Example format_plain : Fmt.format_f 1 1234.5 = "1234.5".
Proof. format_at 12345%Z. Qed.

Example format_pads_zeros : Fmt.format_f 6 0.01 = "0.010000".
Proof. format_at 10000%Z. Qed.

Example format_negative : Fmt.format_f 5 (-2.5) = "-2.50000".
Proof. format_at 250000%Z. Qed.

Example format_keeps_sign_of_small : Fmt.format_f 5 (-0.000001) = "-0.00000".
Proof. format_at 0%Z. Qed.

(** A tie goes to the even neighbour: [0.015625] is [1/64]. *)
Example format_tie_to_even : Fmt.format_f 5 0.015625 = "0.01562".
Proof.
  unfold Fmt.format_f, Fmt.to_fixed.
  assert (E : Fmt.round_half_even (Rabs 0.015625 * 10 ^ 5) = 1562%Z).
  { unfold Fmt.round_half_even.
    assert (Hf : Zfloor (Rabs 0.015625 * 10 ^ 5) = 1562%Z)
      by (apply Zfloor_eq; rewrite Rabs_right by lra; simpl; lra).
    rewrite Hf, Rabs_right by lra.
    destruct (Rlt_dec _ _) as [H | _]; [simpl in H; lra |].
    destruct (Rlt_dec _ _) as [H | _]; [simpl in H; lra |].
    reflexivity. }
  rewrite E. Rcmp. reflexivity.
Qed.

Example format_small_amplitude : Fmt.format_f 1 0.04 = "0.0".
Proof. format_at 0%Z. Qed.

(** A flat peak is reported at its middle. *)
Example local_maxima_plateau :
  signal.local_maxima_1d [0; 1; 1; 1; 0; 2; 2; 3] = [2%nat].
Proof. run_local_maxima. reflexivity. Qed.

Example local_maxima_three :
  signal.local_maxima_1d [0; 1; 0; 2; 0; 1.5; 0] = [1%nat; 3%nat; 5%nat].
Proof. run_local_maxima. reflexivity. Qed.

Ltac run_argsort :=
  unfold np.argsort; cbn [length seq fold_right];
  repeat (cbn [np.insert_by np.getitem nth]; Rcmp).

Ltac run_find_peaks Hloc :=
  unfold signal.find_peaks; cbv zeta; rewrite Hloc;
  cbv [np.take_idx map nth signal.select_by_property np.take_mask];
  Rcmp;
  cbv [np.take_mask signal.select_by_peak_distance np.take_idx map length];
  run_argsort.

(** The highest peak removes its lower neighbours closer than the
    distance. *)
Example find_peaks_distance_3 :
  signal.find_peaks [0; 1; 0; 2; 0; 1.5; 0] 0.2 3 = [3%nat].
Proof. run_find_peaks local_maxima_three. reflexivity. Qed.

Example find_peaks_distance_2 :
  signal.find_peaks [0; 1; 0; 2; 0; 1.5; 0] 0.2 2 = [1%nat; 3%nat; 5%nat].
Proof. run_find_peaks local_maxima_three. reflexivity. Qed.

Example find_peaks_height :
  signal.find_peaks [0; 1; 0; 2; 0; 1.5; 0] 1.2 2 = [3%nat; 5%nat].
Proof. run_find_peaks local_maxima_three. reflexivity. Qed.

(** [peaks[np.argsort(mag[peaks])[::-1]]]: highest first. *)
Example peaks_by_descending_height :
  np.take_idx O [1; 3; 5]%nat
    (rev (np.argsort (np.take_idx 0 [0; 1; 0; 2; 0; 1.5; 0] [1; 3; 5]%nat)))
  = [3; 5; 1]%nat.
Proof.
  cbv [np.take_idx map nth]. run_argsort. reflexivity.
Qed.

(** Two visible events are joined by a [+] at the end of the first line;
    a hidden one is skipped. *)
Example generate_two_events (now : string) (c1 c2 c3 : PiezoGui.SignalControls) :
  PiezoGui.is_visible c1 = true -> PiezoGui.is_visible c2 = false ->
  PiezoGui.is_visible c3 = true ->
  PiezoGui.generate_spice_model now [c1; c2; c3]
  = ((((PiezoGui.header now ++ PiezoGui.control_line c1) ++ "+")
        ++ PiezoGui.control_line c3)
       ++ newline ++ "+ }" ++ newline ++ newline ++ ".ENDS MULTI_PIEZO")%string.
Proof.
  intros H1 H2 H3. unfold PiezoGui.generate_spice_model.
  cbn [fold_left]. rewrite H1, H2, H3. reflexivity.
Qed.

(** ** [load_wav]: normalisation, trimming and the time axis *)

(** *** [np.argmax] *)

Lemma argmax_from_spec (full : list R) :
  forall (x : list R) (i best : nat) (vbest : R),
    (exists pre, full = pre ++ x /\ length pre = i) ->
    (best < i)%nat -> nth best full 0 = vbest ->
    (forall j, (j < i)%nat -> nth j full 0 <= vbest) ->
    (forall j, (j < best)%nat -> nth j full 0 < vbest) ->
    let r := numpy.argmax_from x i best vbest in
    (r < length full)%nat
    /\ (forall j, (j < length full)%nat -> nth j full 0 <= nth r full 0)
    /\ (forall j, (j < r)%nat -> nth j full 0 < nth r full 0).
Proof.
  induction x as [| v x IH]; intros i best vbest (pre & Hfull & Hlen) Hb Hv Hle Hlt;
    cbn [numpy.argmax_from].
  - rewrite app_nil_r in Hfull. subst full. rewrite Hlen.
    split; [exact Hb |]. rewrite Hv. split; assumption.
  - assert (Hnth : nth i full 0 = v).
    { subst full. rewrite app_nth2 by lia.
      replace (i - length pre)%nat with 0%nat by lia. reflexivity. }
    assert (Hpre : exists pre', full = pre' ++ x /\ length pre' = S i).
    { exists (pre ++ [v]). split.
      - rewrite <- app_assoc. exact Hfull.
      - rewrite length_app. cbn. lia. }
    destruct (Rltb vbest v) eqn:Hcmp.
    + apply Rltb_true in Hcmp. apply IH; auto.
      * intros j Hj. destruct (Nat.eq_dec j i) as [-> | Hne];
          [rewrite Hnth; lra |].
        assert (j < i)%nat by lia. specialize (Hle j H). lra.
      * intros j Hj. specialize (Hle j Hj). lra.
    + apply Rltb_false in Hcmp. apply IH; auto.
      intros j Hj. destruct (Nat.eq_dec j i) as [-> | Hne];
        [rewrite Hnth; lra |].
      apply Hle. lia.
Qed.

Lemma argmax_spec (x : list R) (i : nat) :
  numpy.argmax x = Some i ->
  (i < length x)%nat
  /\ (forall j, (j < length x)%nat -> nth j x 0 <= nth i x 0)
  /\ (forall j, (j < i)%nat -> nth j x 0 < nth i x 0).
Proof.
  destruct x as [| v x]; [discriminate |].
  cbn [numpy.argmax]. intros [= <-].
  apply (argmax_from_spec (v :: x) x 1 0 v).
  - exists [v]. split; reflexivity.
  - lia.
  - reflexivity.
  - intros j Hj. assert (j = 0)%nat as -> by lia. cbn. lra.
  - intros j Hj. lia.
Qed.

Lemma argmax_some (x : list R) : x <> [] -> exists i, numpy.argmax x = Some i.
Proof. destruct x; [congruence | eexists; reflexivity]. Qed.

(** *** [int] on a non-negative float *)

Lemma int_of_float_nonneg (x : R) :
  0 <= x ->
  int_of_float x = Zfloor x /\ (0 <= Zfloor x)%Z /\ IZR (Zfloor x) <= x.
Proof.
  intros Hx. unfold int_of_float.
  rewrite (proj2 (Rltb_false x 0)) by exact Hx.
  split; [reflexivity |]. split.
  - apply (Zfloor_lub 0 x). exact Hx.
  - apply Zfloor_bound.
Qed.

(** *** Slices with bounds inside the array *)

Lemma slice_inside {A} (x : list A) (start stop : nat) :
  (start <= length x)%nat -> (stop <= length x)%nat ->
  numpy.slice x (Z.of_nat start) (Z.of_nat stop)
  = take (stop - start) (drop start x).
Proof.
  intros Hs He. unfold numpy.slice.
  destruct (Z.ltb_spec (Z.of_nat start) 0); [lia |].
  destruct (Z.ltb_spec (Z.of_nat stop) 0); [lia |].
  rewrite !Z.min_l by lia. rewrite Nat2Z.id.
  f_equal. lia.
Qed.

Lemma take_min_length {A} (l : list A) (n : nat) :
  take (Nat.min n (length l)) l = take n l.
Proof.
  destruct (Nat.le_ge_cases n (length l)) as [H | H].
  - now rewrite Nat.min_l.
  - rewrite Nat.min_r by exact H. rewrite !firstn_all2 by lia. reflexivity.
Qed.

Section Trim.

Variable sr : Z.
Variable data : list R.
Hypothesis sr_pos : (0 < sr)%Z.

Let pre_roll : nat := Z.to_nat (Zfloor (0.002 * IZR sr)).
Let window_len : nat := Z.to_nat (Zfloor (0.15 * IZR sr)).

Lemma trim_eq (peak_idx : nat) :
  numpy.argmax (map Rabs data) = Some peak_idx ->
  WavLoader.trim sr data
  = Return (take window_len (drop (peak_idx - pre_roll) data)).
Proof.
  intros Harg. unfold WavLoader.trim. rewrite Harg.
  assert (Hsr : 0 < IZR sr) by (apply IZR_lt; exact sr_pos).
  destruct (int_of_float_nonneg (0.002 * IZR sr)) as (E1 & P1 & _); [lra |].
  destruct (int_of_float_nonneg (0.15 * IZR sr)) as (E2 & P2 & _); [lra |].
  rewrite E1, E2.
  destruct (argmax_spec _ _ Harg) as (Hlt & _). rewrite length_map in Hlt.
  set (start := (peak_idx - pre_roll)%nat).
  assert (Hstart : Z.max 0 (Z.of_nat peak_idx - Zfloor (0.002 * IZR sr))
                   = Z.of_nat start) by (unfold start, pre_roll; lia).
  rewrite Hstart.
  set (stop := Nat.min (length data) (start + window_len)).
  assert (Hstop : Z.min (Z.of_nat (length data))
                    (Z.of_nat start + Zfloor (0.15 * IZR sr))
                  = Z.of_nat stop) by (unfold stop, window_len; lia).
  rewrite Hstop. f_equal.
  rewrite slice_inside by (unfold stop, start; lia).
  assert (Hlen : length (drop start data) = (length data - start)%nat)
    by apply length_drop.
  replace (stop - start)%nat with (Nat.min window_len (length (drop start data)))
    by (rewrite Hlen; unfold stop, start; lia).
  apply take_min_length.
Qed.

Lemma window_len_seconds : INR window_len <= 0.15 * IZR sr.
Proof.
  assert (Hsr : 0 < IZR sr) by (apply IZR_lt; exact sr_pos).
  destruct (int_of_float_nonneg (0.15 * IZR sr)) as (_ & P & B); [lra |].
  unfold window_len. rewrite INR_IZR_INZ, Z2Nat.id by exact P. exact B.
Qed.

Lemma pre_roll_seconds : INR pre_roll <= 0.002 * IZR sr.
Proof.
  assert (Hsr : 0 < IZR sr) by (apply IZR_lt; exact sr_pos).
  destruct (int_of_float_nonneg (0.002 * IZR sr)) as (_ & P & B); [lra |].
  unfold pre_roll. rewrite INR_IZR_INZ, Z2Nat.id by exact P. exact B.
Qed.

Lemma pre_roll_lt_window_len : (7 <= sr)%Z -> (pre_roll < window_len)%nat.
Proof.
  intros H7. assert (Hsr : 7 <= IZR sr) by (apply IZR_le; exact H7).
  destruct (int_of_float_nonneg (0.002 * IZR sr)) as (_ & P1 & _); [lra |].
  destruct (int_of_float_nonneg (0.15 * IZR sr)) as (_ & P2 & _); [lra |].
  unfold pre_roll, window_len.
  assert (Zfloor (0.002 * IZR sr) + 1 <= Zfloor (0.15 * IZR sr))%Z; [| lia].
  apply Zfloor_lub. rewrite plus_IZR.
  pose proof (Zfloor_bound (0.002 * IZR sr)). lra.
Qed.

End Trim.
Lemma np_max_unique (l : list R) (m : R) :
  Forall (fun y => y <= m) l -> In m l -> np.max l = Some m.
Proof.
  intros Hall Hin.
  destruct (np_max_some l) as [m' Hm']; [intros ->; contradiction |].
  destruct (np_max_spec _ _ Hm') as [Hall' Hin'].
  rewrite Forall_forall in Hall, Hall'.
  specialize (Hall _ Hin'). specialize (Hall' _ Hin).
  rewrite Hm'. f_equal. lra.
Qed.

Lemma argmax_abs_max (data : list R) (peak_idx : nat) :
  numpy.argmax (map Rabs data) = Some peak_idx ->
  (peak_idx < length data)%nat
  /\ Forall (fun v => Rabs v <= Rabs (nth peak_idx data 0)) data
  /\ np.max (map Rabs data) = Some (Rabs (nth peak_idx data 0)).
Proof.
  intros Harg. destruct (argmax_spec _ _ Harg) as (Hlt & Hmax & _).
  rewrite length_map in Hlt, Hmax.
  assert (Hnth : forall j, nth j (map Rabs data) 0 = Rabs (nth j data 0)).
  { intros j. rewrite <- Rabs_R0 at 1. apply map_nth. }
  assert (Hall : Forall (fun v => Rabs v <= Rabs (nth peak_idx data 0)) data).
  { apply Forall_forall. intros v Hv.
    destruct (In_nth _ _ 0 Hv) as (j & Hj & <-).
    specialize (Hmax j Hj). now rewrite !Hnth in Hmax. }
  split; [exact Hlt |]. split; [exact Hall |].
  apply np_max_unique.
  - rewrite Forall_map. exact Hall.
  - apply in_map, nth_In, Hlt.
Qed.

Lemma div_le_bound (x y c : R) : 0 < y -> x <= c * y -> x / y <= c.
Proof.
  intros Hy H. apply Rmult_le_reg_r with y; [exact Hy |].
  unfold Rdiv. rewrite Rmult_assoc, Rinv_l by lra. lra.
Qed.

(** X1.  The window that [load_wav] keeps starts at most 2 ms of samples
    before the loudest sample and is a run of consecutive samples of the
    recording of at most [int(0.15 * sample_rate)] samples, that is at most
    150 ms. *)
Theorem trim_window (sr : Z) (data : list R) :
  (0 < sr)%Z -> data <> [] ->
  exists (peak_idx : nat) (window : list R),
    numpy.argmax (map Rabs data) = Some peak_idx
    /\ WavLoader.trim sr data = Return window
    /\ let pre_roll := Z.to_nat (Zfloor (0.002 * IZR sr)) in
       let window_len := Z.to_nat (Zfloor (0.15 * IZR sr)) in
       let start_idx := (peak_idx - pre_roll)%nat in
       window = take window_len (drop start_idx data)
       /\ length window = Nat.min window_len (length data - start_idx)
       /\ INR (peak_idx - start_idx) / IZR sr <= 0.002
       /\ INR (length window) / IZR sr <= 0.15.
Proof.
  intros Hsr Hne.
  destruct (argmax_some (map Rabs data)) as [peak_idx Harg].
  { destruct data; [congruence | discriminate]. }
  exists peak_idx, (take (Z.to_nat (Zfloor (0.15 * IZR sr)))
                      (drop (peak_idx - Z.to_nat (Zfloor (0.002 * IZR sr))) data)).
  split; [exact Harg |]. split; [apply (trim_eq sr data Hsr), Harg |].
  intros pre_roll window_len start_idx.
  assert (HR : 0 < IZR sr) by (apply IZR_lt; exact Hsr).
  assert (Hlen : length (take window_len (drop start_idx data))
                 = Nat.min window_len (length data - start_idx)).
  { rewrite length_take, length_drop. reflexivity. }
  split; [reflexivity |]. split; [exact Hlen |]. split.
  - apply div_le_bound; [lra |].
    apply Rle_trans with (INR pre_roll); [apply le_INR; unfold start_idx; lia |].
    apply (pre_roll_seconds sr Hsr).
  - apply div_le_bound; [lra |]. fold pre_roll window_len start_idx. rewrite Hlen.
    apply Rle_trans with (INR window_len); [apply le_INR; lia |].
    apply (window_len_seconds sr Hsr).
Qed.

Lemma trim_window_witness :
  exists (peak_idx : nat) (window : list R),
    numpy.argmax (map Rabs sample_window) = Some peak_idx
    /\ WavLoader.trim 44100 sample_window = Return window
    /\ INR (length window) / IZR 44100 <= 0.15.
Proof.
  destruct (trim_window 44100 sample_window) as (i & w & Ha & Ht & H);
    [lia | discriminate |].
  exists i, w. split; [exact Ha |]. split; [exact Ht |]. apply H.
Defined.

Lemma in_take_drop {A} (l : list A) (n k : nat) (v : A) :
  In v (take n (drop k l)) -> In v l.
Proof.
  intros Hv. rewrite <- (firstn_skipn k l). apply in_or_app. right.
  rewrite <- (firstn_skipn n (drop k l)). apply in_or_app. left. exact Hv.
Qed.

(** X2.  At a sample rate of 7 Hz or more the window contains the loudest
    sample of the recording, at most 2 ms after its start; hence the peak
    level [np.max(np.abs(self.data))] seen by [perform_auto_fit] is that of
    the whole recording. *)
Theorem trim_keeps_peak (sr : Z) (data : list R) :
  (7 <= sr)%Z -> data <> [] ->
  exists (peak_idx : nat) (window : list R),
    numpy.argmax (map Rabs data) = Some peak_idx
    /\ WavLoader.trim sr data = Return window
    /\ let offset := Nat.min peak_idx (Z.to_nat (Zfloor (0.002 * IZR sr))) in
       (offset < length window)%nat
       /\ nth offset window 0 = nth peak_idx data 0
       /\ INR offset / IZR sr <= 0.002
       /\ Forall (fun v => Rabs v <= Rabs (nth peak_idx data 0)) window
       /\ np.max (map Rabs window) = np.max (map Rabs data).
Proof.
  intros H7 Hne. assert (Hsr : (0 < sr)%Z) by lia.
  destruct (argmax_some (map Rabs data)) as [peak_idx Harg].
  { destruct data; [congruence | discriminate]. }
  destruct (argmax_abs_max _ _ Harg) as (Hlt & Hall & Hmax).
  pose proof (pre_roll_lt_window_len sr H7) as Hpw.
  pose proof (pre_roll_seconds sr Hsr) as Hps.
  pose proof (trim_eq sr data Hsr peak_idx Harg) as Htrim.
  cbv zeta in Hpw, Hps, Htrim.
  set (pre_roll := Z.to_nat (Zfloor (0.002 * IZR sr))) in *.
  set (window_len := Z.to_nat (Zfloor (0.15 * IZR sr))) in *.
  set (start_idx := (peak_idx - pre_roll)%nat) in *.
  exists peak_idx, (take window_len (drop start_idx data)).
  split; [exact Harg |]. split; [exact Htrim |].
  intros offset.
  assert (HR : 0 < IZR sr) by (apply IZR_lt; exact Hsr).
  assert (Hoff : (start_idx + offset = peak_idx)%nat)
    by (unfold start_idx, offset; lia).
  assert (Hin : (offset < length (take window_len (drop start_idx data)))%nat).
  { rewrite length_take, length_drop. unfold offset. lia. }
  assert (Hnth : nth offset (take window_len (drop start_idx data)) 0
                 = nth peak_idx data 0).
  { rewrite nth_firstn.
    destruct (Nat.ltb_spec offset window_len); [| unfold offset in *; lia].
    rewrite nth_skipn, Hoff. reflexivity. }
  assert (Hsub : forall v, In v (take window_len (drop start_idx data)) -> In v data).
  { intros v. apply in_take_drop. }
  assert (Hwall : Forall (fun v => Rabs v <= Rabs (nth peak_idx data 0))
                    (take window_len (drop start_idx data))).
  { rewrite Forall_forall in *. intros v Hv. apply Hall, Hsub, Hv. }
  split; [exact Hin |]. split; [exact Hnth |]. split; [| split; [exact Hwall |]].
  - apply div_le_bound; [lra |].
    apply Rle_trans with (INR pre_roll); [apply le_INR; unfold offset; lia | exact Hps].
  - rewrite Hmax. apply np_max_unique.
    + rewrite Forall_map. exact Hwall.
    + rewrite <- Hnth. apply in_map, nth_In, Hin.
Qed.

Lemma trim_keeps_peak_witness :
  exists (window : list R),
    WavLoader.trim 44100 sample_window = Return window
    /\ np.max (map Rabs window) = np.max (map Rabs sample_window).
Proof.
  destruct (trim_keeps_peak 44100 sample_window) as (i & w & _ & Ht & H);
    [lia | discriminate |].
  exists w. split; [exact Ht |]. apply H.
Defined.

(** *** Normalisation and the mono mix *)

Lemma sum_bounds (lo hi : R) (row : list R) :
  Forall (fun v => lo <= v < hi) row ->
  INR (length row) * lo <= np.sum row
  /\ (row <> [] -> np.sum row < INR (length row) * hi).
Proof.
  induction 1 as [| v row [Hlo Hhi] Hall [IHlo IHhi]].
  - cbn. split; [lra | congruence].
  - change (np.sum (v :: row)) with (v + np.sum row).
    change (length (v :: row)) with (S (length row)). rewrite S_INR.
    split; [lra |]. intros _.
    destruct row as [| w row'].
    + cbn. lra.
    + assert (np.sum (w :: row') < INR (length (w :: row')) * hi)
        by (apply IHhi; discriminate).
      lra.
Qed.

Lemma mean_bounds (lo hi : R) (row : list R) :
  row <> [] -> Forall (fun v => lo <= v < hi) row ->
  lo <= numpy.mean row < hi.
Proof.
  intros Hne Hall. destruct (sum_bounds lo hi row Hall) as [Hlo Hhi].
  specialize (Hhi Hne).
  assert (Hn : 0 < INR (length row)).
  { apply lt_0_INR. destruct row; [congruence | cbn; lia]. }
  unfold numpy.mean. split.
  - apply Rmult_le_reg_r with (INR (length row)); [exact Hn |].
    unfold Rdiv. rewrite Rmult_assoc, Rinv_l by lra. lra.
  - apply Rmult_lt_reg_r with (INR (length row)); [exact Hn |].
    unfold Rdiv. rewrite Rmult_assoc, Rinv_l by lra. lra.
Qed.

Lemma normalize_unit (dt : WavLoader.dtype) (m v : R) :
  (dt = WavLoader.int16 /\ m = 32768) \/ (dt = WavLoader.int32 /\ m = 2147483648) ->
  - m <= v < m -> -1 <= WavLoader.normalize dt v < 1.
Proof.
  intros [[-> ->] | [-> ->]] Hv; cbn [WavLoader.normalize]; lra.
Qed.

(** X3.  16-bit and 32-bit integer recordings are scaled into the
    half-open range from -1 to 1, and the mono mix of a recording with
    several channels stays inside it; the number of frames is kept. *)
Theorem to_mono_unit_range (a : WavLoader.ndarray) (m : R) :
  match a with
  | WavLoader.Array1 dt x =>
      ((dt = WavLoader.int16 /\ m = 32768)
       \/ (dt = WavLoader.int32 /\ m = 2147483648))
      /\ Forall (fun v => - m <= v < m) x
  | WavLoader.Array2 dt rows =>
      ((dt = WavLoader.int16 /\ m = 32768)
       \/ (dt = WavLoader.int32 /\ m = 2147483648))
      /\ Forall (fun row => row <> [] /\ Forall (fun v => - m <= v < m) row) rows
  end ->
  Forall (fun y => -1 <= y < 1) (WavLoader.to_mono a)
  /\ length (WavLoader.to_mono a)
     = match a with
       | WavLoader.Array1 _ x => length x
       | WavLoader.Array2 _ rows => length rows
       end.
Proof.
  destruct a as [dt x | dt rows]; intros [Hdt Hall]; cbn [WavLoader.to_mono];
    (split; [| apply length_map]).
  - rewrite Forall_map. eapply Forall_impl; [| exact Hall].
    intros v Hv. apply (normalize_unit dt m); assumption.
  - rewrite Forall_map. eapply Forall_impl; [| exact Hall].
    intros row [Hne Hrow]. apply mean_bounds.
    + destruct row; [congruence | discriminate].
    + rewrite Forall_map. eapply Forall_impl; [| exact Hrow].
      intros v Hv. apply (normalize_unit dt m); assumption.
Qed.

Lemma to_mono_unit_range_witness :
  Forall (fun y => -1 <= y < 1)
    (WavLoader.to_mono
       (WavLoader.Array2 WavLoader.int16 [[16384; -32768]; [32767; 32767]])).
Proof.
  apply (to_mono_unit_range
           (WavLoader.Array2 WavLoader.int16 [[16384; -32768]; [32767; 32767]])
           32768).
  split; [left; split; reflexivity |].
  repeat constructor; try discriminate; lra.
Defined.

(** *** The time axis *)

Lemma linspace_nth (start stop : R) (num k : nat) :
  (k < num)%nat ->
  nth k (np.linspace start stop num) 0
  = start + INR k * ((stop - start) / (INR num - 1)).
Proof.
  intros Hk. unfold np.linspace.
  set (f := fun i : nat => start + INR i * ((stop - start) / (INR num - 1))).
  rewrite (nth_indep _ 0 (f O)) by (rewrite length_map, length_seq; exact Hk).
  rewrite (map_nth f), seq_nth by exact Hk. reflexivity.
Qed.

Lemma linspace_length (start stop : R) (num : nat) :
  length (np.linspace start stop num) = num.
Proof. unfold np.linspace. now rewrite length_map, length_seq. Qed.

(** X4.  The time axis that [load_wav] attaches to a window of [n >= 2]
    samples runs from 0 to [n / sample_rate] inclusive, so sample [k] is
    stamped [k / sample_rate * n / (n - 1)]: every sample after the first
    is stamped later than [k / sample_rate], the time at which it was
    taken. *)
Theorem time_axis_stretched (self : PiezoAutoFitter.t) (sr : Z) (d : list R) :
  (0 < sr)%Z -> (2 <= length d)%nat ->
  let n := length d in
  exists tm : list R,
    PiezoAutoFitter.time (PiezoAutoFitter.set_window self sr d) = Some tm
    /\ length tm = n
    /\ nth 0 tm 0 = 0
    /\ nth (n - 1) tm 0 = INR n / IZR sr
    /\ forall k, (k < n)%nat ->
         nth k tm 0 = INR k / IZR sr * (INR n / (INR n - 1))
         /\ ((0 < k)%nat -> INR k / IZR sr < nth k tm 0).
Proof.
  intros Hsr Hlen n. eexists. split; [reflexivity |].
  assert (HR : 0 < IZR sr) by (apply IZR_lt; exact Hsr).
  assert (Hn : 2 <= INR n) by (apply (le_INR 2); exact Hlen).
  assert (Hk : forall k, (k < n)%nat ->
            nth k (np.linspace 0 (INR n / IZR sr) n) 0
            = INR k / IZR sr * (INR n / (INR n - 1))).
  { intros k Hlt. rewrite linspace_nth by exact Hlt. field. lra. }
  split; [apply linspace_length |]. split; [| split].
  - rewrite Hk by lia. cbn [INR]. unfold Rdiv. ring.
  - rewrite Hk by lia. rewrite minus_INR by lia. cbn [INR]. field. lra.
  - intros k Hlt. split; [apply Hk, Hlt |]. intros Hpos.
    rewrite Hk by exact Hlt.
    assert (Hkr : 0 < INR k / IZR sr).
    { apply Rdiv_lt_0_compat; [apply lt_0_INR; exact Hpos | exact HR]. }
    assert (Hq : 1 < INR n / (INR n - 1)).
    { apply Rmult_lt_reg_r with (INR n - 1); [lra |].
      unfold Rdiv. rewrite Rmult_assoc, Rinv_l by lra. lra. }
    nra.
Qed.

Lemma time_axis_stretched_witness :
  exists tm : list R,
    PiezoAutoFitter.time
      (PiezoAutoFitter.set_window PiezoAutoFitter.init 44100 sample_window)
    = Some tm
    /\ nth 7 tm 0 = 8 / 44100.
Proof.
  destruct (time_axis_stretched PiezoAutoFitter.init 44100 sample_window)
    as (tm & Ht & _ & _ & Hlast & _); [lia | simpl; lia |].
  exists tm. split; [exact Ht |].
  change (length sample_window - 1)%nat with 7%nat in Hlast.
  rewrite Hlast. change (length sample_window) with 8%nat. simpl. lra.
Defined.

(** ** [perform_auto_fit]: which inputs make it raise *)

Lemma spectrum_mag_short (d : list R) :
  (length d < 2)%nat -> PiezoAutoFitter.spectrum_mag d = [].
Proof.
  intros H. pose proof (spectrum_mag_length d) as L.
  assert (E : (length d / 2 = 0)%nat) by (apply Nat.div_small; exact H).
  rewrite E in L. destruct (PiezoAutoFitter.spectrum_mag d); [reflexivity | discriminate L].
Qed.

Lemma perform_auto_fit_returns (curve_fit : curve_fit_t) (self : PiezoAutoFitter.t)
    (d : list R) :
  PiezoAutoFitter.data self = Some d -> (2 <= length d)%nat ->
  PiezoAutoFitter.sample_rate self <> 0%Z ->
  exists out p,
    PiezoAutoFitter.perform_auto_fit curve_fit self
    = (out, Return (PiezoAutoFitter.with_params self p))
    /\ p !! "scale" = PiezoAutoFitter.params self !! "scale".
Proof.
  intros Hd Hlen Hsr. rewrite (perform_auto_fit_eq curve_fit self d Hd Hlen Hsr).
  pose proof (try_fit_scale curve_fit self d
                (PiezoAutoFitter.start_vector d (PiezoAutoFitter.sample_rate self)))
    as Hscale.
  destruct (PiezoAutoFitter.try_fit _ _ _ _) as [p [e |]]; cbn [fst] in Hscale.
  - eexists _, _. split; [reflexivity |].
    rewrite !lookup_insert_ne by discriminate. exact Hscale.
  - eexists _, _. split; [reflexivity | exact Hscale].
Qed.

Lemma perform_auto_fit_single (curve_fit : curve_fit_t) (self : PiezoAutoFitter.t)
    (d : list R) :
  PiezoAutoFitter.data self = Some d -> length d = 1%nat ->
  PiezoAutoFitter.sample_rate self <> 0%Z ->
  exists msg,
    PiezoAutoFitter.perform_auto_fit curve_fit self
    = (["Analyzing signal spectrum..."], Raise (ValueError msg)).
Proof.
  intros Hd Hlen Hsr.
  unfold PiezoAutoFitter.perform_auto_fit. rewrite Hd, Hlen. cbn [Nat.eqb].
  destruct (Z.eqb_spec (PiezoAutoFitter.sample_rate self) 0); [contradiction |].
  rewrite spectrum_mag_short by lia. cbn [np.max]. eauto.
Qed.

(** X5.  [perform_auto_fit] raises in exactly four situations, after its
    first line of output: a [TypeError] when no recording is loaded, a
    [ValueError] for an empty window, a [ZeroDivisionError] for a sample
    rate of zero, and a [ValueError] for a window of a single sample, whose
    half spectrum is empty.  With two samples or more and a sample rate
    other than zero it returns, and only the parameter dictionary can have
    changed. *)
Theorem perform_auto_fit_outcome (curve_fit : curve_fit_t) (self : PiezoAutoFitter.t) :
  let run := PiezoAutoFitter.perform_auto_fit curve_fit self in
  let raises (e : exn) := run = (["Analyzing signal spectrum..."], Raise e) in
  match PiezoAutoFitter.data self with
  | None => exists msg, raises (TypeError msg)
  | Some d =>
      match length d with
      | O => exists msg, raises (ValueError msg)
      | S n =>
          if (PiezoAutoFitter.sample_rate self =? 0)%Z
          then exists msg, raises (ZeroDivisionError msg)
          else
            match n with
            | O => exists msg, raises (ValueError msg)
            | S _ =>
                exists out p,
                  run = (out, Return (PiezoAutoFitter.with_params self p))
            end
      end
  end.
Proof.
  intros run raises. unfold raises, run.
  destruct (PiezoAutoFitter.data self) as [d |] eqn:Hd.
  2:{ unfold PiezoAutoFitter.perform_auto_fit. rewrite Hd. eauto. }
  destruct (length d) as [| n] eqn:Hlen.
  { unfold PiezoAutoFitter.perform_auto_fit. rewrite Hd, Hlen. cbn. eauto. }
  destruct (Z.eqb_spec (PiezoAutoFitter.sample_rate self) 0) as [Hsr | Hsr].
  { unfold PiezoAutoFitter.perform_auto_fit. rewrite Hd, Hlen.
    cbn [Nat.eqb]. rewrite Hsr. cbn. eauto. }
  destruct n as [| n].
  - apply (perform_auto_fit_single curve_fit self d Hd Hlen Hsr).
  - destruct (perform_auto_fit_returns curve_fit self d Hd) as (out & p & Hrun & _);
      [lia | exact Hsr |].
    eauto.
Qed.

(** ** [update_sliders_from_params] *)

Lemma on_slider_change_same (self : PiezoAutoFitter.t) (key : string) (v : R) :
  PiezoAutoFitter.params self !! key = Some v ->
  PiezoAutoFitter.on_slider_change self key v = self.
Proof.
  destruct self as [sr d tm fp p]. cbn. intros H.
  unfold PiezoAutoFitter.on_slider_change. cbn. f_equal. apply insert_id, H.
Qed.

Lemma refresh_keys_id (keys : list string) (self : PiezoAutoFitter.t) :
  fold_left
    (fun self key =>
       match PiezoAutoFitter.params self !! key with
       | Some v => PiezoAutoFitter.on_slider_change self key v
       | None => self
       end)
    keys self
  = self.
Proof.
  induction keys as [| key keys IH]; [reflexivity |].
  cbn [fold_left].
  destruct (PiezoAutoFitter.params self !! key) as [v |] eqn:E; [| exact IH].
  rewrite on_slider_change_same by exact E. exact IH.
Qed.

(** X6.  Refreshing the sliders after a fit writes every parameter back
    through [on_slider_change] with the value it already has: the object
    is left as it was, whatever the ranges of the sliders. *)
Theorem update_sliders_keeps_state (self : PiezoAutoFitter.t) :
  WavLoader.update_sliders_from_params self = self
  /\ PiezoAutoFitter.update_plot (WavLoader.update_sliders_from_params self)
     = PiezoAutoFitter.update_plot self.
Proof.
  assert (H : WavLoader.update_sliders_from_params self = self).
  { unfold WavLoader.update_sliders_from_params.
    apply (refresh_keys_id WavLoader.slider_keys). }
  split; [exact H |]. rewrite H. reflexivity.
Qed.

(** ** [load_wav] as a whole *)

Lemma trim_length_two (sr : Z) (data : list R) (peak_idx : nat) :
  (500 <= sr)%Z -> (2 <= length data)%nat ->
  numpy.argmax (map Rabs data) = Some peak_idx ->
  exists window,
    WavLoader.trim sr data = Return window /\ (2 <= length window)%nat.
Proof.
  intros Hsr Hlen Harg. assert (Hpos : (0 < sr)%Z) by lia.
  pose proof (trim_eq sr data Hpos peak_idx Harg) as Htrim. cbv zeta in Htrim.
  destruct (argmax_spec _ _ Harg) as (Hlt & _). rewrite length_map in Hlt.
  assert (HR : 500 <= IZR sr) by (apply IZR_le; exact Hsr).
  assert (Hpre : (1 <= Zfloor (0.002 * IZR sr))%Z) by (apply Zfloor_lub; lra).
  assert (Hwl : (2 <= Zfloor (0.15 * IZR sr))%Z) by (apply Zfloor_lub; lra).
  eexists. split; [exact Htrim |].
  rewrite length_take, length_drop. lia.
Qed.

Lemma trim_single (sr : Z) (x : R) :
  (500 <= sr)%Z -> WavLoader.trim sr [x] = Return [x].
Proof.
  intros Hsr. assert (Hpos : (0 < sr)%Z) by lia.
  rewrite (trim_eq sr [x] Hpos 0 eq_refl). f_equal.
  assert (HR : 500 <= IZR sr) by (apply IZR_le; exact Hsr).
  assert (Hwl : (2 <= Zfloor (0.15 * IZR sr))%Z) by (apply Zfloor_lub; lra).
  destruct (Z.to_nat (Zfloor (0.15 * IZR sr))) as [| n] eqn:E; [lia |].
  rewrite Nat.sub_0_l. destruct n; reflexivity.
Qed.

(** X7.  With a sample rate of 500 Hz or more, [load_wav] completes for
    every readable recording of at least two frames, whatever the optimiser
    does: the object then holds the path, the rate, the trimmed window of at
    least two samples with its time axis, and the scale entry it had
    before.  A recording of fewer than two frames makes it raise a
    [ValueError]. *)
Theorem load_wav_outcome (read : string -> result (Z * WavLoader.ndarray))
    (curve_fit : curve_fit_t) (file_path : string) (self : PiezoAutoFitter.t)
    (sr : Z) (raw : WavLoader.ndarray) :
  file_path <> "" -> read file_path = Return (sr, raw) -> (500 <= sr)%Z ->
  let mono := WavLoader.to_mono raw in
  let run := WavLoader.load_wav read curve_fit file_path self in
  if (2 <=? length mono)%nat then
    exists out p window,
      WavLoader.trim sr mono = Return window
      /\ (2 <= length window)%nat
      /\ run = (out,
                Return (PiezoAutoFitter.mk sr (Some window)
                          (Some (np.linspace 0 (INR (length window) / IZR sr)
                                   (length window)))
                          file_path p))
      /\ p !! "scale" = PiezoAutoFitter.params self !! "scale"
  else exists out msg, run = (out, Raise (ValueError msg)).
Proof.
  intros Hpath Hread Hsr mono run. unfold run, WavLoader.load_wav.
  destruct (String.eqb_spec file_path "") as [E | _]; [contradiction |].
  rewrite Hread. fold mono.
  destruct (Z.eqb_spec sr 0) as [E | Hsr0]; [lia |].
  destruct (Nat.leb_spec 2 (length mono)) as [Hlen | Hlen].
  - destruct (argmax_some (map Rabs mono)) as [peak_idx Harg].
    { destruct mono; [cbn in Hlen; lia | discriminate]. }
    destruct (trim_length_two sr mono peak_idx Hsr Hlen Harg) as (window & Htrim & Hw).
    rewrite Htrim.
    set (self1 := PiezoAutoFitter.set_window _ sr window).
    destruct (perform_auto_fit_returns curve_fit self1 window eq_refl Hw Hsr0)
      as (out & p & Hrun & Hscale).
    rewrite Hrun. unfold WavLoader.update_sliders_from_params.
    rewrite refresh_keys_id.
    exists out, p, window. repeat split; auto.
  - destruct mono as [| x [| y mono']]; [| | cbn in Hlen; lia].
    + cbn. eauto.
    + rewrite trim_single by exact Hsr.
      set (self1 := PiezoAutoFitter.set_window _ sr [x]).
      destruct (perform_auto_fit_single curve_fit self1 [x] eq_refl eq_refl Hsr0)
        as (msg & Hrun).
      rewrite Hrun. eauto.
Qed.

Lemma load_wav_outcome_witness :
  exists out p window,
    WavLoader.load_wav sample_read budget_exhausted "tap.wav" PiezoAutoFitter.init
    = (out,
       Return (PiezoAutoFitter.mk 44100 (Some window)
                 (Some (np.linspace 0 (INR (length window) / IZR 44100)
                          (length window)))
                 "tap.wav" p))
    /\ p !! "scale" = Some 1.0.
Proof.
  pose proof (load_wav_outcome sample_read budget_exhausted "tap.wav"
                PiezoAutoFitter.init 44100 sample_recording) as H.
  cbv zeta in H.
  change (2 <=? length (WavLoader.to_mono sample_recording))%nat with true in H.
  destruct H as (out & p & window & _ & _ & Hrun & Hscale);
    [discriminate | reflexivity | lia |].
  exists out, p, window. split; [exact Hrun |].
  rewrite Hscale. apply init_scale.
Defined.

(** ** The guessed frequencies *)

Lemma local_max_inside (x : list R) (m : nat) :
  Peak.local_max x m -> (1 <= m)%nat /\ (m + 1 < length x)%nat.
Proof.
  intros (l & r & (Hlr & Hr & _) & ->).
  assert (l <= (l + r) / 2)%nat by (apply Nat.div_le_lower_bound; lia).
  assert ((l + r) / 2 <= r)%nat by (apply Nat.Div0.div_le_upper_bound; lia).
  lia.
Qed.

Lemma sorted_peak_inside (mag : list R) (mag_max : R) (p : nat) :
  In p (PiezoAutoFitter.sorted_peak_indices mag mag_max) ->
  (1 <= p)%nat /\ (p + 1 < length mag)%nat.
Proof.
  intros Hp. destruct (sorted_peak_indices_spec mag mag_max) as [Hperm _].
  apply (Permutation_in _ (Permutation_sym Hperm)) in Hp.
  destruct (find_peaks_spec mag (mag_max * 0.1) 50) as (_ & Hsound & _).
  apply local_max_inside. apply Hsound, Hp.
Qed.

Lemma guess_cases (d : list R) (sr : Z) :
  sr <> 0%Z ->
  let N := length d in
  let bin (f : R) :=
    exists k, (1 <= k)%nat /\ (k + 1 < N / 2)%nat /\ f = INR k * IZR sr / INR N in
  let gf := PiezoAutoFitter.guessed_frequencies d sr in
  (fst gf = 100.0 \/ bin (fst gf)) /\ (snd gf = fst gf * 2 \/ bin (snd gf)).
Proof.
  intros Hsr N bin gf. unfold gf, PiezoAutoFitter.guessed_frequencies.
  cbv zeta. cbn [fst snd].
  set (mag := PiezoAutoFitter.spectrum_mag d).
  set (sorted := PiezoAutoFitter.sorted_peak_indices mag (default 0 (np.max mag))).
  assert (Hbin : forall p, In p sorted ->
            bin (np.getitem (PiezoAutoFitter.spectrum_freqs d sr) p)).
  { intros p Hp. apply sorted_peak_inside in Hp.
    unfold mag in Hp. rewrite spectrum_mag_length in Hp. fold N in Hp.
    destruct Hp as [Hp1 Hp2]. exists p. split; [lia |]. split; [lia |].
    apply spectrum_freqs_nth; [fold N; lia | exact Hsr]. }
  unfold PiezoAutoFitter.guess_f2, PiezoAutoFitter.guess_f1.
  destruct sorted as [| p0 [| p1 rest]]; cbn [length Nat.ltb Nat.leb nth].
  - split; left; reflexivity.
  - split; [right; apply Hbin; left; reflexivity | left; reflexivity].
  - split; right; apply Hbin; [left | right; left]; reflexivity.
Qed.

Lemma sorted_peaks_apart (mag : list R) (mag_max : R) (p q : nat) (rest : list nat) :
  PiezoAutoFitter.sorted_peak_indices mag mag_max = p :: q :: rest ->
  (50 <= Peak.gap p q)%nat.
Proof.
  intros E. destruct (sorted_peak_indices_spec mag mag_max) as [Hperm _].
  cbv zeta in Hperm. rewrite E in Hperm.
  destruct (find_peaks_spec mag (mag_max * 0.1) 50) as (Hinc & _ & Hsep & _).
  assert (Hnd : NoDup (p :: q :: rest)).
  { apply (Permutation_NoDup Hperm).
    apply StronglySorted_Sorted in Hinc. clear - Hinc.
    induction Hinc as [| a l Hs IH Hhd]; constructor; [| exact IH].
    intros Hin. apply Sorted_StronglySorted in Hs; [| intros x y z; lia].
    destruct l as [| b l]; [contradiction |].
    inversion Hhd as [| ? ? Hab]; subst.
    inversion Hs as [| ? ? _ Hall]; subst.
    destruct Hin as [-> | Hin]; [lia |].
    rewrite Forall_forall in Hall. specialize (Hall a Hin). lia. }
  apply Hsep.
  - apply (Permutation_in _ (Permutation_sym Hperm)). left. reflexivity.
  - apply (Permutation_in _ (Permutation_sym Hperm)). right. left. reflexivity.
  - inversion Hnd as [| ? ? Hnot _]; subst. intros ->. apply Hnot. left. reflexivity.
Qed.

Lemma guess_second_is_double (d : list R) (sr : Z) :
  (length d < 106)%nat ->
  let gf := PiezoAutoFitter.guessed_frequencies d sr in
  snd gf = fst gf * 2.
Proof.
  intros Hshort. unfold PiezoAutoFitter.guessed_frequencies. cbv zeta. cbn [fst snd].
  set (mag := PiezoAutoFitter.spectrum_mag d).
  set (mx := default 0 (np.max mag)).
  destruct (PiezoAutoFitter.sorted_peak_indices mag mx) as [| p [| q rest]] eqn:E;
    try reflexivity.
  exfalso.
  pose proof (sorted_peaks_apart mag mx p q rest E) as Hgap.
  assert (Hp : In p (PiezoAutoFitter.sorted_peak_indices mag mx))
    by (rewrite E; left; reflexivity).
  assert (Hq : In q (PiezoAutoFitter.sorted_peak_indices mag mx))
    by (rewrite E; right; left; reflexivity).
  apply sorted_peak_inside in Hp, Hq.
  unfold mag in Hp, Hq. rewrite spectrum_mag_length in Hp, Hq.
  assert (length d / 2 < 53)%nat by (apply Nat.Div0.div_lt_upper_bound; lia).
  unfold Peak.gap in Hgap. lia.
Qed.

(** X8.  For a window of at least two samples, for which
    [perform_auto_fit] reaches its guesses: the maximum of the half
    spectrum exists and the guesses are taken from the peaks above a tenth
    of it.  A guessed frequency that comes from the spectrum is the centre
    frequency [k * sample_rate / N] of a bin strictly between the first
    bin and the last bin of the half spectrum, so it is never 0 Hz.  A
    window of fewer than 106 samples has room for one peak only, so its
    second guess is twice the first; a window of fewer than six samples
    has no peak and gets the defaults 100 Hz and 200 Hz. *)
Theorem guessed_frequencies_are_bins (d : list R) (sr : Z) :
  (2 <= length d)%nat -> sr <> 0%Z ->
  let N := length d in
  let bin (f : R) :=
    exists k, (1 <= k)%nat /\ (k + 1 < N / 2)%nat /\ f = INR k * IZR sr / INR N in
  let mag := PiezoAutoFitter.spectrum_mag d in
  let freqs := PiezoAutoFitter.spectrum_freqs d sr in
  let gf := PiezoAutoFitter.guessed_frequencies d sr in
  (exists mag_max : R,
     np.max mag = Some mag_max
     /\ gf = (PiezoAutoFitter.guess_f1 freqs
                (PiezoAutoFitter.sorted_peak_indices mag mag_max),
              PiezoAutoFitter.guess_f2 freqs
                (PiezoAutoFitter.sorted_peak_indices mag mag_max)))
  /\ (fst gf = 100.0 \/ bin (fst gf))
  /\ (snd gf = fst gf * 2 \/ bin (snd gf))
  /\ ((N < 106)%nat -> snd gf = fst gf * 2)
  /\ ((N < 6)%nat -> gf = (100.0, 100.0 * 2)).
Proof.
  intros Hlen Hsr N bin mag freqs gf.
  destruct (guess_cases d sr Hsr) as [H1 H2]. fold N bin gf in H1, H2.
  split.
  { destruct (spectrum_mag_max d Hlen) as [mx Hmx]. exists mx.
    split; [exact Hmx |].
    unfold gf, mag, freqs, PiezoAutoFitter.guessed_frequencies. cbv zeta.
    rewrite Hmx. reflexivity. }
  split; [exact H1 |]. split; [exact H2 |].
  split; [apply guess_second_is_double |]. intros Hshort.
  assert (Hnobin : forall f, ~ bin f).
  { intros f (k & Hk1 & Hk2 & _).
    assert (N / 2 < 3)%nat by (apply Nat.Div0.div_lt_upper_bound; lia). lia. }
  destruct H1 as [E1 | B1]; [| destruct (Hnobin _ B1)].
  destruct H2 as [E2 | B2]; [| destruct (Hnobin _ B2)].
  rewrite (surjective_pairing gf), E2, E1. reflexivity.
Qed.

Lemma guessed_frequencies_are_bins_witness :
  PiezoAutoFitter.guessed_frequencies [0.5; 1; -0.5] 44100 = (100.0, 100.0 * 2).
Proof.
  apply (guessed_frequencies_are_bins [0.5; 1; -0.5] 44100);
    [simpl; lia | discriminate | simpl; lia].
Defined.

(** X9.  For a sample rate of at most 20 kHz and a window of at most one
    second, the start vector that [perform_auto_fit] hands to the optimiser
    lies within the bounds handed over with it. *)
Theorem start_vector_feasible (d : list R) (sr : Z) :
  (0 < sr <= 20000)%Z -> (2 <= length d)%nat -> (Z.of_nat (length d) <= sr)%Z ->
  Forall2 bound_le_l PiezoAutoFitter.lower_bounds (PiezoAutoFitter.start_vector d sr)
  /\ Forall2 bound_le_r (PiezoAutoFitter.start_vector d sr)
       PiezoAutoFitter.upper_bounds.
Proof.
  intros [Hsr0 Hsr1] Hlen Hsec.
  assert (Hsr : sr <> 0%Z) by lia.
  destruct (guess_cases d sr Hsr) as [H1 H2].
  unfold PiezoAutoFitter.start_vector, PiezoAutoFitter.initial_guess. cbv zeta.
  set (gf := PiezoAutoFitter.guessed_frequencies d sr) in *.
  set (N := length d) in *.
  assert (HN : 2 <= INR N) by (apply (le_INR 2); exact Hlen).
  assert (HR0 : 0 < IZR sr) by (apply IZR_lt; exact Hsr0).
  assert (HR1 : IZR sr <= 20000) by (apply IZR_le; exact Hsr1).
  assert (HNsr : INR N <= IZR sr) by (rewrite INR_IZR_INZ; apply IZR_le; exact Hsec).
  assert (Hbin : forall f,
            (exists k, (1 <= k)%nat /\ (k + 1 < N / 2)%nat
                       /\ f = INR k * IZR sr / INR N) ->
            1 <= f /\ 2 * f < IZR sr).
  { intros f (k & Hk1 & Hk2 & ->).
    assert (Hk : 1 <= INR k) by (apply (le_INR 1); exact Hk1).
    assert (H2k : 2 * INR k < INR N).
    { assert (2 * k < N)%nat.
      { pose proof (Nat.div_mod_eq N 2). lia. }
      apply lt_INR in H. rewrite mult_INR in H. cbn [INR] in H. lra. }
    split.
    - apply Rmult_le_reg_r with (INR N); [lra |].
      unfold Rdiv. rewrite Rmult_assoc, Rinv_l by lra. nra.
    - apply Rmult_lt_reg_r with (INR N); [lra |].
      unfold Rdiv. rewrite !Rmult_assoc, Rinv_l by lra. nra. }
  assert (Hf1 : 1 <= fst gf /\ fst gf <= 10000).
  { destruct H1 as [-> | B]; [lra |]. destruct (Hbin _ B). lra. }
  assert (Hf2 : 1 <= snd gf /\ snd gf <= 20000).
  { destruct H2 as [-> | B]; [lra |]. destruct (Hbin _ B). lra. }
  pose proof PI_RGT_0 as Hpi.
  unfold PiezoAutoFitter.lower_bounds, PiezoAutoFitter.upper_bounds.
  split;
    repeat (apply Forall2_cons;
            [cbn [bound_le_l bound_le_r]; first [exact I | lra] |]);
    apply Forall2_nil.
Qed.

Lemma start_vector_feasible_witness :
  Forall2 bound_le_l PiezoAutoFitter.lower_bounds
    (PiezoAutoFitter.start_vector sample_window 8000).
Proof.
  apply (start_vector_feasible sample_window 8000); [lia | simpl; lia | simpl; lia].
Defined.

(** ** From the fit to the preview *)

Lemma perform_auto_fit_success_object (curve_fit : curve_fit_t)
    (self self' : PiezoAutoFitter.t) (out : list string) :
  PiezoAutoFitter.perform_auto_fit curve_fit self = (out, Return self') ->
  In "Fit successful." out ->
  exists (d p0 : list R) (p : gmap string R),
    PiezoAutoFitter.data self = Some d
    /\ PiezoAutoFitter.try_fit curve_fit self d p0 = (p, None)
    /\ self' = PiezoAutoFitter.with_params self p.
Proof.
  unfold PiezoAutoFitter.perform_auto_fit. intros H Hin.
  destruct (PiezoAutoFitter.data self) as [d |] eqn:Hd; [| discriminate H].
  destruct (length d =? 0)%nat; [discriminate H |].
  destruct (PiezoAutoFitter.sample_rate self =? 0)%Z; [discriminate H |].
  destruct (np.max (PiezoAutoFitter.spectrum_mag d)) as [m |]; [| discriminate H].
  match type of H with context [PiezoAutoFitter.try_fit ?c ?s ?d ?p0] =>
    destruct (PiezoAutoFitter.try_fit c s d p0) as [p [e |]] eqn:Htry;
    [| exists d, p0, p ] end.
  - injection H as <- _. exfalso. exact (fallback_not_success e Hin).
  - injection H as _ <-. unfold PiezoAutoFitter.with_params. rewrite Hd. auto.
Qed.

(** X10.  After a fit that ended with "Fit successful.", the curve that
    [update_plot] draws is, at every point of the time axis, the scale
    entry times the optimiser's model function [dual_damped_sine] at the
    first eight numbers the optimiser returned. *)
Theorem fitted_curve_is_drawn (curve_fit : curve_fit_t)
    (self self' : PiezoAutoFitter.t) (out : list string) :
  PiezoAutoFitter.perform_auto_fit curve_fit self = (out, Return self') ->
  In "Fit successful." out ->
  exists (tm d p0 popt : list R),
    PiezoAutoFitter.time self' = Some tm
    /\ PiezoAutoFitter.data self' = Some d
    /\ curve_fit PiezoAutoFitter.dual_damped_sine tm d p0
         (PiezoAutoFitter.lower_bounds, PiezoAutoFitter.upper_bounds) 20000%Z
       = Return popt
    /\ (8 <= length popt)%nat
    /\ PiezoAutoFitter.update_plot self'
       = Some (map (fun t =>
                 (t, PiezoAutoFitter.params self !!! "scale"
                     * PiezoAutoFitter.dual_damped_sine t
                         (nth 0 popt 0) (nth 1 popt 0) (nth 2 popt 0) (nth 3 popt 0)
                         (nth 4 popt 0) (nth 5 popt 0) (nth 6 popt 0) (nth 7 popt 0)))
               tm).
Proof.
  intros Hrun Hin.
  destruct (perform_auto_fit_success_object _ _ _ _ Hrun Hin)
    as (d & p0 & p & Hd & Htry & ->).
  destruct (try_fit_none _ _ _ _ _ Htry)
    as (tm & popt & a1 & d1 & f1 & p1 & a2 & d2 & f2 & p2 & Ht & Hcf & E1 & E2 & Hp).
  exists tm, d, p0, popt. cbn [PiezoAutoFitter.with_params PiezoAutoFitter.time
                                PiezoAutoFitter.data].
  split; [exact Ht |]. split; [exact Hd |]. split; [exact Hcf |].
  destruct popt as [| x0 [| x1 [| x2 [| x3 rest]]]]; try discriminate E1.
  cbn in E1. injection E1 as -> -> -> ->.
  change (drop 4 (a1 :: d1 :: f1 :: p1 :: rest)) with rest in E2.
  destruct rest as [| x4 [| x5 [| x6 [| x7 rest']]]]; try discriminate E2.
  cbn in E2. injection E2 as -> -> -> ->.
  split; [cbn [length]; lia |].
  unfold PiezoAutoFitter.update_plot.
  cbn [PiezoAutoFitter.with_params PiezoAutoFitter.time PiezoAutoFitter.data
       PiezoAutoFitter.params].
  rewrite Hd, Ht. f_equal. apply map_ext. intros t. f_equal.
  rewrite total_signal_scale. subst p. cbn [nth]. dict. reflexivity.
Qed.

Lemma fitted_curve_is_drawn_witness :
  exists (tm : list R) (self' : PiezoAutoFitter.t),
    PiezoAutoFitter.perform_auto_fit converging sample_fitter
      = (PiezoAutoFitter.out_success, Return self')
    /\ PiezoAutoFitter.update_plot self'
       = Some (map (fun t =>
                 (t, PiezoAutoFitter.params sample_fitter !!! "scale"
                     * PiezoAutoFitter.dual_damped_sine t
                         0.9 35 5512.5 0.25 (-0.2) 80 11025 (-1)))
               tm).
Proof.
  destruct (fitted_curve_is_drawn converging sample_fitter _ _ converging_run)
    as (tm & d & p0 & popt & _ & _ & Hcf & _ & Hplot).
  { right. right. left. reflexivity. }
  injection Hcf as <-.
  exists tm. eexists. split; [exact converging_run | exact Hplot].
Defined.

(** ** [ResistanceCalculator.calculate] *)

(** X11.  The two labels are set together: both show "Invalid input"
    exactly when [Vh = Vl] or [Vcc = Vh], even if only one of the two
    divisions fails; otherwise they show [Rx * Vl / (Vh - Vl)] and
    [Rx * Vl / (Vcc - Vh)] with two decimals, each within 0.005 of the
    exact value.  No exception reaches the caller. *)
Theorem calculate_labels (rx vcc vh vl : R) :
  (vh = vl \/ vcc = vh ->
     ResistanceCalculator.calculate rx vcc vh vl
     = Return ("Rh: Invalid input"%string, "Ry: Invalid input"%string))
  /\ (vh <> vl -> vcc <> vh ->
      exists dh dy : Fmt.fixed,
        ResistanceCalculator.calculate rx vcc vh vl
        = Return (("Rh: " ++ Fmt.fixed_str dh ++ " Ω")%string,
                  ("Ry: " ++ Fmt.fixed_str dy ++ " Ω")%string)
        /\ Fmt.f_prec dh = 2%nat /\ Fmt.f_prec dy = 2%nat
        /\ Rabs (Fmt.fixed_val dh - rx * (vl / (vh - vl))) <= 0.005
        /\ Rabs (Fmt.fixed_val dy - rx * (vl / (vcc - vh))) <= 0.005).
Proof.
  unfold ResistanceCalculator.calculate, ResistanceCalculator.calculate_body,
    ResistanceCalculator.truediv.
  split.
  - intros [E | E].
    + destruct (Req_dec_T (vh - vl) 0) as [_ | Hne]; [reflexivity | lra].
    + destruct (Req_dec_T (vh - vl) 0) as [_ | _]; [reflexivity |].
      destruct (Req_dec_T (vcc - vh) 0) as [_ | Hne]; [reflexivity | lra].
  - intros H1 H2.
    destruct (Req_dec_T (vh - vl) 0) as [E | _]; [lra |].
    destruct (Req_dec_T (vcc - vh) 0) as [E | _]; [lra |].
    exists (Fmt.to_fixed 2 (rx * (vl / (vh - vl)))),
           (Fmt.to_fixed 2 (rx * (vl / (vcc - vh)))).
    split; [reflexivity |]. split; [reflexivity |]. split; [reflexivity |].
    split.
    + eapply Rle_trans; [apply to_fixed_error | simpl; lra].
    + eapply Rle_trans; [apply to_fixed_error | simpl; lra].
Qed.

Lemma calculate_labels_witness :
  ResistanceCalculator.calculate 1000 5 3.3 3.3
  = Return ("Rh: Invalid input"%string, "Ry: Invalid input"%string)
  /\ exists dh dy : Fmt.fixed,
       ResistanceCalculator.calculate 1000 5 3.3 1.7
       = Return (("Rh: " ++ Fmt.fixed_str dh ++ " Ω")%string,
                 ("Ry: " ++ Fmt.fixed_str dy ++ " Ω")%string)
       /\ Rabs (Fmt.fixed_val dh - 1000 * (1.7 / (3.3 - 1.7))) <= 0.005.
Proof.
  split.
  - apply (proj1 (calculate_labels 1000 5 3.3 3.3)). left. reflexivity.
  - destruct (proj2 (calculate_labels 1000 5 3.3 1.7)) as (dh & dy & H & _ & _ & E & _);
      [lra | lra |].
    exists dh, dy. split; [exact H | exact E].
Defined.

(** ** The plot of [PiezoGui] *)

Lemma builtin_max_fold_spec (l : list R) (x : R) :
  let m := fold_left (fun m y => if Rltb m y then y else m) l x in
  (x <= m /\ Forall (fun y => y <= m) l) /\ (m = x \/ In m l).
Proof.
  revert x. induction l as [| y l IH]; intros x; cbn [fold_left].
  - split; [split; [lra | constructor] | left; reflexivity].
  - destruct (Rltb x y) eqn:E.
    + apply Rltb_true in E. destruct (IH y) as [[H1 H2] H3].
      split; [split; [lra | constructor; assumption] |].
      right. destruct H3 as [-> | H3]; [left; reflexivity | right; exact H3].
    + apply Rltb_false in E. destruct (IH x) as [[H1 H2] H3].
      split; [split; [lra | constructor; [lra | assumption]] |].
      destruct H3 as [H3 | H3]; [left; exact H3 | right; right; exact H3].
Qed.

Lemma builtin_max_spec (l : list R) :
  match PiezoGuiPlot.builtin_max l with
  | Raise e => l = [] /\ exists msg, e = ValueError msg
  | Return m => Forall (fun y => y <= m) l /\ In m l
  end.
Proof.
  destruct l as [| x l]; cbn [PiezoGuiPlot.builtin_max].
  - split; [reflexivity | eauto].
  - destruct (builtin_max_fold_spec l x) as [[H1 H2] H3]. split.
    + constructor; assumption.
    + destruct H3 as [-> | H3]; [left; reflexivity | right; exact H3].
Qed.

Lemma fold_left_Rmin_spec (l : list R) (x : R) :
  let m := fold_left Rmin l x in
  (m <= x /\ Forall (fun y => m <= y) l) /\ (m = x \/ In m l).
Proof.
  revert x. induction l as [| y l IH]; intros x; cbn [fold_left].
  - split; [split; [lra | constructor] | left; reflexivity].
  - destruct (IH (Rmin x y)) as [[H1 H2] H3].
    pose proof (Rmin_l x y). pose proof (Rmin_r x y).
    split; [split; [lra | constructor; [lra | assumption]] |].
    destruct H3 as [H3 | H3]; [| right; right; exact H3].
    rewrite H3. unfold Rmin. destruct (Rle_dec x y); [left | right; left]; reflexivity.
Qed.

Lemma np_min_spec (l : list R) (m : R) :
  numpy.min l = Some m -> Forall (fun y => m <= y) l /\ In m l.
Proof.
  destruct l as [| x l]; [discriminate |]. cbn [numpy.min]. intros [= <-].
  destruct (fold_left_Rmin_spec l x) as [[H1 H2] H3]. split.
  - constructor; assumption.
  - destruct H3 as [-> | H3]; [left; reflexivity | right; exact H3].
Qed.

Lemma np_min_some (l : list R) : l <> [] -> exists m, numpy.min l = Some m.
Proof. destruct l; [congruence | eexists; reflexivity]. Qed.

Lemma plot_range_ylim (t response : list R) :
  t <> [] -> response <> [] ->
  exists (xlim : R * R) (y_lo y_hi : R),
    PiezoGuiPlot.calculate_plot_range t response = Return (xlim, (y_lo, y_hi))
    /\ Forall (fun v => y_lo < v < y_hi) response.
Proof.
  intros Ht Hr. unfold PiezoGuiPlot.calculate_plot_range.
  destruct (np_max_some t Ht) as [t_top ->].
  destruct (np_min_some response Hr) as [v_min Hmin].
  destruct (np_max_some response Hr) as [v_max Hmax].
  rewrite Hmin, Hmax. cbv zeta. eexists _, _, _. split; [reflexivity |].
  destruct (np_min_spec _ _ Hmin) as [Hlo _].
  destruct (np_max_spec _ _ Hmax) as [Hhi _].
  set (v_range := if Rltb (Rabs (v_max - v_min)) 1e-6 then 1e-6
                  else Rabs (v_max - v_min)).
  assert (Hpos : 0 < v_range).
  { unfold v_range. destruct (Rltb (Rabs (v_max - v_min)) 1e-6) eqn:E; [lra |].
    apply Rltb_false in E. lra. }
  rewrite Forall_forall in *. intros v Hv.
  specialize (Hlo v Hv). specialize (Hhi v Hv). cbv beta in Hlo, Hhi. lra.
Qed.

(** X12.  The limits that [calculate_plot_range] returns for a non-empty
    curve: every sample lies strictly inside the voltage limits, which
    are never closer together than 2e-7, also for a constant curve; the
    time limits are those of [0, 1000 * max t], which no point exceeds,
    widened by a tenth of that range on both sides.  For an empty array
    the call raises a [ValueError]. *)
Theorem plot_range_contains (t response : list R) :
  match PiezoGuiPlot.calculate_plot_range t response with
  | Raise e => (t = [] \/ response = []) /\ exists msg, e = ValueError msg
  | Return ((x_lo, x_hi), (y_lo, y_hi)) =>
      Forall (fun v => y_lo < v < y_hi) response
      /\ 2e-7 <= y_hi - y_lo
      /\ exists t_top,
           np.max t = Some t_top
           /\ x_lo = - (0.1 * (1000 * t_top))
           /\ x_hi = 1.1 * (1000 * t_top)
           /\ Forall (fun u => 1000 * u <= 1000 * t_top) t
  end.
Proof.
  unfold PiezoGuiPlot.calculate_plot_range.
  destruct (np.max t) as [t_top |] eqn:Ht.
  2:{ destruct t; [| discriminate Ht]. split; [left; reflexivity | eauto]. }
  destruct (numpy.min response) as [v_min |] eqn:Hmin.
  2:{ destruct response; [| discriminate Hmin]. split; [right; reflexivity | eauto]. }
  destruct (np.max response) as [v_max |] eqn:Hmax.
  2:{ destruct response; [discriminate Hmin | discriminate Hmax]. }
  destruct (np_max_spec _ _ Ht) as [Htall Htin].
  destruct (np_min_spec _ _ Hmin) as [Hlo Hloin].
  destruct (np_max_spec _ _ Hmax) as [Hhi Hhiin].
  cbv zeta.
  set (v_range := if Rltb (Rabs (v_max - v_min)) 1e-6 then 1e-6
                  else Rabs (v_max - v_min)).
  assert (Hle : v_min <= v_max).
  { rewrite Forall_forall in Hhi. apply Hhi, Hloin. }
  assert (Hr : 1e-6 <= v_range /\ v_max - v_min <= v_range).
  { unfold v_range. rewrite (Rabs_right (v_max - v_min)) by lra.
    destruct (Rltb (v_max - v_min) 1e-6) eqn:E;
      [apply Rltb_true in E | apply Rltb_false in E]; lra. }
  split; [| split].
  - rewrite Forall_forall in *. intros v Hv.
    specialize (Hlo v Hv). specialize (Hhi v Hv). cbv beta in Hlo, Hhi. lra.
  - lra.
  - exists t_top. split; [reflexivity |]. split; [lra |]. split; [lra |].
    rewrite Forall_forall in *. intros u Hu. specialize (Htall u Hu).
    cbv beta in Htall. lra.
Qed.

(** *** The combined curve *)

Lemma combined_fold (controls : list PiezoGui.SignalControls) (t acc : R) :
  fold_left
    (fun acc control =>
       if PiezoGui.is_visible control
       then acc + PiezoGui.calculate_signal control t else acc)
    controls acc
  = acc + np.sum (map (fun c => PiezoGui.calculate_signal c t)
                      (filter PiezoGui.is_visible controls)).
Proof.
  revert acc. induction controls as [| c controls IH]; intros acc;
    cbn [fold_left filter].
  - unfold np.sum. cbn. lra.
  - rewrite IH. unfold np.sum.
    destruct (PiezoGui.is_visible c); cbn [map fold_right]; lra.
Qed.

Lemma combined_sum (controls : list PiezoGui.SignalControls) (t : R) :
  PiezoGui.combined controls t
  = np.sum (map (fun c => PiezoGui.calculate_signal c t)
                (filter PiezoGui.is_visible controls)).
Proof. unfold PiezoGui.combined. rewrite combined_fold. lra. Qed.

Lemma filter_idem {A} (f : A -> bool) (l : list A) :
  filter f (filter f l) = filter f l.
Proof.
  induction l as [| a l IH]; [reflexivity |].
  cbn [filter]. destruct (f a) eqn:E; [| exact IH].
  cbn [filter]. rewrite E, IH. reflexivity.
Qed.

Lemma sum_app (l1 l2 : list R) : np.sum (l1 ++ l2) = np.sum l1 + np.sum l2.
Proof.
  unfold np.sum. induction l1 as [| x l1 IH]; cbn [app fold_right]; lra.
Qed.

(** X13.  The combined curve is the sum of the curves of the visible
    controls: a hidden control contributes nothing, and the curve of two
    lists of controls put together is the sum of their curves. *)
Theorem combined_sum_of_visible (controls more : list PiezoGui.SignalControls) (t : R) :
  PiezoGui.combined controls t
  = np.sum (map (fun c => PiezoGui.calculate_signal c t)
                (filter PiezoGui.is_visible controls))
  /\ PiezoGui.combined (filter PiezoGui.is_visible controls) t
     = PiezoGui.combined controls t
  /\ PiezoGui.combined (controls ++ more) t
     = PiezoGui.combined controls t + PiezoGui.combined more t.
Proof.
  split; [apply combined_sum |]. split.
  - rewrite !combined_sum, filter_idem. reflexivity.
  - rewrite !combined_sum, filter_app, map_app. apply sum_app.
Qed.

Lemma calculate_signal_before (c : PiezoGui.SignalControls) (t : R) :
  t <= PiezoGui.get_values c !!! "delay" / 1000 -> PiezoGui.calculate_signal c t = 0.
Proof.
  intros H. rewrite calculate_signal_event_value. cbv zeta.
  apply event_value_before, H.
Qed.

(** X14.  Up to and including the earliest delay of a visible control
    the combined curve is zero. *)
Theorem combined_silent_before_first_event
    (controls : list PiezoGui.SignalControls) (t : R) :
  Forall (fun c => PiezoGui.is_visible c = true ->
                   t <= PiezoGui.get_values c !!! "delay" / 1000) controls ->
  PiezoGui.combined controls t = 0.
Proof.
  intros Hall. rewrite combined_sum.
  induction Hall as [| c controls Hc Hall IH]; [reflexivity |].
  cbn [filter]. destruct (PiezoGui.is_visible c) eqn:E; [| exact IH].
  unfold np.sum in *. cbn [map fold_right].
  rewrite IH, calculate_signal_before by (apply Hc; reflexivity). lra.
Qed.

Lemma combined_silent_before_first_event_witness :
  PiezoGui.combined [faint_event] 0 = 0.
Proof.
  apply (combined_silent_before_first_event [faint_event] 0).
  constructor; [| constructor]. intros _.
  unfold faint_event; cbn [PiezoGui.get_values]. dict. lra.
Defined.

Lemma calculate_signal_envelope (c : PiezoGui.SignalControls) (t : R) :
  0 <= PiezoGui.get_values c !!! "damping" ->
  0 <= PiezoGui.get_values c !!! "frequency" ->
  Rabs (PiezoGui.calculate_signal c t)
  <= Rabs (PiezoGui.get_values c !!! "amplitude").
Proof.
  intros Hz Hf. unfold PiezoGui.calculate_signal. cbv zeta.
  set (values := PiezoGui.get_values c) in *.
  set (delay := values !!! "delay" / 1000).
  destruct (Rleb delay t) eqn:Hmask.
  2:{ rewrite Rabs_R0. apply Rabs_pos. }
  apply Rleb_true in Hmask.
  set (alpha := values !!! "damping" * (2 * PI * values !!! "frequency")).
  assert (Halpha : 0 <= alpha).
  { unfold alpha. pose proof PI_RGT_0. apply Rmult_le_pos; [exact Hz |].
    apply Rmult_le_pos; [lra | exact Hf]. }
  replace (- alpha * (t - delay)) with (- (alpha * (t - delay))) by ring.
  destruct (exp_neg_le_1 (alpha * (t - delay))) as [He0 He1].
  { apply Rmult_le_pos; lra. }
  rewrite !Rabs_mult.
  pose proof (Rabs_pos (values !!! "amplitude")) as Ha.
  rewrite (Rabs_right (exp _)) by lra.
  match goal with |- context [sin ?u] => set (s := u) end.
  pose proof (SIN_bound s) as Hs.
  assert (Hs1 : Rabs (sin s) <= 1) by (apply Rabs_le; lra).
  pose proof (Rabs_pos (sin s)).
  apply Rle_trans with (Rabs (values !!! "amplitude") * 1 * 1); [| lra].
  apply Rmult_le_compat; [| apply Rabs_pos | | exact Hs1].
  - apply Rmult_le_pos; lra.
  - apply Rmult_le_compat; lra.
Qed.

(** X15.  With damping ratios and frequencies that are not negative, as
    the spin boxes guarantee, the curve of a control never exceeds its
    amplitude in magnitude, and the combined curve never exceeds the sum
    of the amplitudes of the visible controls. *)
Theorem combined_envelope (controls : list PiezoGui.SignalControls) (t : R) :
  Forall (fun c => PiezoGui.is_visible c = true ->
                   0 <= PiezoGui.get_values c !!! "damping"
                   /\ 0 <= PiezoGui.get_values c !!! "frequency") controls ->
  Forall (fun c => PiezoGui.is_visible c = true ->
                   Rabs (PiezoGui.calculate_signal c t)
                   <= Rabs (PiezoGui.get_values c !!! "amplitude")) controls
  /\ Rabs (PiezoGui.combined controls t)
     <= np.sum (map (fun c => Rabs (PiezoGui.get_values c !!! "amplitude"))
                    (filter PiezoGui.is_visible controls)).
Proof.
  intros Hall. split.
  - eapply Forall_impl; [| exact Hall]. intros c Hc Hv.
    destruct (Hc Hv). apply calculate_signal_envelope; assumption.
  - rewrite combined_sum. unfold np.sum.
    induction Hall as [| c controls Hc Hall IH]; [cbn; rewrite Rabs_R0; lra |].
    cbn [filter]. destruct (PiezoGui.is_visible c) eqn:E; [| exact IH].
    cbn [map fold_right]. destruct (Hc eq_refl) as [Hz Hf].
    pose proof (calculate_signal_envelope c t Hz Hf).
    eapply Rle_trans; [apply Rabs_triang |]. lra.
Qed.

Lemma combined_envelope_witness :
  Rabs (PiezoGui.combined [faint_event] 0.001) <= 0.04.
Proof.
  destruct (combined_envelope [faint_event] 0.001) as [_ H].
  { constructor; [| constructor]. intros _.
    unfold faint_event; cbn [PiezoGui.get_values]. dict. lra. }
  eapply Rle_trans; [exact H |].
  unfold np.sum, faint_event; cbn. dict. rewrite Rabs_right by lra. lra.
Defined.

(** *** [update_plot] *)

Lemma time_array_spec (md : R) :
  length (PiezoGuiPlot.time_array md) = Z.to_nat 10000
  /\ nth 0 (PiezoGuiPlot.time_array md) 0 = 0
  /\ nth (Z.to_nat 9999) (PiezoGuiPlot.time_array md) 0 = (md + 50) / 1000.
Proof.
  unfold PiezoGuiPlot.time_array. split; [apply linspace_length |].
  rewrite !linspace_nth by lia.
  assert (E1 : INR (Z.to_nat 10000) = 10000)
    by (rewrite INR_IZR_INZ, Z2Nat.id by lia; reflexivity).
  assert (E2 : INR (Z.to_nat 9999) = 9999)
    by (rewrite INR_IZR_INZ, Z2Nat.id by lia; reflexivity).
  rewrite E1, E2. cbn [INR]. split; field.
Qed.

(** X16.  [update_plot] raises a [ValueError] when no control is visible.
    Otherwise it draws 10000 points from 0 to 50 ms after the latest delay
    of a visible control, with voltage limits that strictly contain the
    combined curve, and shows the model text of the same controls. *)
Theorem update_plot_outcome (now : string) (controls : list PiezoGui.SignalControls) :
  let visible := filter PiezoGui.is_visible controls in
  match visible with
  | [] => exists msg, PiezoGuiPlot.update_plot now controls = Raise (ValueError msg)
  | _ :: _ =>
      exists (md : R) (p : PiezoGuiPlot.plot),
        PiezoGuiPlot.update_plot now controls = Return p
        /\ Forall (fun c => PiezoGui.get_values c !!! "delay" <= md) visible
        /\ Exists (fun c => PiezoGui.get_values c !!! "delay" = md) visible
        /\ length (PiezoGuiPlot.plot_t p) = Z.to_nat 10000
        /\ nth 0 (PiezoGuiPlot.plot_t p) 0 = 0
        /\ nth (Z.to_nat 9999) (PiezoGuiPlot.plot_t p) 0 = (md + 50) / 1000
        /\ PiezoGuiPlot.plot_combined p
           = map (PiezoGui.combined controls) (PiezoGuiPlot.plot_t p)
        /\ Forall (fun v => fst (PiezoGuiPlot.plot_ylim p) < v
                            < snd (PiezoGuiPlot.plot_ylim p))
                  (PiezoGuiPlot.plot_combined p)
        /\ PiezoGuiPlot.plot_spice_text p
           = PiezoGui.generate_spice_model now controls
  end.
Proof.
  intros visible. unfold PiezoGuiPlot.update_plot, PiezoGuiPlot.max_delay.
  fold visible.
  pose proof (builtin_max_spec
                (map (fun c => PiezoGui.get_values c !!! "delay") visible)) as Hmax.
  destruct visible as [| c0 rest] eqn:Evis.
  { cbn. eauto. }
  set (delays := map (fun c => PiezoGui.get_values c !!! "delay") (c0 :: rest)) in *.
  destruct (PiezoGuiPlot.builtin_max delays) as [md | e].
  2:{ destruct Hmax as [E _]. discriminate E. }
  destruct Hmax as [Hall Hin]. unfold delays in Hall, Hin.
  rewrite Forall_map in Hall. apply in_map_iff in Hin.
  destruct (time_array_spec md) as (Hlen & H0 & Hlast).
  set (t := PiezoGuiPlot.time_array md) in *.
  destruct (plot_range_ylim t (map (PiezoGui.combined controls) t))
    as (xlim & y_lo & y_hi & Hrange & Hy).
  { intros E. rewrite E in Hlen. cbn in Hlen. lia. }
  { intros E. apply (f_equal (@length R)) in E. rewrite length_map, Hlen in E.
    cbn in E. lia. }
  rewrite Hrange.
  exists md. eexists. split; [reflexivity |]. cbn.
  split; [exact Hall |]. split.
  { apply Exists_exists. destruct Hin as (c & Hc & Hin). eauto. }
  repeat split; auto.
Qed.

(** ** [generate_spice_model]: the lines of the visible controls *)

Lemma string_app_nil_r (s : string) : (s ++ "")%string = s.
Proof.
  induction s as [| ch s IH]; [reflexivity |].
  change (String ch (s ++ "") = String ch s)%string. f_equal. exact IH.
Qed.

Lemma generate_loop (controls : list PiezoGui.SignalControls)
    (model : string) (first : bool) :
  let lines := map PiezoGui.control_line (filter PiezoGui.is_visible controls) in
  fst (fold_left
         (fun (st : string * bool) control =>
            let (model, first) := st in
            if negb (PiezoGui.is_visible control) then st
            else
              let model := if negb first then (model ++ "+")%string else model in
              ((model ++ PiezoGui.control_line control)%string, false))
         controls (model, first))
  = (model ++ match lines with
              | [] => ""
              | _ :: _ => (if first then "" else "+") ++ String.concat "+" lines
              end)%string.
Proof.
  revert model first. induction controls as [| c controls IH]; intros model first.
  - cbn. now rewrite string_app_nil_r.
  - cbn [fold_left filter]. destruct (PiezoGui.is_visible c) eqn:E; cbn [negb].
    + rewrite IH. cbn [map].
      set (rest := map PiezoGui.control_line (filter PiezoGui.is_visible controls)).
      assert (Hc : (PiezoGui.control_line c
                    ++ match rest with
                       | [] => ""
                       | _ :: _ => "+" ++ String.concat "+" rest
                       end)%string
                   = String.concat "+" (PiezoGui.control_line c :: rest)).
      { destruct rest; [apply string_app_nil_r | reflexivity]. }
      rewrite <- Hc. destruct first; cbn [negb].
      * rewrite string_app_assoc. reflexivity.
      * rewrite !string_app_assoc. reflexivity.
    + apply IH.
Qed.

(** X17.  The model text is the header, the lines of the visible controls
    in their order with a [+] between consecutive lines, and the closing
    lines; hidden controls leave no trace in it. *)
Theorem generate_spice_model_lines (now : string)
    (controls : list PiezoGui.SignalControls) :
  PiezoGui.generate_spice_model now controls
  = (PiezoGui.header now
     ++ String.concat "+"
          (map PiezoGui.control_line (filter PiezoGui.is_visible controls))
     ++ newline ++ "+ }" ++ newline ++ newline ++ ".ENDS MULTI_PIEZO")%string
  /\ PiezoGui.generate_spice_model now (filter PiezoGui.is_visible controls)
     = PiezoGui.generate_spice_model now controls.
Proof.
  assert (H : forall cs,
    PiezoGui.generate_spice_model now cs
    = (PiezoGui.header now
       ++ String.concat "+" (map PiezoGui.control_line (filter PiezoGui.is_visible cs))
       ++ newline ++ "+ }" ++ newline ++ newline ++ ".ENDS MULTI_PIEZO")%string).
  { intros cs. unfold PiezoGui.generate_spice_model. cbv zeta.
    rewrite generate_loop. cbv zeta.
    rewrite string_app_assoc. f_equal. f_equal.
    destruct (map _ _); reflexivity. }
  split; [apply H |]. rewrite !H, filter_idem. reflexivity.
Qed.

(** ** The scale slider and the DC bin *)

(** X18.  Moving the "Global Scale" slider to [s] redraws the curve of
    scale 1 multiplied by [s], point by point; recording, time axis and
    all other parameters are left alone. *)
Theorem scale_slider_rescales_preview (self : PiezoAutoFitter.t) (s : R) :
  let moved := PiezoAutoFitter.on_slider_change self "scale" s in
  PiezoAutoFitter.update_plot moved
  = option_map (map (fun ty : R * R => (fst ty, s * snd ty)))
      (PiezoAutoFitter.update_plot
         (PiezoAutoFitter.on_slider_change self "scale" 1))
  /\ PiezoAutoFitter.data moved = PiezoAutoFitter.data self
  /\ PiezoAutoFitter.time moved = PiezoAutoFitter.time self
  /\ PiezoAutoFitter.params moved !! "scale" = Some s
  /\ delete "scale" (PiezoAutoFitter.params moved)
     = delete "scale" (PiezoAutoFitter.params self).
Proof.
  intros moved. unfold moved, PiezoAutoFitter.on_slider_change,
    PiezoAutoFitter.update_plot.
  cbn [PiezoAutoFitter.data PiezoAutoFitter.time PiezoAutoFitter.params].
  split; [| split; [reflexivity | split; [reflexivity | split]]].
  - destruct (PiezoAutoFitter.data self) as [d |]; [| reflexivity].
    destruct (PiezoAutoFitter.time self) as [tm |]; [| reflexivity].
    cbn [option_map]. f_equal. rewrite map_map. apply map_ext. intros t.
    cbn [fst snd]. f_equal.
    unfold PiezoAutoFitter.total_signal, PiezoAutoFitter.plot_c1,
      PiezoAutoFitter.plot_c2.
    dict. ring.
  - apply lookup_insert_eq.
  - apply delete_insert_eq.
Qed.

Lemma sum_imap_ext (g : nat -> R -> R) (h : R -> R) (a : list R) :
  (forall n x, g n x = h x) -> np.sum (imap g a) = np.sum (map h a).
Proof.
  unfold np.sum. revert g. induction a as [| x a IH]; intros g Hg; [reflexivity |].
  cbn [imap map fold_right]. rewrite Hg. f_equal.
  apply IH. intros n y. apply Hg.
Qed.

Lemma fft_bin_dc (d : list R) : np.fft_bin d 0 = (np.sum d, -0).
Proof.
  unfold np.fft_bin. f_equal.
  - rewrite (sum_imap_ext _ (fun x => x)).
    + now rewrite map_id.
    + intros n x. cbn [INR].
      replace (2 * PI * 0 * INR n / INR (length d)) with 0
        by (unfold Rdiv; ring).
      rewrite cos_0. ring.
  - f_equal. rewrite (sum_imap_ext _ (fun _ => 0)).
    + unfold np.sum. induction d as [| x d IH]; [reflexivity |].
      cbn [map fold_right]. rewrite IH. ring.
    + intros n x. cbn [INR].
      replace (2 * PI * 0 * INR n / INR (length d)) with 0
        by (unfold Rdiv; ring).
      rewrite sin_0. ring.
Qed.

(** X19.  The first bin of the magnitude spectrum is the magnitude of the
    sum of the samples.  It counts towards the maximum from which the 10%
    threshold is taken but is never reported as a peak, so every reported
    peak has a magnitude of at least a tenth of that of the sum of the
    samples. *)
Theorem dc_bin_sets_threshold (d : list R) (mag_max : R) :
  (2 <= length d)%nat ->
  let mag := PiezoAutoFitter.spectrum_mag d in
  np.max mag = Some mag_max ->
  np.getitem mag 0 = Rabs (np.sum d)
  /\ Rabs (np.sum d) <= mag_max
  /\ forall p, In p (PiezoAutoFitter.sorted_peak_indices mag mag_max) ->
       p <> 0%nat /\ Rabs (np.sum d) * 0.1 <= np.getitem mag p.
Proof.
  intros Hlen mag Hmax.
  assert (Hhalf : (0 < length d / 2)%nat)
    by (apply Nat.div_str_pos; lia).
  assert (H0 : np.getitem mag 0 = Rabs (np.sum d)).
  { unfold mag. rewrite spectrum_mag_nth by exact Hhalf.
    rewrite fft_bin_dc. unfold np.abs_complex. cbn [fst snd].
    replace (np.sum d * np.sum d + - 0 * - 0) with (Rsqr (np.sum d))
      by (unfold Rsqr; ring).
    apply sqrt_Rsqr_abs. }
  destruct (np_max_spec _ _ Hmax) as [Hall _].
  assert (Hle : Rabs (np.sum d) <= mag_max).
  { rewrite <- H0. rewrite Forall_forall in Hall. apply Hall.
    apply nth_In. unfold mag. rewrite spectrum_mag_length. exact Hhalf. }
  split; [exact H0 |]. split; [exact Hle |]. intros p Hp.
  split; [apply sorted_peak_inside in Hp; lia |].
  destruct (sorted_peak_indices_spec mag mag_max) as [Hperm _].
  apply (Permutation_in _ (Permutation_sym Hperm)) in Hp.
  destruct (find_peaks_spec mag (mag_max * 0.1) 50) as (_ & Hsound & _).
  destruct (Hsound p Hp) as [_ Hh]. lra.
Qed.

Lemma dc_bin_sets_threshold_witness :
  np.getitem (PiezoAutoFitter.spectrum_mag tone_window) 0
  = Rabs (np.sum tone_window).
Proof.
  apply (dc_bin_sets_threshold tone_window 5); [simpl; lia |].
  rewrite tone_spectrum. unfold np.max. cbn [fold_left]. f_equal.
  rewrite (Rmax_left 5 0) by lra. rewrite (Rmax_left 5 0.5) by lra.
  rewrite (Rmax_left 5 0) by lra. reflexivity.
Defined.

(** ** [export_data] *)

Section ExportData.

Import PiezoGui PiezoGuiExport.

Variable t : list R.

Let step := fun (st : string * list (list R)) (p : Panel) =>
  let (header, data) := st in
  if is_visible (control p)
  then ((header ++ "," ++ signal_label p ++ "(V)")%string,
        data ++ [map (calculate_signal (control p)) t])
  else st.

Let shown (panels : list Panel) : list Panel :=
  filter (fun p => is_visible (control p)) panels.

Lemma concat_cons_snoc (x c : string) (l : list string) :
  String.concat "," (x :: l ++ [c])
  = (x ++ "," ++ String.concat "," (l ++ [c]))%string.
Proof. destruct l; reflexivity. Qed.

Lemma export_loop_header (panels : list Panel) (header : string)
    (data : list (list R)) :
  (fst (fold_left step panels (header, data)) ++ ",Combined(V)")%string
  = String.concat ","
      (header :: map (fun p => (signal_label p ++ "(V)")%string) (shown panels)
              ++ ["Combined(V)"%string]).
Proof.
  revert header data. induction panels as [| p panels IH]; intros header data.
  - reflexivity.
  - cbn [fold_left]. unfold step at 2. unfold shown. cbn [filter].
    destruct (is_visible (control p)); [| apply IH].
    rewrite IH. cbn [map]. fold (shown panels).
    set (f := fun p0 : Panel => (signal_label p0 ++ "(V)")%string).
    rewrite (concat_cons_snoc _ "Combined(V)" (map f (shown panels))).
    change (signal_label p ++ "(V)")%string with (f p).
    rewrite (concat_cons_snoc header "Combined(V)" (f p :: map f (shown panels))).
    cbn [app].
    rewrite (concat_cons_snoc (f p) "Combined(V)" (map f (shown panels))).
    rewrite !string_app_assoc. reflexivity.
Qed.

Lemma export_loop_data (panels : list Panel) (header : string)
    (data : list (list R)) :
  snd (fold_left step panels (header, data))
  = data ++ map (fun p => map (calculate_signal (control p)) t) (shown panels).
Proof.
  revert header data. induction panels as [| p panels IH]; intros header data.
  - cbn. now rewrite app_nil_r.
  - cbn [fold_left]. unfold step at 2. unfold shown. cbn [filter].
    destruct (is_visible (control p)); [| apply IH].
    rewrite IH. cbn [map]. now rewrite <- app_assoc.
Qed.

Lemma shown_controls (panels : list Panel) :
  filter is_visible (map control panels) = map control (shown panels).
Proof.
  unfold shown. induction panels as [| p panels IH]; [reflexivity |].
  cbn [map filter]. destruct (is_visible (control p)); cbn [map]; now rewrite IH.
Qed.

End ExportData.

Lemma nth_map_in (f : R -> R) (l : list R) (i : nat) :
  (i < length l)%nat -> nth i (map f l) 0 = f (nth i l 0).
Proof.
  intros Hi. rewrite (nth_indep _ 0 (f 0)) by (rewrite length_map; exact Hi).
  apply map_nth.
Qed.

(** X20.  For a file name and at least one visible panel, [export_data]
    writes a header that is the comma-separated list of "Time(ms)", one
    name per visible panel and "Combined(V)", and 10000 rows; row [i]
    holds the time in milliseconds, the value of each visible panel at
    that time, in the same order, and last their sum.  Without a visible
    panel it raises a [ValueError]. *)
Theorem export_data_table (filename : string) (panels : list PiezoGuiExport.Panel) :
  filename <> "" ->
  let visible :=
    filter (fun p => PiezoGui.is_visible (PiezoGuiExport.control p)) panels in
  match visible with
  | [] =>
      exists msg,
        PiezoGuiExport.export_data filename panels = Raise (ValueError msg)
  | _ :: _ =>
      exists (md : R) (header : string) (rows : list (list R)),
        PiezoGuiPlot.max_delay (map PiezoGuiExport.control panels) = Return md
        /\ PiezoGuiExport.export_data filename panels = Return (Some (header, rows))
        /\ header
           = String.concat ","
               ("Time(ms)"%string
                :: map (fun p => (PiezoGuiExport.signal_label p ++ "(V)")%string)
                       visible
                ++ ["Combined(V)"%string])
        /\ length rows = Z.to_nat 10000
        /\ forall i, (i < Z.to_nat 10000)%nat ->
             let u := nth i (PiezoGuiPlot.time_array md) 0 in
             let signals :=
               map (fun p => PiezoGui.calculate_signal (PiezoGuiExport.control p) u)
                   visible in
             nth i rows [] = (u * 1000) :: signals ++ [np.sum signals]
  end.
Proof.
  intros Hname visible. unfold PiezoGuiExport.export_data.
  destruct (String.eqb_spec filename "") as [E | _]; [contradiction |].
  pose proof (shown_controls panels) as Hsc. cbv beta zeta in Hsc.
  pose proof (fun t h d => export_loop_header t panels h d) as Hhd.
  pose proof (fun t h d => export_loop_data t panels h d) as Hdt.
  cbv beta zeta in Hhd, Hdt. fold visible in Hsc, Hhd, Hdt.
  unfold PiezoGuiPlot.max_delay. rewrite Hsc.
  pose proof (builtin_max_spec
                (map (fun c => PiezoGui.get_values c !!! "delay")
                     (map PiezoGuiExport.control visible))) as Hmax.
  destruct visible as [| p0 rest] eqn:Evis.
  { cbn. eauto. }
  destruct (PiezoGuiPlot.builtin_max _) as [md | e].
  2:{ destruct Hmax as [E _]. discriminate E. }
  clear Hmax. exists md. eexists _, _. split; [reflexivity |].
  split; [reflexivity |]. cbv zeta.
  destruct (time_array_spec md) as (Hlen & _).
  set (t := PiezoGuiPlot.time_array md) in *.
  split; [| split].
  - rewrite Hhd. reflexivity.
  - rewrite Hdt. cbn [app PiezoGuiExport.column_stack].
    rewrite length_map, length_seq, length_map. exact Hlen.
  - intros i Hi. rewrite Hdt.
    set (cols := map (fun p => map (PiezoGui.calculate_signal
                                      (PiezoGuiExport.control p)) t) (p0 :: rest)).
    cbn [app PiezoGuiExport.column_stack].
    rewrite length_map, Hlen.
    set (row := fun i0 : nat => map (fun col : list R => nth i0 col 0) _).
    rewrite (nth_indep _ [] (row O)) by (rewrite length_map, length_seq; exact Hi).
    rewrite (map_nth row), seq_nth by exact Hi. cbn [Nat.add]. unfold row.
    cbn [map]. rewrite nth_map_in by (rewrite Hlen; exact Hi). f_equal.
    rewrite map_app. cbn [map]. unfold cols. rewrite map_map.
    assert (Hsig : map (fun p => nth i (map (PiezoGui.calculate_signal
                                               (PiezoGuiExport.control p)) t) 0)
                       (p0 :: rest)
                   = map (fun p => PiezoGui.calculate_signal
                                     (PiezoGuiExport.control p) (nth i t 0))
                         (p0 :: rest)).
    { apply map_ext. intros p. apply nth_map_in. rewrite Hlen. exact Hi. }
    rewrite Hsig. f_equal. f_equal.
    rewrite nth_map_in by (rewrite Hlen; exact Hi).
    rewrite combined_sum, Hsc, map_map. reflexivity.
Qed.

Lemma export_data_table_witness :
  exists (header : string) (rows : list (list R)),
    PiezoGuiExport.export_data "piezo_data.csv" [faint_panel]
    = Return (Some (header, rows))
    /\ header = "Time(ms),Signal 1(V),Combined(V)"%string.
Proof.
  destruct (export_data_table "piezo_data.csv" [faint_panel])
    as (md & header & rows & _ & Hrun & Hh & _); [discriminate |].
  exists header, rows. split; [exact Hrun | exact Hh].
Defined.
